(** * Principia: the hexadecimal codec and the push deserializer

    A shallow embedding of [base/hexadecimal_body.hpp] (the two lookup
    tables, [HexadecimalEncode] and [HexadecimalDecode], run over a flat
    byte-addressed memory so that overlapping buffers can be expressed) and
    of the chunk queue of [base/push_deserializer.hpp]. *)

From Stdlib Require Import ZArith List String Ascii Bool Lia.
From Stdlib Require Import Strings.Byte.
Import ListNotations.

Open Scope Z_scope.

(** ** Machine data *)

Module Machine.

(** A [uint8_t] is a [byte]; its value as an [int] after integral promotion. *)
Definition int_of_uint8 (b : byte) : Z := Z.of_N (Byte.to_N b).

(** Conversion of an [int] to [uint8_t]: the low eight bits are kept. *)
Definition uint8_of_int (z : Z) : byte :=
  match Byte.of_N (Z.to_N (z mod 256)) with
  | Some b => b
  | None => x00
  end.

(** The values of [int64_t], and what a 64-bit register keeps of a result. *)
Definition int64_range (z : Z) : Prop := - 2 ^ 63 <= z < 2 ^ 63.

Definition int64_wrap (z : Z) : Z := (z + 2 ^ 63) mod 2 ^ 64 - 2 ^ 63.

(** [x << 1] on [int64_t]. *)
Definition shl1 (x : Z) : Z := int64_wrap (Z.shiftl x 1).

(** Memory is flat: an address is an integer and every cell holds a byte.
    Pointers are addresses, [p + k] is address arithmetic and pointers are
    compared as addresses. *)
Definition memory := Z -> byte.

Definition store (m : memory) (a : Z) (b : byte) : memory :=
  fun x => if x =? a then b else m x.

(** The [n] bytes of the buffer that starts at [p]. *)
Fixpoint load (m : memory) (p : Z) (n : nat) : list byte :=
  match n with
  | O => []
  | S k => m p :: load m (p + 1) k
  end.

(** Writes the bytes of [l] from address [p] on. *)
Fixpoint fill (m : memory) (p : Z) (l : list byte) : memory :=
  match l with
  | [] => m
  | b :: t => fill (store m p b) (p + 1) t
  end.

Definition blank : memory := fun _ => x00.

(** How a call ends: it returns (leaving the memory [m]), a glog [CHECK]
    fails and aborts the process with its message, or a loop runs past the
    number of iterations its size argument allows (it walks out of the
    buffers; this happens with negative sizes only). *)
Inductive outcome : Type :=
| Returns (m : memory)
| CheckFailure (msg : string)
| LoopOverrun.

End Machine.

Import Machine.

(** ** base/hexadecimal_body.hpp *)

Module Hexadecimal.

Definition kByteToHexadecimalDigits : list byte :=
  list_byte_of_string
   ("000102030405060708090A0B0C0D0E0F101112131415161718191A1B1C1D1E1F2021222324"
 ++ "25262728292A2B2C2D2E2F303132333435363738393A3B3C3D3E3F40414243444546474849"
 ++ "4A4B4C4D4E4F505152535455565758595A5B5C5D5E5F606162636465666768696A6B6C6D6E"
 ++ "6F707172737475767778797A7B7C7D7E7F808182838485868788898A8B8C8D8E8F90919293"
 ++ "9495969798999A9B9C9D9E9FA0A1A2A3A4A5A6A7A8A9AAABACADAEAFB0B1B2B3B4B5B6B7B8"
 ++ "B9BABBBCBDBEBFC0C1C2C3C4C5C6C7C8C9CACBCCCDCECFD0D1D2D3D4D5D6D7D8D9DADBDCDD"
 ++ "DEDFE0E1E2E3E4E5E6E7E8E9EAEBECEDEEEFF0F1F2F3F4F5F6F7F8F9FAFBFCFDFEFF")%string.

(** [kByteToHexadecimalDigits[i]]; the string literal ends with a NUL. *)
Definition digits_at (i : Z) : byte :=
  nth (Z.to_nat i) kByteToHexadecimalDigits x00.

Definition SKIP_7 : list Z := [0; 0; 0; 0; 0; 0; 0].
Definition SKIP_26 : list Z := SKIP_7 ++ SKIP_7 ++ SKIP_7 ++ [0; 0; 0; 0; 0].
Definition SKIP_48 : list Z := SKIP_26 ++ SKIP_7 ++ SKIP_7 ++ SKIP_7 ++ [0].

(** The initializer of [kHexadecimalDigitsToNibble]. *)
Definition nibble_initializer : list Z :=
  SKIP_48 ++ [0; 1; 2; 3; 4; 5; 6; 7; 8; 9] ++
  SKIP_7 ++ [0xa; 0xb; 0xc; 0xd; 0xe; 0xf] ++
  SKIP_26 ++ [0xa; 0xb; 0xc; 0xd; 0xe; 0xf].

(** The array has 256 elements; those the initializer does not give are 0. *)
Definition kHexadecimalDigitsToNibble : list Z :=
  nibble_initializer ++ repeat 0 (256 - List.length nibble_initializer).

Definition nibble_at (b : byte) : Z :=
  nth (Z.to_nat (int_of_uint8 b)) kHexadecimalDigitsToNibble 0.

(** [memcpy(output, &kByteToHexadecimalDigits[i], 2)]. *)
Definition memcpy_digits (m : memory) (output i : Z) : memory :=
  store (store m output (digits_at i)) (output + 1) (digits_at (i + 1)).

(** The loop of [HexadecimalEncode]:
    [for (; input != input_rend; --input, output -= 2) memcpy(...)]. *)
Fixpoint encode_loop (fuel : nat) (input_rend input output : Z) (m : memory)
  : outcome :=
  if input =? input_rend then Returns m
  else
    match fuel with
    | O => LoopOverrun
    | S fuel' =>
        encode_loop fuel' input_rend (input - 1) (output - 2)
          (memcpy_digits m output (Z.shiftl (int_of_uint8 (m input)) 1))
    end.

Definition HexadecimalEncode (m : memory) (input input_size : Z)
    (output output_size : Z) : outcome :=
  if negb ((input <=? output + 1) || (output + shl1 input_size <=? input))
  then CheckFailure "bad overlap"
  else if negb (output_size >=? shl1 input_size)
  then CheckFailure "output too small"
  else
    let output := output + shl1 (input_size - 1) in
    let input := input + input_size - 1 in
    let input_rend := input - input_size in
    encode_loop (Z.to_nat input_size) input_rend input output m.

(** The value stored by one step of [HexadecimalDecode]:
    [(kHexadecimalDigitsToNibble[*input] << 4) |
      kHexadecimalDigitsToNibble[*(input + 1)]]. *)
Definition decode_pair (hi lo : byte) : byte :=
  uint8_of_int (Z.lor (Z.shiftl (nibble_at hi) 4) (nibble_at lo)).

(** The loop of [HexadecimalDecode]:
    [for (; input != input_end; input += 2, ++output) *output = ...]. *)
Fixpoint decode_loop (fuel : nat) (input_end input output : Z) (m : memory)
  : outcome :=
  if input =? input_end then Returns m
  else
    match fuel with
    | O => LoopOverrun
    | S fuel' =>
        decode_loop fuel' input_end (input + 2) (output + 1)
          (store m output (decode_pair (m input) (m (input + 1))))
    end.

Definition HexadecimalDecode (m : memory) (input input_size : Z)
    (output output_size : Z) : outcome :=
  let input_size := Z.land input_size (Z.lnot 1) in
  if negb ((output <=? input + 1) || (input + input_size <=? output))
  then CheckFailure "bad overlap"
  else if negb (output_size >=? Z.quot input_size 2)
  then CheckFailure "output too small"
  else
    let input_end := input + input_size in
    decode_loop (Z.to_nat input_size) input_end input output m.

(** *** What the tables hold, said without the tables *)

(** The character of a hexadecimal digit, upper case. *)
Definition upper_digit (n : Z) : byte :=
  nth (Z.to_nat n) (list_byte_of_string "0123456789ABCDEF") x00.

(** The two upper-case hexadecimal digits of a byte, high nibble first. *)
Definition hex_of_byte (b : byte) : list byte :=
  [upper_digit (int_of_uint8 b / 16); upper_digit (int_of_uint8 b mod 16)].

(** The value of a character read as a hexadecimal digit of either case;
    any other character reads as 0. *)
Definition digit_value (c : byte) : Z :=
  let v := int_of_uint8 c in
  if (48 <=? v) && (v <=? 57) then v - 48
  else if (65 <=? v) && (v <=? 70) then v - 55
  else if (97 <=? v) && (v <=? 102) then v - 87
  else 0.

Definition is_hex_digit (c : byte) : bool :=
  let v := int_of_uint8 c in
  ((48 <=? v) && (v <=? 57)) || ((65 <=? v) && (v <=? 70))
  || ((97 <=? v) && (v <=? 102)).

(** Buffers as lists: the text of a buffer and the bytes of a text. *)
Definition encode_list (l : list byte) : list byte := flat_map hex_of_byte l.

Fixpoint decode_list (l : list byte) : list byte :=
  match l with
  | hi :: lo :: t => decode_pair hi lo :: decode_list t
  | _ => []
  end.

(** Lower-case hexadecimal letters put in upper case, all else kept. *)
Definition upper_hex (c : byte) : byte :=
  match c with
  | x61 => x41 | x62 => x42 | x63 => x43
  | x64 => x44 | x65 => x45 | x66 => x46
  | _ => c
  end.

(** Two texts that differ in the case of hexadecimal letters only. *)
Definition same_up_to_case (l l' : list byte) : Prop :=
  map upper_hex l = map upper_hex l'.

(** *** The buffer geometries *)

(** The test of the first [CHECK] of [HexadecimalEncode]. *)
Definition encode_overlap_ok (input input_size output : Z) : Prop :=
  input <= output + 1 \/ output + 2 * input_size <= input.

(** The test of the first [CHECK] of [HexadecimalDecode], on the size
    already made even. *)
Definition decode_overlap_ok (input input_size output : Z) : Prop :=
  output <= input + 1 \/ input + input_size <= output.

(** Two buffers that share no byte. *)
Definition disjoint (p n q k : Z) : Prop := p + n <= q \/ q + k <= p.

(** The geometries the specification lists for encoding: the output starts
    at or after [input + 1], or the buffers are disjoint. *)
Definition spec_encode_geometry (input input_size output : Z) : Prop :=
  input + 1 <= output \/ disjoint input input_size output (2 * input_size).

(** A call passes its overlap assertion, whatever the memory holds and
    whatever the size of the output. *)
Definition encode_accepts (input input_size output : Z) : Prop :=
  forall m output_size,
    HexadecimalEncode m input input_size output output_size
    <> CheckFailure "bad overlap".

(** The same for [HexadecimalDecode]. *)
Definition decode_accepts (input input_size output : Z) : Prop :=
  forall m output_size,
    HexadecimalDecode m input input_size output output_size
    <> CheckFailure "bad overlap".

End Hexadecimal.

Import Hexadecimal.

(** ** base/push_deserializer.hpp *)

Module PushDeserializer.

(** A [Bytes] object designates [size] bytes; it stands here for the bytes
    it designates. *)
Definition Bytes := list byte.

Definition size (b : Bytes) : Z := Z.of_nat (List.length b).

(** The data members of the class that hold its configuration and its
    queue; the front of [queue_] is the head of the list. *)
Record t : Type := Build {
  chunk_size_ : Z;
  number_of_chunks_ : Z;
  queue_ : list Bytes
}.

(** Modelled from the spec: the constructor, whose body is in
    [push_deserializer_body.hpp], not among the sources. The queue is
    created with the pipeline and holds nothing yet. *)
Definition create (chunk_size number_of_chunks : Z) : t :=
  Build chunk_size number_of_chunks [].

(** Modelled from the spec: [Put] of the bounded queue (section 4.1), whose
    code is in [push_deserializer_body.hpp], not among the sources. It
    blocks while the length of the queue is the capacity, then appends.
    [None] is a blocked caller. *)
Definition Put (d : t) (chunk : Bytes) : option t :=
  if Z.of_nat (List.length (queue_ d)) =? number_of_chunks_ d then None
  else Some (Build (chunk_size_ d) (number_of_chunks_ d) (queue_ d ++ [chunk])).

(** Modelled from the spec: [Get] of the bounded queue (section 4.1), whose
    code is in [push_deserializer_body.hpp], not among the sources. It
    blocks while the queue is empty, then removes and returns the front
    chunk. *)
Definition Get (d : t) : option (Bytes * t) :=
  match queue_ d with
  | [] => None
  | chunk :: rest =>
      Some (chunk, Build (chunk_size_ d) (number_of_chunks_ d) rest)
  end.

(** Modelled from the spec: the pieces into which [Push] splits [bytes]
    (section 4.2 and the scenario of section 8); the body of [Push] is in
    [push_deserializer_body.hpp], not among the sources. Pieces of
    [chunk_size] bytes are cut from the front for as long as more than
    [chunk_size] bytes remain; what remains is the last piece. A
    zero-length [bytes] is one piece of size 0. *)
Fixpoint pieces (fuel : nat) (chunk_size : nat) (bytes : Bytes) : list Bytes :=
  match fuel with
  | O => [bytes]
  | S fuel' =>
      if (List.length bytes <=? chunk_size)%nat then [bytes]
      else firstn chunk_size bytes
           :: pieces fuel' chunk_size (skipn chunk_size bytes)
  end.

(** Modelled from the spec: the pieces of a call [Push(bytes)] on a
    deserializer constructed with [chunk_size_]; each step cuts at least
    one byte, so [bytes.size] steps are enough. *)
Definition Push_pieces (d : t) (bytes : Bytes) : list Bytes :=
  pieces (List.length bytes) (Z.to_nat (chunk_size_ d)) bytes.

(** *** The pipeline at work

    Two threads share the queue: the caller's, inside or between calls of
    [Push], and the background thread started by [Start], whose decoding
    loop calls [Pull] until it gets a chunk of size 0. Each access to the
    queue is one critical section, so a run of the pipeline is an
    interleaving of the events below. The histories [calls], [enqueued]
    and [delivered] record what has happened; nothing reads them. *)
Record pipeline : Type := Pipeline {
  deserializer : t;
  pending : list Bytes;       (* pieces of the current [Push] not yet put *)
  end_of_input : bool;        (* a zero-length [bytes] has been pushed *)
  decoding : bool;            (* the decoding loop is still running *)
  calls : list Bytes;         (* arguments of the calls of [Push] so far *)
  enqueued : list Bytes;      (* chunks put in the queue so far *)
  delivered : list Bytes      (* chunks returned by [Pull] so far *)
}.

Inductive event : Type :=
| CallPush (bytes : Bytes)    (* the caller enters [Push(bytes)] *)
| PutNext                     (* [Push] puts its next piece *)
| PullNext.                   (* the decoding loop calls [Pull] *)

Inductive result : Type :=
| Continues (s : pipeline)
| Blocked
| Aborts (msg : string).

(** Modelled from the spec: a pipeline constructed and started
    (section 4.2). *)
Definition start (chunk_size number_of_chunks : Z) : pipeline :=
  Pipeline (create chunk_size number_of_chunks) [] false true [] [] [].

(** Modelled from the spec: the effect of each event (sections 3, 4.2 and
    7). [Push] is not entered while the caller is still inside [Push];
    entered after the end of input it is a contract violation; otherwise
    its pieces wait to be put, in order, each as soon as the queue has
    room. [Pull] returns the front chunk as soon as there is one, and a
    chunk of size 0 ends the decoding loop. *)
Definition exec (e : event) (s : pipeline) : result :=
  match e with
  | CallPush bytes =>
      match pending s with
      | _ :: _ => Blocked
      | [] =>
          if end_of_input s
          then Aborts "Push called after end-of-stream sentinel"
          else Continues
                 (Pipeline (deserializer s)
                    (Push_pieces (deserializer s) bytes)
                    (size bytes =? 0) (decoding s)
                    (calls s ++ [bytes]) (enqueued s) (delivered s))
      end
  | PutNext =>
      match pending s with
      | [] => Blocked
      | chunk :: rest =>
          match Put (deserializer s) chunk with
          | None => Blocked
          | Some d =>
              Continues
                (Pipeline d rest (end_of_input s) (decoding s)
                   (calls s) (enqueued s ++ [chunk]) (delivered s))
          end
      end
  | PullNext =>
      if decoding s then
        match Get (deserializer s) with
        | None => Blocked
        | Some (chunk, d) =>
            Continues
              (Pipeline d (pending s) (end_of_input s)
                 (negb (size chunk =? 0))
                 (calls s) (enqueued s) (delivered s ++ [chunk]))
        end
      else Blocked
  end.

(** The events of [trace] one after the other, as far as they go. *)
Fixpoint run (trace : list event) (s : pipeline) : result :=
  match trace with
  | [] => Continues s
  | e :: trace' =>
      match exec e s with
      | Continues s' => run trace' s'
      | r => r
      end
  end.

(** The states a started pipeline can be in. *)
Inductive reachable (chunk_size number_of_chunks : Z) : pipeline -> Prop :=
| reachable_start :
    reachable chunk_size number_of_chunks (start chunk_size number_of_chunks)
| reachable_step s e s' :
    reachable chunk_size number_of_chunks s ->
    exec e s = Continues s' ->
    reachable chunk_size number_of_chunks s'.

(** The steps of the two threads still to come. *)
Definition work_left (s : pipeline) : nat :=
  2 * List.length (pending s) + List.length (queue_ (deserializer s)).

(** The number of bytes that the chunks of a queue hold together. *)
Definition total_size (q : list Bytes) : Z :=
  fold_right (fun chunk acc => size chunk + acc) 0 q.

(** The events that are not a new call of [Push]. *)
Definition thread_event (e : event) : Prop :=
  match e with
  | CallPush _ => False
  | PutNext | PullNext => True
  end.

Definition nonempty (chunk : Bytes) : Prop := chunk <> [].

(** Where the chunk of size 0 is: nowhere before the end of input; last in
    line after it; last delivered once the decoding loop is over. *)
Definition sentinel_in_place (s : pipeline) : Prop :=
  let waiting := queue_ (deserializer s) ++ pending s in
  if decoding s then
    Forall nonempty (delivered s)
    /\ if end_of_input s
       then exists l, waiting = l ++ [[]] /\ Forall nonempty l
       else Forall nonempty waiting
  else
    end_of_input s = true /\ waiting = []
    /\ exists l, delivered s = l ++ [[]] /\ Forall nonempty l.

(** What holds in every state of a pipeline started with [chunk_size] and
    [number_of_chunks]. *)
Record invariant (chunk_size number_of_chunks : Z) (s : pipeline) : Prop := {
  inv_chunk_size : chunk_size_ (deserializer s) = chunk_size;
  inv_number_of_chunks : number_of_chunks_ (deserializer s) = number_of_chunks;
  inv_fifo : enqueued s = delivered s ++ queue_ (deserializer s);
  inv_pieces :
    enqueued s ++ pending s
    = flat_map (Push_pieces (create chunk_size number_of_chunks)) (calls s);
  inv_capacity :
    Z.of_nat (List.length (queue_ (deserializer s))) <= number_of_chunks;
  inv_sizes :
    Forall (fun chunk => size chunk <= chunk_size)
      (queue_ (deserializer s) ++ pending s);
  inv_sentinel : sentinel_in_place s
}.

End PushDeserializer.

Import PushDeserializer.

(** The scenario of the specification: ten bytes and their chunks for
    [chunk_size = 4]. *)
Definition bytes_0_to_9 : Bytes :=
  [x00; x01; x02; x03; x04; x05; x06; x07; x08; x09].

Definition chunks_0_to_9 : list Bytes :=
  [[x00; x01; x02; x03]; [x04; x05; x06; x07]; [x08; x09]].


(** ** The address space

    The model computes with addresses in [Z].  The pointers of the codec
    are 64-bit: where a property depends on pointers that could leave the
    address space, it is stated for calls whose pointers stay in it. *)

Module Addresses.

Definition address (p : Z) : Prop := 0 <= p < 2 ^ 64.

(** The pointers that [HexadecimalEncode] computes before its loop:
    [&output[1]], [&output[input_size << 1]],
    [output + ((input_size - 1) << 1)], [input + input_size - 1] and
    [input_rend]. *)
Definition encode_pointers (input input_size output : Z) : list Z :=
  [input; output; output + 1; output + 2 * input_size;
   output + 2 * (input_size - 1); input + input_size - 1; input - 1].

(** The pointers that [HexadecimalDecode] computes before its loop:
    [&input[1]], and [&input[input_size]], which is [input_end], for the
    size made even. *)
Definition decode_pointers (input input_size output : Z) : list Z :=
  [input; output; input + 1; input + 2 * (input_size / 2)].

End Addresses.
(** ** astronomy/date_time_body.hpp *)

Module date_time.

(** The [int] and [std::int64_t] values of this file are integers; [/] and
    [%] are the truncating [Z.quot] and [Z.rem]. Signed overflow is
    undefined in C++: the properties below are stated for arguments on
    which no intermediate result leaves its type. Strings are the [size]
    characters that start at [str]. *)

(** Modelled from the spec: the macro [CHECKING] of [base/macros.hpp], not
    among the sources. As the fatal precondition assertions of section 7,
    [CHECKING(condition, expression)] has the value of [expression] when
    [condition] holds and fails otherwise; [None] is the failure. *)
Definition CHECKING {A : Type} (condition : bool) (expression : option A)
  : option A :=
  if condition then expression else None.

(** A failed argument fails the call. *)
Definition bind {A B : Type} (a : option A) (f : A -> option B) : option B :=
  match a with
  | Some x => f x
  | None => None
  end.

Notation "x <- a ;; b" := (bind a (fun x => b))
  (at level 61, a at next level, right associativity).

Definition mjd0_yyyy : Z := 1858.
Definition mjd0_yyyymmdd : Z := 18581117.
Definition mjd0_jd0_offset : Z := 2400000.

Definition non_leap_year_month_lengths : list Z :=
  [31; 28; 31; 30; 31; 30; 31; 31; 30; 31; 30; 31].

(** [non_leap_year_month_lengths[i]]; an index outside of the array is
    undefined in the source and gives 0 here. *)
Definition month_lengths_at (i : Z) : Z :=
  if (0 <=? i) && (i <? 12)
  then nth (Z.to_nat i) non_leap_year_month_lengths 0
  else 0.

Definition is_gregorian_leap_year (year : Z) : bool :=
  (Z.rem year 4 =? 0)
  && (negb (Z.rem year 100 =? 0) || (Z.rem year 400 =? 0)).

Definition gregorian_year_length (year : Z) : Z :=
  if is_gregorian_leap_year year then 366 else 365.

Definition month_length (year month : Z) : Z :=
  if is_gregorian_leap_year year && (month =? 2)
  then 29
  else month_lengths_at (month - 1).

Definition days_in_1_year : Z := 365.
Definition days_in_4_years : Z := days_in_1_year * 4 + 1.
Definition days_in_100_years : Z := days_in_4_years * 25 - 1.
Definition days_in_400_years : Z := days_in_100_years * 4 + 1.

Definition gregorian_days_from_0000_01_01_to_year (d : Z) : option Z :=
  CHECKING (d >? 0)
    (Some
       (Z.quot (d - 1) days_in_400_years * 400
        + Z.quot (Z.rem (d - 1) days_in_400_years) days_in_100_years * 100
        + Z.quot
            (Z.rem (Z.rem (d - 1) days_in_400_years) days_in_100_years)
            days_in_4_years * 4
        + Z.quot
            (Z.rem
               (Z.rem (Z.rem (d - 1) days_in_400_years) days_in_100_years)
               days_in_4_years)
            days_in_1_year)).

Definition gregorian_days_from_0000_01_01_to_ordinal (d : Z) : option Z :=
  CHECKING (d >? 0)
    (Some
       (Z.rem
          (Z.rem
             (Z.rem (Z.rem (d - 1) days_in_400_years) days_in_100_years)
             days_in_4_years)
          days_in_1_year
        + 1)).

Definition gregorian_days_from_0000_01_01_at_start_of_year (year : Z)
  : option Z :=
  CHECKING (year >? 0)
    (Some
       (1 + year * 365 + Z.quot (year - 1) 4 - Z.quot (year - 1) 100
        + Z.quot (year - 1) 400)).

(** [digit_range] recurs on [end - 1] until [begin == end]; [fuel] bounds
    the depth and [end] steps are always enough, since a call with
    [end < begin] or [begin < 0] fails at once. *)
Fixpoint digit_range_rec (fuel : nat) (digits begin_ end_ : Z) : option Z :=
  CHECKING ((digits >=? 0) && (begin_ >=? 0) && (begin_ <=? end_))
    (if begin_ =? end_ then Some 0
     else
       match fuel with
       | O => None
       | S fuel' =>
           if begin_ =? 0
           then r <- digit_range_rec fuel' (Z.quot digits 10) 0 (end_ - 1) ;;
                Some (r * 10 + Z.rem digits 10)
           else digit_range_rec fuel' (Z.quot digits 10) (begin_ - 1)
                  (end_ - 1)
       end).

Definition digit_range (digits begin_ end_ : Z) : option Z :=
  digit_range_rec (Z.to_nat end_) digits begin_ end_.

(** [shift_left] and [shift_right] recur [count] times. *)
Fixpoint shift_left_rec (fuel : nat) (x count : Z) : option Z :=
  CHECKING (count >=? 0)
    (if count =? 0 then Some x
     else
       match fuel with
       | O => None
       | S fuel' => shift_left_rec fuel' (x * 10) (count - 1)
       end).

Definition shift_left (x count : Z) : option Z :=
  shift_left_rec (Z.to_nat count) x count.

Fixpoint shift_right_rec (fuel : nat) (x count : Z) : option Z :=
  CHECKING (count >=? 0)
    (if count =? 0 then Some x
     else
       match fuel with
       | O => None
       | S fuel' => shift_right_rec fuel' (Z.quot x 10) (count - 1)
       end).

Definition shift_right (x count : Z) : option Z :=
  shift_right_rec (Z.to_nat count) x count.

(** *** class Date *)

Record Date : Type := Date_ {
  year_ : Z;
  month_ : Z;
  day_ : Z
}.

Definition Date_Calendar (year month day : Z) : option Date :=
  CHECKING
    ((year >=? 1583) && (year <=? 9999) && (month >=? 1) && (month <=? 12)
     && (day >=? 1) && (day <=? month_length year month))
    (Some (Date_ year month day)).

(** [add_days_within_year] recurs on the first day of the next month, which
    [Date::Calendar] makes only for a month from 1 to 12: twelve steps are
    always enough. *)
Fixpoint add_days_within_year_rec (fuel : nat) (date : Date) (days : Z)
  : option Date :=
  CHECKING (days >=? 0)
    (if days =? 0 then Some date
     else if day_ date + days >? month_length (year_ date) (month_ date)
     then CHECKING (month_ date <=? 11)
            (match fuel with
             | O => None
             | S fuel' =>
                 next <- Date_Calendar (year_ date) (month_ date + 1) 1 ;;
                 add_days_within_year_rec fuel' next
                   (days - month_length (year_ date) (month_ date)
                    + day_ date - 1)
             end)
     else Date_Calendar (year_ date) (month_ date) (day_ date + days)).

Definition add_days_within_year (date : Date) (days : Z) : option Date :=
  add_days_within_year_rec 12 date days.

Definition Date_Ordinal (year day : Z) : option Date :=
  CHECKING ((day >=? 1) && (day <=? gregorian_year_length year))
    (first <- Date_Calendar year 1 1 ;;
     add_days_within_year first (day - 1)).

Definition arbitrary_ordinal (year day : Z) : option Date :=
  start <- gregorian_days_from_0000_01_01_at_start_of_year year ;;
  y <- gregorian_days_from_0000_01_01_to_year (start + day - 1) ;;
  o <- gregorian_days_from_0000_01_01_to_ordinal (start + day - 1) ;;
  Date_Ordinal y o.

Definition Date_YYYYMMDD (digits : Z) : option Date :=
  CHECKING ((digits >=? 0) && (digits <=? 99999999))
    (y <- digit_range digits 4 8 ;;
     m <- digit_range digits 2 4 ;;
     d <- digit_range digits 0 2 ;;
     Date_Calendar y m d).

Definition Date_YYYYDDD (digits : Z) : option Date :=
  CHECKING ((digits >=? 0) && (digits <=? 9999999))
    (y <- digit_range digits 3 7 ;;
     d <- digit_range digits 0 3 ;;
     Date_Ordinal y d).

(** [Date::ordinal] recurs once on the first day of the month and then on
    the first day of each earlier month; [fuel] bounds the depth and
    [month_ + 1] steps are always enough. *)
Fixpoint Date_ordinal_rec (fuel : nat) (date : Date) : Z :=
  match fuel with
  | O => 1
  | S fuel' =>
      if day_ date >? 1
      then (day_ date - 1)
           + Date_ordinal_rec fuel' (Date_ (year_ date) (month_ date) 1)
      else if month_ date >? 1
      then month_length (year_ date) (month_ date - 1)
           + Date_ordinal_rec fuel'
               (Date_ (year_ date) (month_ date - 1) 1)
      else 1
  end.

Definition Date_ordinal (date : Date) : Z :=
  Date_ordinal_rec (S (Z.to_nat (month_ date))) date.

Definition Date_mjd (date : Date) : option Z :=
  start <- gregorian_days_from_0000_01_01_at_start_of_year (year_ date) ;;
  start0 <- gregorian_days_from_0000_01_01_at_start_of_year mjd0_yyyy ;;
  date0 <- Date_YYYYMMDD mjd0_yyyymmdd ;;
  Some (start + Date_ordinal date - (start0 + Date_ordinal date0)).

Definition Date_next_day (date : Date) : Date :=
  if day_ date =? month_length (year_ date) (month_ date)
  then if month_ date =? 12
       then Date_ (year_ date + 1) 1 1
       else Date_ (year_ date) (month_ date + 1) 1
  else Date_ (year_ date) (month_ date) (day_ date + 1).

(** *** The week dates, which need [base::mod] *)

Section Weeks.

(** [mod(dividend, divisor, offset)] of [base/mod.hpp] is not among the
    sources and is the parameter [base_mod] here. *)
Variable base_mod : Z -> Z -> Z -> Z.

Definition day_of_week_on_january_1st (year : Z) : Z :=
  base_mod (1 + 5 * Z.rem (year - 1) 4 + 4 * Z.rem (year - 1) 100
       + 6 * Z.rem (year - 1) 400)
    7 1.

Definition number_of_weeks_in_year (year : Z) : Z :=
  if (day_of_week_on_january_1st year =? 4)
     || (is_gregorian_leap_year year
         && (day_of_week_on_january_1st year =? 3))
  then 53
  else 52.

Definition ordinal_of_w_01_1 (year : Z) : Z :=
  base_mod (2 - day_of_week_on_january_1st year) 7 (-2).

Definition Date_Week (year week day : Z) : option Date :=
  CHECKING
    ((week >=? 1) && (week <=? number_of_weeks_in_year year)
     && (day >=? 1) && (day <=? 7))
    (arbitrary_ordinal year
       ((week - 1) * 7 + day - 1 + ordinal_of_w_01_1 year)).

Definition Date_YYYYwwD (digits : Z) : option Date :=
  CHECKING ((digits >=? 0) && (digits <=? 9999999))
    (y <- digit_range digits 3 7 ;;
     w <- digit_range digits 1 3 ;;
     d <- digit_range digits 0 1 ;;
     Date_Week y w d).

End Weeks.

(** *** class Time *)

Record Time : Type := Time_ {
  hour_ : Z;
  minute_ : Z;
  second_ : Z;
  millisecond_ : Z
}.

(** The constructor; a [millisecond] of 1000 is carried. *)
Definition Time_Time (hour minute second millisecond : Z) : Time :=
  Time_
    (if (millisecond =? 1000) && (second =? 59) && (minute =? 59)
     then hour + 1 else hour)
    (if (millisecond =? 1000) && (second =? 59)
     then if minute =? 59 then 0 else minute + 1
     else minute)
    (if millisecond =? 1000
     then if second =? 59 then 0 else second + 1
     else second)
    (Z.rem millisecond 1000).

Definition Time_is_leap_second (t : Time) : bool := second_ t =? 60.

Definition Time_is_end_of_day (t : Time) : bool := hour_ t =? 24.

Definition Time_checked (t : Time) : option Time :=
  CHECKING
    (((hour_ t =? 24) && (minute_ t =? 0) && (second_ t =? 0)
      && (millisecond_ t =? 0))
     || (((millisecond_ t >=? 0) && (millisecond_ t <=? 999))
         && (((hour_ t =? 23) && (minute_ t =? 59) && (second_ t =? 60))
             || ((hour_ t >=? 0) && (hour_ t <=? 23) && (minute_ t >=? 0)
                 && (minute_ t <=? 59) && (second_ t >=? 0)
                 && (second_ t <=? 59)))))
    (Some t).

Definition Time_hhmmss_ms (hhmmss ms : Z) : option Time :=
  CHECKING ((hhmmss >=? 0) && (hhmmss <=? 999999))
    (h <- digit_range hhmmss 4 6 ;;
     m <- digit_range hhmmss 2 4 ;;
     s <- digit_range hhmmss 0 2 ;;
     Time_checked (Time_Time h m s ms)).

(** *** class DateTime *)

Record DateTime : Type := DateTime_ {
  date_ : Date;
  time_ : Time;
  jd_ : bool
}.

Definition DateTime_BeginningOfDay (date : Date) : option DateTime :=
  t <- Time_hhmmss_ms 0 0 ;;
  Some (DateTime_ date t false).

Definition DateTime_normalized_end_of_day (dt : DateTime) : option DateTime :=
  if Time_is_end_of_day (time_ dt)
  then DateTime_BeginningOfDay (Date_next_day (date_ dt))
  else Some dt.

Definition DateTime_checked (dt : DateTime) : option DateTime :=
  CHECKING
    (negb (Time_is_leap_second (time_ dt))
     || (day_ (date_ dt)
         =? month_length (year_ (date_ dt)) (month_ (date_ dt))))
    (Some dt).

(** *** Parsing utilities *)

Definition char := byte.

Fixpoint contains (str : list char) (c : char) : bool :=
  match str with
  | [] => false
  | c0 :: rest => Byte.eqb c0 c || contains rest c
  end.

Fixpoint index_of (str : list char) (c : char) : option Z :=
  match str with
  | [] => None
  | c0 :: rest =>
      if Byte.eqb c0 c then Some 0
      else i <- index_of rest c ;; Some (i + 1)
  end.

Definition is_decimal_digit (c : char) : bool :=
  (int_of_uint8 "0"%byte <=? int_of_uint8 c) && (int_of_uint8 c <=? int_of_uint8 "9"%byte).

(** *** Date parsing *)

Record DateParser : Type := DateParser_ {
  digits_ : Z;
  digit_count_ : Z;
  hyphens_ : Z;
  first_hyphen_index_ : Z;
  second_hyphen_index_ : Z;
  has_w_ : bool;
  w_index_ : Z
}.

(** [ReadToEnd] on a [CStringIterator]: [str] holds the characters from the
    iterator to the end and [index] is [str.index()]. *)
Fixpoint DateParser_ReadToEnd_from (str : list char) (index : Z)
    (digits digit_count hyphens first_hyphen_index second_hyphen_index : Z)
    (has_w : bool) (w_index : Z) : option DateParser :=
  match str with
  | [] =>
      Some (DateParser_ digits digit_count hyphens first_hyphen_index
              second_hyphen_index has_w w_index)
  | c :: rest =>
      if Byte.eqb c "-"%byte
      then CHECKING (hyphens <? 2)
             (if hyphens =? 0
              then DateParser_ReadToEnd_from rest (index + 1) digits
                     digit_count (hyphens + 1) index second_hyphen_index
                     has_w w_index
              else DateParser_ReadToEnd_from rest (index + 1) digits
                     digit_count (hyphens + 1) first_hyphen_index index
                     has_w w_index)
      else if Byte.eqb c "W"%byte
      then CHECKING (negb has_w)
             (DateParser_ReadToEnd_from rest (index + 1) digits digit_count
                hyphens first_hyphen_index second_hyphen_index true index)
      else CHECKING (is_decimal_digit c)
             (DateParser_ReadToEnd_from rest (index + 1)
                (digits * 10 + int_of_uint8 c - int_of_uint8 "0"%byte)
                (digit_count + 1) hyphens first_hyphen_index
                second_hyphen_index has_w w_index)
  end.

Definition DateParser_ReadToEnd (str : list char) : option DateParser :=
  DateParser_ReadToEnd_from str 0 0 0 0 (-1) (-1) false (-1).

Definition DateParser_JDToDate (p : DateParser) (ffd : char) : option Date :=
  CHECKING ((hyphens_ p =? 0) && negb (has_w_ p) && is_decimal_digit ffd)
    (date0 <- Date_YYYYMMDD mjd0_yyyymmdd ;;
     if int_of_uint8 ffd >=? int_of_uint8 "5"%byte
     then arbitrary_ordinal mjd0_yyyy
            (Date_ordinal date0 + (digits_ p - mjd0_jd0_offset))
     else arbitrary_ordinal mjd0_yyyy
            (Date_ordinal date0 + (digits_ p - mjd0_jd0_offset - 1))).

Definition DateParser_MJDToDate (p : DateParser) : option Date :=
  CHECKING ((hyphens_ p =? 0) && negb (has_w_ p))
    (date0 <- Date_YYYYMMDD mjd0_yyyymmdd ;;
     arbitrary_ordinal mjd0_yyyy (Date_ordinal date0 + digits_ p)).

Definition DateParser_ParseJD (integer : list char) (ffd : char)
  : option Date :=
  p <- DateParser_ReadToEnd integer ;; DateParser_JDToDate p ffd.

Definition DateParser_ParseMJD (str : list char) : option Date :=
  p <- DateParser_ReadToEnd str ;; DateParser_MJDToDate p.

Section WeekParsing.

Variable base_mod : Z -> Z -> Z -> Z.

Definition DateParser_ISOToDate (p : DateParser) : option Date :=
  if digit_count_ p =? 8
  then CHECKING
         ((hyphens_ p =? 0)
          || ((hyphens_ p =? 2) && (first_hyphen_index_ p =? 4)
              && (second_hyphen_index_ p =? 7)))
         (Date_YYYYMMDD (digits_ p))
  else CHECKING (digit_count_ p =? 7)
         (if has_w_ p
          then CHECKING
                 (((hyphens_ p =? 0) && (w_index_ p =? 4))
                  || ((hyphens_ p =? 2) && (first_hyphen_index_ p =? 4)
                      && (w_index_ p =? 5)
                      && (second_hyphen_index_ p =? 8)))
                 (Date_YYYYwwD base_mod (digits_ p))
          else CHECKING
                 ((hyphens_ p =? 0)
                  || ((hyphens_ p =? 1) && (first_hyphen_index_ p =? 4)))
                 (Date_YYYYDDD (digits_ p))).

Definition DateParser_ParseISO (str : list char) : option Date :=
  p <- DateParser_ReadToEnd str ;; DateParser_ISOToDate p.

End WeekParsing.

(** *** Time parsing *)

Record TimeParser : Type := TimeParser_ {
  t_digits_ : Z;
  t_digit_count_ : Z;
  colons_ : Z;
  first_colon_index_ : Z;
  second_colon_index_ : Z;
  has_decimal_mark_ : bool;
  decimal_mark_index_ : Z
}.

Fixpoint TimeParser_ReadToEnd_from (str : list char) (index : Z)
    (digits digit_count colons first_colon_index second_colon_index : Z)
    (has_decimal_mark : bool) (decimal_mark_index : Z) : option TimeParser :=
  match str with
  | [] =>
      Some (TimeParser_ digits digit_count colons first_colon_index
              second_colon_index has_decimal_mark decimal_mark_index)
  | c :: rest =>
      if Byte.eqb c ":"%byte
      then CHECKING (colons <? 2)
             (if colons =? 0
              then TimeParser_ReadToEnd_from rest (index + 1) digits
                     digit_count (colons + 1) index second_colon_index
                     has_decimal_mark decimal_mark_index
              else TimeParser_ReadToEnd_from rest (index + 1) digits
                     digit_count (colons + 1) first_colon_index index
                     has_decimal_mark decimal_mark_index)
      else if Byte.eqb c ","%byte || Byte.eqb c "."%byte
      then CHECKING (negb has_decimal_mark)
             (TimeParser_ReadToEnd_from rest (index + 1) digits digit_count
                colons first_colon_index second_colon_index true index)
      else CHECKING (is_decimal_digit c)
             (TimeParser_ReadToEnd_from rest (index + 1)
                (digits * 10 + int_of_uint8 c - int_of_uint8 "0"%byte)
                (digit_count + 1) colons first_colon_index
                second_colon_index has_decimal_mark decimal_mark_index)
  end.

Definition TimeParser_ReadToEnd (str : list char) : option TimeParser :=
  TimeParser_ReadToEnd_from str 0 0 0 0 (-1) (-1) false (-1).

Definition TimeParser_ISOToTime (p : TimeParser) : option Time :=
  CHECKING
    ((t_digit_count_ p >=? 6)
     && ((colons_ p =? 0)
         || ((colons_ p =? 2) && (first_colon_index_ p =? 2)
             && (second_colon_index_ p =? 5)))
     && (((t_digit_count_ p =? 6) && negb (has_decimal_mark_ p))
         || (has_decimal_mark_ p
             && (((colons_ p =? 0) && (decimal_mark_index_ p =? 6))
                 || (negb (colons_ p =? 0)
                     && (decimal_mark_index_ p =? 8)))))
     && (t_digit_count_ p <=? 15))
    (hhmmss <- digit_range (t_digits_ p) (t_digit_count_ p - 6)
                 (t_digit_count_ p) ;;
     fraction <- digit_range (t_digits_ p) 0 (t_digit_count_ p - 6) ;;
     ms <- shift_left fraction (3 - (t_digit_count_ p - 6)) ;;
     Time_hhmmss_ms hhmmss ms).

Definition TimeParser_JDRoundedMilliseconds (digits digit_count : Z)
  : option Z :=
  if digit_count <=? 2 then Some 0
  else if digit_count <=? 5
  then digit_range (60 * 60 * 24 * digits) 0 3
  else r <- digit_range (60 * 60 * 24 * digits) (digit_count - 4)
              digit_count ;;
       Some (Z.quot (r + 5) 10).

Definition TimeParser_JDFractionToTime (digits digit_count : Z)
  : option Time :=
  CHECKING (digit_count <=? 14)
    (h <- digit_range (24 * digits) digit_count (digit_count + 2) ;;
     r1 <- digit_range (24 * digits) 0 digit_count ;;
     m <- digit_range (60 * r1) digit_count (digit_count + 2) ;;
     r2 <- digit_range (60 * 24 * digits) 0 digit_count ;;
     s <- digit_range (60 * r2) digit_count (digit_count + 2) ;;
     ms <- TimeParser_JDRoundedMilliseconds digits digit_count ;;
     Time_checked (Time_Time h m s ms)).

Definition TimeParser_JDToTime (p : TimeParser) : option Time :=
  CHECKING ((colons_ p =? 0) && negb (has_decimal_mark_ p))
    (first <- digit_range (t_digits_ p) (t_digit_count_ p - 1)
                (t_digit_count_ p) ;;
     rest <- digit_range (t_digits_ p) 0 (t_digit_count_ p - 1) ;;
     if first >=? 5
     then shifted <- shift_left (first - 5) (t_digit_count_ p - 1) ;;
          TimeParser_JDFractionToTime (shifted + rest) (t_digit_count_ p)
     else shifted <- shift_left (first + 5) (t_digit_count_ p - 1) ;;
          TimeParser_JDFractionToTime (shifted + rest) (t_digit_count_ p)).

Definition TimeParser_MJDToTime (p : TimeParser) : option Time :=
  CHECKING ((colons_ p =? 0) && negb (has_decimal_mark_ p))
    (TimeParser_JDFractionToTime (t_digits_ p) (t_digit_count_ p)).

Definition TimeParser_ParseISO (str : list char) : option Time :=
  p <- TimeParser_ReadToEnd str ;; TimeParser_ISOToTime p.

Definition TimeParser_ParseJD (str : list char) : option Time :=
  p <- TimeParser_ReadToEnd str ;; TimeParser_JDToTime p.

Definition TimeParser_ParseMJD (str : list char) : option Time :=
  p <- TimeParser_ReadToEnd str ;; TimeParser_MJDToTime p.

(** *** Operators *)

Definition Date_eq (left right : Date) : bool :=
  (year_ left =? year_ right) && (month_ left =? month_ right)
  && (day_ left =? day_ right).

Definition Date_lt (left right : Date) : bool :=
  (year_ left <? year_ right)
  || ((year_ left =? year_ right)
      && ((month_ left <? month_ right)
          || ((month_ left =? month_ right) && (day_ left <? day_ right)))).

Definition Date_gt (left right : Date) : bool := Date_lt right left.
Definition Date_le (left right : Date) : bool := negb (Date_lt right left).
Definition Date_ge (left right : Date) : bool := negb (Date_lt left right).

Definition Time_eq (left right : Time) : bool :=
  (hour_ left =? hour_ right) && (minute_ left =? minute_ right)
  && (second_ left =? second_ right)
  && (millisecond_ left =? millisecond_ right).

Definition DateTime_eq (left right : DateTime) : option bool :=
  l <- DateTime_normalized_end_of_day left ;;
  r <- DateTime_normalized_end_of_day right ;;
  Some (Date_eq (date_ l) (date_ r) && Time_eq (time_ l) (time_ r)).

End date_time.

(** ** Words for the properties of the calendar *)

Module calendar.

Import date_time.

(** The days of a year before its month [month]. *)
Definition days_before_month (year month : Z) : Z :=
  fold_right Z.add 0
    (map (fun k => month_length year (Z.of_nat k))
       (seq 1 (Z.to_nat (month - 1)))).

(** A date that [Date::Calendar] makes. *)
Definition valid_date (date : Date) : Prop :=
  Date_Calendar (year_ date) (month_ date) (day_ date) = Some date.

(** The milliseconds from the start of the day to a time. *)
Definition milliseconds_of (t : Time) : Z :=
  ((hour_ t * 60 + minute_ t) * 60 + second_ t) * 1000 + millisecond_ t.

(** The number that a string of decimal digits writes, after [acc]. *)
Definition decimal_value (acc : Z) (str : list char) : Z :=
  fold_left (fun v c => v * 10 + int_of_uint8 c - int_of_uint8 "0"%byte)
    str acc.

(** How many times a character occurs in a string. *)
Definition occurrences (c : char) (str : list char) : Z :=
  Z.of_nat (List.length (filter (Byte.eqb c) str)).

(** The characters that a date may be written with. *)
Definition date_character (c : char) : bool :=
  is_decimal_digit c || Byte.eqb c "-"%byte || Byte.eqb c "W"%byte.

End calendar.


(** ** mathematica/mathematica_body.hpp *)

Module mathematica.

(** The loop of [Apply]:
    [for (int i = 0; i < arguments.size(); ++i)], with [result] so far. *)
Fixpoint Apply_loop (fuel : nat) (arguments : list string) (i : nat)
    (result : string) : string :=
  match fuel with
  | O => result
  | S fuel' =>
      if (i <? List.length arguments)%nat
      then
        let result := (result ++ nth i arguments EmptyString)%string in
        let result :=
          (result
           ++ (if (i + 1 =? List.length arguments)%nat then "]" else ","))%string
        in
        Apply_loop fuel' arguments (i + 1) result
      else result
  end.

Definition Apply (function : string) (arguments : list string) : string :=
  let result := EmptyString in
  let result := (result ++ function)%string in
  let result := (result ++ "[")%string in
  Apply_loop (List.length arguments) arguments 0 result.

End mathematica.
(** ** Facts about the machine model *)

Section MachineFacts.

Lemma int64_wrap_id (z : Z) : int64_range z -> int64_wrap z = z.
Proof.
  unfold int64_range, int64_wrap. intros H.
  rewrite Z.mod_small; lia.
Qed.

Lemma shl1_double (x : Z) : - 2 ^ 62 <= x < 2 ^ 62 -> shl1 x = 2 * x.
Proof.
  intros H. unfold shl1. rewrite Z.shiftl_mul_pow2 by lia.
  rewrite int64_wrap_id; unfold int64_range; lia.
Qed.

Lemma land_lnot_1 (n : Z) : Z.land n (Z.lnot 1) = 2 * (n / 2).
Proof.
  apply Z.bits_inj'. intros i Hi.
  rewrite Z.land_spec, Z.lnot_spec by lia.
  replace (2 * (n / 2)) with (Z.shiftl (Z.shiftr n 1) 1).
  - destruct (Z.eq_dec i 0) as [->|Hne].
    + rewrite Z.shiftl_spec_low by lia. simpl. apply andb_false_r.
    + rewrite Z.shiftl_spec by lia. rewrite Z.shiftr_spec by lia.
      replace (i - 1 + 1) with i by lia.
      rewrite Z.bits_above_log2 with (a := 1) (n := i); simpl; try lia.
      apply andb_true_r.
  - rewrite Z.shiftl_mul_pow2, Z.shiftr_div_pow2 by lia.
    change (2 ^ 1) with 2. lia.
Qed.

Lemma store_eq (m : memory) (a : Z) (b : byte) : store m a b a = b.
Proof. unfold store. now rewrite Z.eqb_refl. Qed.

Lemma store_neq (m : memory) (a x : Z) (b : byte) :
  x <> a -> store m a b x = m x.
Proof. unfold store. intros H. apply Z.eqb_neq in H. now rewrite H. Qed.

Lemma length_load (m : memory) (n : nat) :
  forall p, List.length (load m p n) = n.
Proof.
  induction n as [|n IH]; intros p; simpl; [reflexivity | now rewrite IH].
Qed.

End MachineFacts.

(** ** Facts about the two tables *)

Section Tables.

Lemma kByteToHexadecimalDigits_length :
  List.length kByteToHexadecimalDigits = 512%nat.
Proof. reflexivity. Qed.

Lemma kHexadecimalDigitsToNibble_length :
  List.length kHexadecimalDigitsToNibble = 256%nat.
Proof. reflexivity. Qed.

(** Entry [b] of the encoding table is the two upper-case digits of [b]. *)
Lemma digits_at_hex_of_byte (b : byte) :
  [digits_at (Z.shiftl (int_of_uint8 b) 1);
   digits_at (Z.shiftl (int_of_uint8 b) 1 + 1)] = hex_of_byte b.
Proof. destruct b; vm_compute; reflexivity. Qed.

(** The decoding table holds the value of every digit of either case and 0
    everywhere else. *)
Lemma nibble_at_digit_value (c : byte) : nibble_at c = digit_value c.
Proof. destruct c; vm_compute; reflexivity. Qed.

Lemma nibble_at_not_digit (c : byte) :
  is_hex_digit c = false -> nibble_at c = 0.
Proof. destruct c; vm_compute; intros H; congruence. Qed.

Lemma nibble_at_upper_hex (c : byte) : nibble_at (upper_hex c) = nibble_at c.
Proof. destruct c; vm_compute; reflexivity. Qed.

Lemma nibble_at_range (c : byte) : 0 <= nibble_at c < 16.
Proof. destruct c; vm_compute; split; congruence. Qed.

Lemma decode_pair_upper_hex (hi lo : byte) :
  decode_pair (upper_hex hi) (upper_hex lo) = decode_pair hi lo.
Proof. unfold decode_pair. now rewrite !nibble_at_upper_hex. Qed.

(** Decoding the two digits of a byte gives the byte back. *)
Lemma decode_list_hex_of_byte (b : byte) : decode_list (hex_of_byte b) = [b].
Proof. destruct b; vm_compute; reflexivity. Qed.

Lemma decode_list_encode_list (l : list byte) :
  decode_list (encode_list l) = l.
Proof.
  induction l as [|b t IH]; [reflexivity|].
  unfold encode_list in *. simpl flat_map.
  unfold hex_of_byte at 1. simpl app.
  change (decode_pair (upper_digit (int_of_uint8 b / 16))
            (upper_digit (int_of_uint8 b mod 16))
          :: decode_list (flat_map hex_of_byte t) = b :: t).
  rewrite IH. f_equal.
  pose proof (decode_list_hex_of_byte b) as H.
  unfold hex_of_byte in H. simpl in H. congruence.
Qed.

Lemma length_encode_list (l : list byte) :
  List.length (encode_list l) = (List.length l * 2)%nat.
Proof.
  induction l as [|b t IH]; [reflexivity|].
  unfold encode_list in *. simpl. now rewrite IH.
Qed.

Lemma decode_list_same_up_to_case (l l' : list byte) :
  same_up_to_case l l' -> decode_list l = decode_list l'.
Proof.
  unfold same_up_to_case.
  remember (List.length l) as n eqn:Hn.
  assert (Hle : (List.length l <= n)%nat) by lia. clear Hn.
  revert l l' Hle.
  induction n as [|n IH]; intros l l' Hle H.
  - destruct l; [|simpl in Hle; lia]. destruct l'; [reflexivity | discriminate].
  - destruct l as [|a [|b t]]; destruct l' as [|a' [|b' t']];
      try discriminate; try reflexivity.
    simpl in H. injection H as Ha Hb Ht. simpl.
    rewrite <- (decode_pair_upper_hex a b), Ha, Hb, decode_pair_upper_hex.
    f_equal. apply IH; [simpl in Hle; lia | exact Ht].
Qed.

End Tables.

(** ** The two loops *)

Section Loops.

Ltac split_store :=
  unfold memcpy_digits, store;
  repeat match goal with
         | |- context [?x =? ?y] => destruct (Z.eqb_spec x y); try lia
         end.

Lemma encode_loop_done (fuel : nat) (input output : Z) (m : memory) :
  encode_loop fuel input input output m = Returns m.
Proof. destruct fuel; simpl; now rewrite Z.eqb_refl. Qed.

Lemma encode_loop_step (fuel : nat) (input_rend input output : Z) (m : memory) :
  input <> input_rend ->
  encode_loop (S fuel) input_rend input output m
  = encode_loop fuel input_rend (input - 1) (output - 2)
      (memcpy_digits m output (Z.shiftl (int_of_uint8 (m input)) 1)).
Proof. intros H. apply Z.eqb_neq in H. simpl. now rewrite H. Qed.

Lemma decode_loop_done (fuel : nat) (input output : Z) (m : memory) :
  decode_loop fuel input input output m = Returns m.
Proof. destruct fuel; simpl; now rewrite Z.eqb_refl. Qed.

Lemma decode_loop_step (fuel : nat) (input_end input output : Z) (m : memory) :
  input <> input_end ->
  decode_loop (S fuel) input_end input output m
  = decode_loop fuel input_end (input + 2) (output + 1)
      (store m output (decode_pair (m input) (m (input + 1)))).
Proof. intros H. apply Z.eqb_neq in H. simpl. now rewrite H. Qed.

(** The backward loop, entered with [k] bytes left to encode: it returns,
    writes the [2 * k] bytes of the output only and each pair of them is
    the table entry of the input byte as it was before the call. *)
Lemma encode_loop_spec (input output n : Z) :
  encode_overlap_ok input n output ->
  forall (k fuel : nat) (m : memory),
    (k <= fuel)%nat -> Z.of_nat k <= n ->
    exists m',
      encode_loop fuel (input - 1) (input + Z.of_nat k - 1)
        (output + 2 * (Z.of_nat k - 1)) m = Returns m'
      /\ (forall a, a < output \/ output + 2 * Z.of_nat k <= a -> m' a = m a)
      /\ (forall j, 0 <= j < Z.of_nat k ->
            m' (output + 2 * j)
              = digits_at (Z.shiftl (int_of_uint8 (m (input + j))) 1)
            /\ m' (output + 2 * j + 1)
              = digits_at (Z.shiftl (int_of_uint8 (m (input + j))) 1 + 1)).
Proof.
  intros Hgeo. induction k as [|k IH]; intros fuel m Hfuel Hk.
  - exists m. split; [|split].
    + replace (input + Z.of_nat 0 - 1) with (input - 1) by lia.
      apply encode_loop_done.
    + reflexivity.
    + intros j Hj. lia.
  - destruct fuel as [|fuel]; [lia|].
    rewrite encode_loop_step by lia.
    replace (input + Z.of_nat (S k) - 1) with (input + Z.of_nat k) by lia.
    replace (output + 2 * (Z.of_nat (S k) - 1))
      with (output + 2 * Z.of_nat k) by lia.
    set (m1 := memcpy_digits m _ _).
    destruct (IH fuel m1) as (m' & Hrun & Hout & Hin); [lia | lia |].
    exists m'. split; [|split].
    + rewrite <- Hrun. f_equal; lia.
    + intros a Ha. rewrite Hout by lia. subst m1. split_store. reflexivity.
    + intros j Hj.
      destruct (Z.eq_dec j (Z.of_nat k)) as [->|Hne].
      * rewrite !Hout by lia. subst m1. split; split_store; reflexivity.
      * destruct (Hin j) as [H0 H1]; [lia|]. rewrite H0, H1.
        assert (Hm : m1 (input + j) = m (input + j)).
        { subst m1. unfold encode_overlap_ok in Hgeo. split_store.
          reflexivity. }
        rewrite Hm. split; reflexivity.
Qed.

(** The forward loop, entered with [k] pairs left to decode. *)
Lemma decode_loop_spec (k : nat) :
  forall (fuel : nat) (input output : Z) (m : memory),
    (k <= fuel)%nat ->
    decode_overlap_ok input (2 * Z.of_nat k) output ->
    exists m',
      decode_loop fuel (input + 2 * Z.of_nat k) input output m = Returns m'
      /\ (forall a, a < output \/ output + Z.of_nat k <= a -> m' a = m a)
      /\ (forall j, 0 <= j < Z.of_nat k ->
            m' (output + j)
              = decode_pair (m (input + 2 * j)) (m (input + 2 * j + 1))).
Proof.
  induction k as [|k IH]; intros fuel input output m Hfuel Hgeo.
  - exists m. split; [|split].
    + replace (input + 2 * Z.of_nat 0) with input by lia.
      apply decode_loop_done.
    + reflexivity.
    + intros j Hj. lia.
  - destruct fuel as [|fuel]; [lia|].
    rewrite decode_loop_step by lia.
    set (m1 := store m output _).
    destruct (IH fuel (input + 2) (output + 1) m1) as (m' & Hrun & Hout & Hin).
    { lia. }
    { unfold decode_overlap_ok in *. lia. }
    exists m'. split; [|split].
    + rewrite <- Hrun. f_equal; lia.
    + intros a Ha. rewrite Hout by lia. subst m1. split_store. reflexivity.
    + intros j Hj. destruct (Z.eq_dec j 0) as [->|Hne].
      * replace (output + 0) with output by lia. rewrite Hout by lia.
        subst m1. rewrite store_eq.
        now replace (input + 2 * 0) with input by lia.
      * specialize (Hin (j - 1)).
        replace (output + 1 + (j - 1)) with (output + j) in Hin by lia.
        rewrite Hin by lia.
        assert (Hm : forall a, a <> output -> m1 a = m a).
        { intros a Ha. subst m1. now apply store_neq. }
        unfold decode_overlap_ok in Hgeo.
        rewrite !Hm by lia.
        now replace (input + 2 + 2 * (j - 1)) with (input + 2 * j) by lia.
Qed.

End Loops.

(** ** From memory cells to buffers *)

Section Buffers.

Lemma load_encoded (m m' : memory) (k : nat) :
  forall input output,
    (forall j, 0 <= j < Z.of_nat k ->
       m' (output + 2 * j)
         = digits_at (Z.shiftl (int_of_uint8 (m (input + j))) 1)
       /\ m' (output + 2 * j + 1)
         = digits_at (Z.shiftl (int_of_uint8 (m (input + j))) 1 + 1)) ->
    load m' output (k * 2) = encode_list (load m input k).
Proof.
  induction k as [|k IH]; intros input output H; [reflexivity|].
  change (S k * 2)%nat with (S (S (k * 2))).
  cbn [load]. unfold encode_list. cbn [flat_map].
  rewrite <- digits_at_hex_of_byte. cbn [app].
  destruct (H 0) as [H0 H1]; [lia|].
  rewrite Z.mul_0_r, !Z.add_0_r in H0, H1. rewrite H0, H1.
  do 2 f_equal. apply IH. intros j Hj.
  destruct (H (j + 1)) as [Ha Hb]; [lia|].
  replace (output + 1 + 1 + 2 * j) with (output + 2 * (j + 1)) by lia.
  replace (input + 1 + j) with (input + (j + 1)) by lia.
  now rewrite Ha, Hb.
Qed.

Lemma load_decoded (m m' : memory) (k : nat) :
  forall (n : nat) input output,
    (k * 2 <= n <= k * 2 + 1)%nat ->
    (forall j, 0 <= j < Z.of_nat k ->
       m' (output + j)
         = decode_pair (m (input + 2 * j)) (m (input + 2 * j + 1))) ->
    load m' output k = decode_list (load m input n).
Proof.
  induction k as [|k IH]; intros n input output Hn H.
  - destruct n as [|[|n]]; [reflexivity | reflexivity | lia].
  - destruct n as [|[|n]]; [lia | lia |].
    cbn [load decode_list].
    specialize (H 0) as H0. rewrite Z.mul_0_r, !Z.add_0_r in H0.
    rewrite H0 by lia. f_equal.
    apply IH; [lia|]. intros j Hj.
    replace (output + 1 + j) with (output + (j + 1)) by lia.
    rewrite H by lia.
    now replace (input + 1 + 1 + 2 * j) with (input + 2 * (j + 1)) by lia.
Qed.

End Buffers.

(** ** The two functions *)

Section Functions.

Lemma encode_loop_no_check (fuel : nat) :
  forall input_rend input output m msg,
    encode_loop fuel input_rend input output m <> CheckFailure msg.
Proof.
  induction fuel as [|fuel IH]; intros r i o m msg; simpl;
    destruct (i =? r); try discriminate; apply IH.
Qed.

Lemma decode_loop_no_check (fuel : nat) :
  forall input_end input output m msg,
    decode_loop fuel input_end input output m <> CheckFailure msg.
Proof.
  induction fuel as [|fuel IH]; intros r i o m msg; simpl;
    destruct (i =? r); try discriminate; apply IH.
Qed.

Variable m : memory.
Variables input input_size output output_size : Z.

Ltac check_cases :=
  split;
  [ intros H;
    first [ injection H as <-;
            first [ left; repeat split; solve [lia | reflexivity]
                  | right; repeat split; solve [lia | reflexivity] ]
          | exfalso; revert H;
            first [apply encode_loop_no_check | apply decode_loop_no_check] ]
  | intros [[H1 H2]|[H1 [H2 H3]]]; subst; solve [reflexivity | lia] ].

(** The two [CHECK]s of [HexadecimalEncode], for a size that [<< 1] does
    not overflow. *)
Lemma HexadecimalEncode_checks :
  - 2 ^ 62 <= input_size < 2 ^ 62 ->
  forall msg,
    HexadecimalEncode m input input_size output output_size = CheckFailure msg
    <-> (~ encode_overlap_ok input input_size output
         /\ msg = "bad overlap"%string)
        \/ (encode_overlap_ok input input_size output
            /\ output_size < 2 * input_size
            /\ msg = "output too small"%string).
Proof.
  intros Hn msg. unfold HexadecimalEncode, encode_overlap_ok.
  rewrite shl1_double by exact Hn. rewrite Z.geb_leb.
  destruct (Z.leb_spec input (output + 1)) as [Ha|Ha];
    destruct (Z.leb_spec (output + 2 * input_size) input) as [Hb|Hb];
    cbn [orb negb];
    try (destruct (Z.leb_spec (2 * input_size) output_size) as [Hc|Hc];
         cbn [negb]);
    check_cases.
Qed.

(** The two [CHECK]s of [HexadecimalDecode]; [n] is the size made even. *)
Lemma HexadecimalDecode_checks :
  let n := Z.land input_size (Z.lnot 1) in
  forall msg,
    HexadecimalDecode m input input_size output output_size = CheckFailure msg
    <-> (~ decode_overlap_ok input n output /\ msg = "bad overlap"%string)
        \/ (decode_overlap_ok input n output
            /\ output_size < Z.quot n 2
            /\ msg = "output too small"%string).
Proof.
  intros n msg. unfold HexadecimalDecode, decode_overlap_ok.
  fold n. rewrite Z.geb_leb.
  destruct (Z.leb_spec output (input + 1)) as [Ha|Ha];
    destruct (Z.leb_spec (input + n) output) as [Hb|Hb];
    cbn [orb negb];
    try (destruct (Z.leb_spec (Z.quot n 2) output_size) as [Hc|Hc];
         cbn [negb]);
    check_cases.
Qed.

(** With an accepted geometry and a large enough output, [HexadecimalEncode]
    returns; the [2 * input_size] bytes from [output] on are the digits of
    the input bytes and no other cell has changed. *)
Lemma HexadecimalEncode_returns :
  0 <= input_size ->
  encode_overlap_ok input input_size output ->
  2 * input_size <= output_size ->
  int64_range output_size ->
  exists m',
    HexadecimalEncode m input input_size output output_size = Returns m'
    /\ load m' output (Z.to_nat input_size * 2)
       = encode_list (load m input (Z.to_nat input_size))
    /\ (forall a, a < output \/ output + 2 * input_size <= a -> m' a = m a).
Proof.
  intros Hn Hgeo Hsize Hrange.
  assert (Hn62 : input_size < 2 ^ 62) by (unfold int64_range in Hrange; lia).
  destruct (encode_loop_spec input output input_size Hgeo
              (Z.to_nat input_size) (Z.to_nat input_size) m)
    as (m' & Hrun & Hout & Hin); [lia | lia |].
  rewrite Z2Nat.id in Hrun, Hout, Hin by lia.
  exists m'. split; [|split].
  - unfold HexadecimalEncode. rewrite !shl1_double by lia.
    rewrite Z.geb_leb. unfold encode_overlap_ok in Hgeo.
    destruct (Z.leb_spec input (output + 1));
      destruct (Z.leb_spec (output + 2 * input_size) input);
      destruct (Z.leb_spec (2 * input_size) output_size);
      try lia; cbn [orb negb]; cbv zeta; rewrite <- Hrun; f_equal; lia.
  - apply load_encoded. rewrite Z2Nat.id by lia. exact Hin.
  - exact Hout.
Qed.

(** With an accepted geometry and a large enough output, [HexadecimalDecode]
    returns; the [input_size / 2] bytes from [output] on are the decoded
    pairs of the input and no other cell has changed. *)
Lemma HexadecimalDecode_returns :
  0 <= input_size ->
  decode_overlap_ok input (2 * (input_size / 2)) output ->
  input_size / 2 <= output_size ->
  exists m',
    HexadecimalDecode m input input_size output output_size = Returns m'
    /\ load m' output (Z.to_nat (input_size / 2))
       = decode_list (load m input (Z.to_nat input_size))
    /\ (forall a, a < output \/ output + input_size / 2 <= a -> m' a = m a).
Proof.
  intros Hn Hgeo Hsize.
  pose proof (Z.div_pos input_size 2 Hn ltac:(lia)) as Hq.
  pose proof (Z.mul_div_le input_size 2 ltac:(lia)) as Hle.
  pose proof (Z.mod_pos_bound input_size 2 ltac:(lia)) as Hmod.
  pose proof (Z.div_mod input_size 2 ltac:(lia)) as Hdm.
  destruct (decode_loop_spec (Z.to_nat (input_size / 2))
              (Z.to_nat (2 * (input_size / 2))) input output m)
    as (m' & Hrun & Hout & Hin).
  { lia. }
  { rewrite Z2Nat.id by lia. exact Hgeo. }
  rewrite Z2Nat.id in Hrun, Hout, Hin by lia.
  exists m'. split; [|split].
  - unfold HexadecimalDecode. rewrite land_lnot_1.
    rewrite Z.geb_leb. rewrite Z.mul_comm, Z.quot_mul by lia.
    rewrite (Z.mul_comm _ 2). unfold decode_overlap_ok in Hgeo.
    destruct (Z.leb_spec output (input + 1));
      destruct (Z.leb_spec (input + 2 * (input_size / 2)) output);
      destruct (Z.leb_spec (input_size / 2) output_size);
      try lia; cbn [orb negb]; exact Hrun.
  - apply load_decoded; [lia | rewrite Z2Nat.id by lia; exact Hin].
  - exact Hout.
Qed.

End Functions.

(** ** Properties of the hexadecimal codec *)

Section Geometry.

(** Buffers that share no byte pass the overlap test of either function. *)
Lemma disjoint_encode_overlap_ok (input input_size output : Z) :
  0 <= input_size ->
  disjoint input input_size output (2 * input_size) ->
  encode_overlap_ok input input_size output.
Proof. unfold disjoint, encode_overlap_ok. lia. Qed.

Lemma disjoint_decode_overlap_ok (input input_size output output_size : Z) :
  0 <= output_size ->
  disjoint input input_size output output_size ->
  decode_overlap_ok input input_size output.
Proof. unfold disjoint, decode_overlap_ok. lia. Qed.

Lemma spec_encode_geometry_ok (input input_size output : Z) :
  0 <= input_size ->
  spec_encode_geometry input input_size output ->
  encode_overlap_ok input input_size output.
Proof. unfold spec_encode_geometry, disjoint, encode_overlap_ok. lia. Qed.

Lemma encode_accepts_iff (input input_size output : Z) :
  - 2 ^ 62 <= input_size < 2 ^ 62 ->
  encode_accepts input input_size output
  <-> encode_overlap_ok input input_size output.
Proof.
  intros Hn. unfold encode_accepts. split.
  - intros H. specialize (H blank 0).
    rewrite (HexadecimalEncode_checks blank input input_size output 0 Hn) in H.
    unfold encode_overlap_ok in *.
    destruct (Z.le_gt_cases input (output + 1)); [now left|].
    destruct (Z.le_gt_cases (output + 2 * input_size) input); [now right|].
    exfalso. apply H. left. split; [lia | reflexivity].
  - intros Hok m osz.
    rewrite (HexadecimalEncode_checks m input input_size output osz Hn).
    intros [[Hbad _]|[_ [_ Hmsg]]]; [now apply Hbad | discriminate].
Qed.

Lemma decode_accepts_iff (input input_size output : Z) :
  decode_accepts input input_size output
  <-> decode_overlap_ok input (Z.land input_size (Z.lnot 1)) output.
Proof.
  unfold decode_accepts. split.
  - intros H. specialize (H blank 0).
    rewrite (HexadecimalDecode_checks blank input input_size output 0) in H.
    unfold decode_overlap_ok in *.
    destruct (Z.le_gt_cases output (input + 1)); [now left|].
    destruct (Z.le_gt_cases (input + Z.land input_size (Z.lnot 1)) output);
      [now right|].
    exfalso. apply H. left. split; [lia | reflexivity].
  - intros Hok m osz.
    rewrite (HexadecimalDecode_checks m input input_size output osz).
    intros [[Hbad _]|[_ [_ Hmsg]]]; [now apply Hbad | discriminate].
Qed.

End Geometry.

(** The overlap test is needed: with the output two bytes before the input
    the loop alone overwrites [input[0]] before it reads it. *)
Example encode_loop_clobbers :
  match encode_loop 2 1 3 2 (fill blank 2 [x12; x34]) with
  | Returns m => load m 0 4 = list_byte_of_string "3334"
  | _ => False
  end.
Proof. vm_compute. reflexivity. Qed.

(** C1. Round trip: a buffer encoded with [HexadecimalEncode] into an output
    of at least twice its size and decoded back with [HexadecimalDecode]
    into an output of at least its size is unchanged. The buffers may be
    laid out in any way the two functions accept. *)
Theorem hexadecimal_round_trip
    (B : list byte) (m : memory)
    (input encoded encoded_size decoded decoded_size : Z) :
  let size := Z.of_nat (List.length B) in
  load m input (List.length B) = B ->
  int64_range encoded_size ->
  2 * size <= encoded_size ->
  size <= decoded_size ->
  encode_overlap_ok input size encoded ->
  decode_overlap_ok encoded (2 * size) decoded ->
  exists m1 m2,
    HexadecimalEncode m input size encoded encoded_size = Returns m1
    /\ HexadecimalDecode m1 encoded (2 * size) decoded decoded_size
       = Returns m2
    /\ load m2 decoded (List.length B) = B.
Proof.
  intros size HB Hrange Hesize Hdsize Hegeo Hdgeo.
  assert (Hquot : 2 * size / 2 = size)
    by (rewrite Z.mul_comm; apply Z.div_mul; lia).
  destruct (HexadecimalEncode_returns m input size encoded encoded_size)
    as (m1 & Hrun1 & Hload1 & _); try assumption; [subst size; lia|].
  destruct (HexadecimalDecode_returns m1 encoded (2 * size) decoded
              decoded_size)
    as (m2 & Hrun2 & Hload2 & _).
  { subst size; lia. }
  { now rewrite Hquot. }
  { now rewrite Hquot. }
  exists m1, m2. split; [exact Hrun1 | split; [exact Hrun2 |]].
  rewrite Hquot in Hload2. subst size. rewrite Nat2Z.id in *.
  rewrite Hload2.
  replace (Z.to_nat (2 * Z.of_nat (List.length B)))
    with (List.length B * 2)%nat by lia.
  rewrite Hload1, HB. apply decode_list_encode_list.
Qed.

Lemma hexadecimal_round_trip_witness :
  let B := [x00; xff; xab] in
  exists m1 m2,
    HexadecimalEncode (fill blank 0 B) 0 3 10 6 = Returns m1
    /\ HexadecimalDecode m1 10 (2 * 3) 20 3 = Returns m2
    /\ load m2 20 3 = B.
Proof.
  apply (hexadecimal_round_trip [x00; xff; xab]
           (fill blank 0 [x00; xff; xab]) 0 10 6 20 3).
  - reflexivity.
  - unfold int64_range. lia.
  - simpl. lia.
  - simpl. lia.
  - unfold encode_overlap_ok. simpl. lia.
  - unfold decode_overlap_ok. simpl. lia.
Defined.

(** C6. [HexadecimalEncode] on a buffer of [input_size] bytes, with an
    output of at least twice that size, returns having written exactly the
    [2 * input_size] bytes from [output[0]] on; they are, byte after byte,
    the two upper-case hexadecimal digits that the lookup table holds for
    the byte. The bytes 00 FF AB give the text 00FFAB. *)
Theorem HexadecimalEncode_digits
    (m : memory) (input input_size output output_size : Z) :
  0 <= input_size ->
  2 * input_size <= output_size ->
  int64_range output_size ->
  encode_overlap_ok input input_size output ->
  exists m',
    HexadecimalEncode m input input_size output output_size = Returns m'
    /\ load m' output (Z.to_nat (2 * input_size))
       = flat_map hex_of_byte (load m input (Z.to_nat input_size))
    /\ List.length (flat_map hex_of_byte (load m input (Z.to_nat input_size)))
       = Z.to_nat (2 * input_size)
    /\ (forall a, a < output \/ output + 2 * input_size <= a -> m' a = m a)
    /\ (forall b,
          hex_of_byte b
          = [nth (Z.to_nat (2 * int_of_uint8 b)) kByteToHexadecimalDigits x00;
             nth (Z.to_nat (2 * int_of_uint8 b + 1))
               kByteToHexadecimalDigits x00])
    /\ (load m input (Z.to_nat input_size) = [x00; xff; xab] ->
        load m' output (Z.to_nat (2 * input_size))
        = list_byte_of_string "00FFAB").
Proof.
  intros Hn Hsize Hrange Hgeo.
  destruct (HexadecimalEncode_returns m input input_size output output_size)
    as (m' & Hrun & Hload & Hout); try assumption.
  replace (Z.to_nat input_size * 2)%nat with (Z.to_nat (2 * input_size))
    in Hload by lia.
  exists m'. repeat split; try assumption.
  - fold (encode_list (load m input (Z.to_nat input_size))).
    rewrite <- Hload. apply length_load.
  - intros b. destruct b; vm_compute; reflexivity.
  - intros H. rewrite Hload, H. reflexivity.
Qed.

Lemma HexadecimalEncode_digits_witness :
  exists m',
    HexadecimalEncode (fill blank 0 [x00; xff; xab]) 0 3 0 6 = Returns m'
    /\ load m' 0 6 = list_byte_of_string "00FFAB".
Proof.
  destruct (HexadecimalEncode_digits (fill blank 0 [x00; xff; xab]) 0 3 0 6)
    as (m' & Hrun & _ & _ & _ & _ & Htext).
  - lia.
  - lia.
  - unfold int64_range. lia.
  - unfold encode_overlap_ok. lia.
  - exists m'. split; [exact Hrun | apply Htext; reflexivity].
Defined.

(** C7 as stated does not hold: called in place, with [output = input], the
    function passes its overlap assertion, although the output does not
    start at or after [input + 1] and the buffers are not disjoint. *)
Lemma encode_accepts_in_place :
  encode_accepts 0 1 0 /\ ~ spec_encode_geometry 0 1 0.
Proof.
  split.
  - intros m osz. unfold HexadecimalEncode. vm_compute (shl1 1).
    cbn [Z.add Z.leb Z.compare orb negb].
    destruct (negb (osz >=? 2)); [discriminate|].
    apply encode_loop_no_check.
  - unfold spec_encode_geometry, disjoint. lia.
Qed.

(** C7, amended. [HexadecimalEncode] passes its overlap assertion exactly
    when [input <= output + 1] or [output + 2 * input_size <= input]; this
    holds in every geometry the specification lists. Under it the backward
    loop gives, in place, the text that a call on disjoint buffers holding
    the same input gives. [HexadecimalDecode] is the forward case: it
    passes exactly when [output <= input + 1] or the output starts at or
    after the end of the input (its size made even), and then decodes in
    place as it does on disjoint buffers. *)
Theorem overlap_geometries
    (input input_size output : Z) :
  0 <= input_size < 2 ^ 62 ->
  (encode_accepts input input_size output
   <-> input <= output + 1 \/ output + 2 * input_size <= input)
  /\ (spec_encode_geometry input input_size output ->
      encode_accepts input input_size output)
  /\ (encode_accepts input input_size output ->
      forall m m0 input0 output0,
        disjoint input0 input_size output0 (2 * input_size) ->
        load m0 input0 (Z.to_nat input_size)
        = load m input (Z.to_nat input_size) ->
        exists r r0,
          HexadecimalEncode m input input_size output (2 * input_size)
          = Returns r
          /\ HexadecimalEncode m0 input0 input_size output0 (2 * input_size)
             = Returns r0
          /\ load r output (Z.to_nat (2 * input_size))
             = load r0 output0 (Z.to_nat (2 * input_size)))
  /\ (decode_accepts input input_size output
      <-> output <= input + 1
          \/ input + Z.land input_size (Z.lnot 1) <= output)
  /\ (decode_accepts input input_size output ->
      forall m m0 input0 output0,
        disjoint input0 input_size output0 (input_size / 2) ->
        load m0 input0 (Z.to_nat input_size)
        = load m input (Z.to_nat input_size) ->
        exists r r0,
          HexadecimalDecode m input input_size output (input_size / 2)
          = Returns r
          /\ HexadecimalDecode m0 input0 input_size output0 (input_size / 2)
             = Returns r0
          /\ load r output (Z.to_nat (input_size / 2))
             = load r0 output0 (Z.to_nat (input_size / 2))).
Proof.
  intros Hn.
  assert (Hn' : - 2 ^ 62 <= input_size < 2 ^ 62) by lia.
  pose proof (Z.div_pos input_size 2 ltac:(lia) ltac:(lia)) as Hq.
  pose proof (Z.mul_div_le input_size 2 ltac:(lia)) as Hle.
  split; [|split; [|split; [|split]]].
  - apply encode_accepts_iff. exact Hn'.
  - intros H. apply encode_accepts_iff; [exact Hn'|].
    apply spec_encode_geometry_ok; [lia | exact H].
  - intros Hacc m m0 input0 output0 Hdis Hsame.
    apply encode_accepts_iff in Hacc; [|exact Hn'].
    destruct (HexadecimalEncode_returns m input input_size output
                (2 * input_size)) as (r & Hr & Hlr & _);
      try assumption; try lia; [unfold int64_range; lia|].
    destruct (HexadecimalEncode_returns m0 input0 input_size output0
                (2 * input_size)) as (r0 & Hr0 & Hlr0 & _);
      try lia; [apply disjoint_encode_overlap_ok; [lia | exact Hdis]
               | unfold int64_range; lia |].
    exists r, r0. repeat split; try assumption.
    replace (Z.to_nat (2 * input_size)) with (Z.to_nat input_size * 2)%nat
      by lia.
    now rewrite Hlr, Hlr0, Hsame.
  - apply decode_accepts_iff.
  - intros Hacc m m0 input0 output0 Hdis Hsame.
    apply decode_accepts_iff in Hacc. rewrite land_lnot_1 in Hacc.
    destruct (HexadecimalDecode_returns m input input_size output
                (input_size / 2)) as (r & Hr & Hlr & _);
      try assumption; try lia.
    destruct (HexadecimalDecode_returns m0 input0 input_size output0
                (input_size / 2)) as (r0 & Hr0 & Hlr0 & _); try lia.
    { unfold disjoint in Hdis. unfold decode_overlap_ok. lia. }
    exists r, r0. repeat split; try assumption.
    now rewrite Hlr, Hlr0, Hsame.
Qed.

Lemma overlap_geometries_witness :
  encode_accepts 0 1 0
  /\ exists r r0,
       HexadecimalEncode (fill blank 0 [xab]) 0 1 0 2 = Returns r
       /\ HexadecimalEncode (fill blank 5 [xab]) 5 1 8 2 = Returns r0
       /\ load r 0 2 = load r0 8 2.
Proof.
  destruct (overlap_geometries 0 1 0) as (Hiff & _ & Hsame & _); [lia|].
  assert (Hacc : encode_accepts 0 1 0) by (apply Hiff; lia).
  split; [exact Hacc|].
  apply (Hsame Hacc (fill blank 0 [xab]) (fill blank 5 [xab]) 5 8).
  - unfold disjoint. lia.
  - reflexivity.
Defined.

(** C8 as stated does not hold: with the size precondition met, a call
    still fails a [CHECK], that of the overlap, when the buffers overlap the
    wrong way. *)
Lemma size_precondition_not_enough :
  (4 >= 2 * 2
   /\ HexadecimalEncode blank 2 2 0 4 = CheckFailure "bad overlap")
  /\ (2 >= Z.quot (Z.land 4 (Z.lnot 1)) 2
      /\ HexadecimalDecode blank 0 4 2 2 = CheckFailure "bad overlap").
Proof.
  split; (split; [vm_compute; discriminate | reflexivity]).
Qed.

(** C8, amended. The size preconditions are checked by fatal assertions. A
    call of [HexadecimalEncode] with [output_size < 2 * input_size] ends in
    a failed [CHECK], and so does a call of [HexadecimalDecode] with
    [output_size] below half of the input size made even. When the size
    precondition holds, the only [CHECK] that can fail is that of the
    overlap, and it fails exactly when the geometry of the buffers is not
    an accepted one; when the overlap precondition holds as well no
    [CHECK] fails. This is for an [input_size] that is not negative and
    that [<< 1] does not overflow. *)
Theorem size_preconditions
    (m : memory) (input input_size output output_size : Z) :
  0 <= input_size < 2 ^ 62 ->
  let even_size := Z.land input_size (Z.lnot 1) in
  (~ output_size >= 2 * input_size ->
   exists msg,
     HexadecimalEncode m input input_size output output_size
     = CheckFailure msg)
  /\ (output_size >= 2 * input_size ->
      forall msg,
        HexadecimalEncode m input input_size output output_size
        = CheckFailure msg
        <-> ~ encode_overlap_ok input input_size output
            /\ msg = "bad overlap"%string)
  /\ (output_size >= 2 * input_size ->
      encode_overlap_ok input input_size output ->
      forall msg,
        HexadecimalEncode m input input_size output output_size
        <> CheckFailure msg)
  /\ (~ output_size >= Z.quot even_size 2 ->
      exists msg,
        HexadecimalDecode m input input_size output output_size
        = CheckFailure msg)
  /\ (output_size >= Z.quot even_size 2 ->
      forall msg,
        HexadecimalDecode m input input_size output output_size
        = CheckFailure msg
        <-> ~ decode_overlap_ok input even_size output
            /\ msg = "bad overlap"%string)
  /\ (output_size >= Z.quot even_size 2 ->
      decode_overlap_ok input even_size output ->
      forall msg,
        HexadecimalDecode m input input_size output output_size
        <> CheckFailure msg).
Proof.
  intros Hn even_size.
  pose proof (HexadecimalEncode_checks m input input_size output output_size
                ltac:(lia)) as He.
  pose proof (HexadecimalDecode_checks m input input_size output output_size)
    as Hd.
  cbv zeta in Hd. fold even_size in Hd.
  assert (Hdec_e : encode_overlap_ok input input_size output
                   \/ ~ encode_overlap_ok input input_size output)
    by (unfold encode_overlap_ok; lia).
  assert (Hdec_d : decode_overlap_ok input even_size output
                   \/ ~ decode_overlap_ok input even_size output)
    by (unfold decode_overlap_ok; lia).
  split; [|split; [|split; [|split; [|split]]]].
  - intros Hsmall. destruct Hdec_e as [Hok|Hbad].
    + exists "output too small"%string. apply He. right.
      repeat split; [exact Hok | lia].
    + exists "bad overlap"%string. apply He. left. now split.
  - intros Hbig msg. rewrite He. split.
    + intros [H|[_ [H _]]]; [exact H | lia].
    + intros H. left. exact H.
  - intros Hbig Hok msg H. apply He in H.
    destruct H as [[H _]|[_ [H _]]]; [now apply H | lia].
  - intros Hsmall. destruct Hdec_d as [Hok|Hbad].
    + exists "output too small"%string. apply Hd. right.
      repeat split; [exact Hok | lia].
    + exists "bad overlap"%string. apply Hd. left. now split.
  - intros Hbig msg. rewrite Hd. split.
    + intros [H|[_ [H _]]]; [exact H | lia].
    + intros H. left. exact H.
  - intros Hbig Hok msg H. apply Hd in H.
    destruct H as [[H _]|[_ [H _]]]; [now apply H | lia].
Qed.

Lemma size_preconditions_witness :
  (exists msg, HexadecimalEncode blank 0 3 10 5 = CheckFailure msg)
  /\ (forall msg, HexadecimalEncode blank 0 3 10 6 <> CheckFailure msg)
  /\ (forall msg,
        HexadecimalEncode blank 2 2 0 4 = CheckFailure msg
        <-> ~ encode_overlap_ok 2 2 0 /\ msg = "bad overlap"%string)
  /\ (exists msg, HexadecimalDecode blank 0 7 10 2 = CheckFailure msg)
  /\ (forall msg, HexadecimalDecode blank 0 7 10 3 <> CheckFailure msg).
Proof.
  assert (H2 : 0 <= 2 < 2 ^ 62) by lia.
  assert (H3 : 0 <= 3 < 2 ^ 62) by lia.
  assert (H7 : 0 <= 7 < 2 ^ 62) by lia.
  destruct (size_preconditions blank 0 3 10 5 H3) as (E1 & _).
  destruct (size_preconditions blank 0 3 10 6 H3) as (_ & _ & E3 & _).
  destruct (size_preconditions blank 2 2 0 4 H2) as (_ & E2 & _).
  destruct (size_preconditions blank 0 7 10 2 H7) as (_ & _ & _ & D1 & _).
  destruct (size_preconditions blank 0 7 10 3 H7)
    as (_ & _ & _ & _ & _ & D3).
  split; [apply E1; lia|].
  split; [apply E3; [lia | unfold encode_overlap_ok; lia]|].
  split; [apply E2; lia|].
  split; [apply D1; vm_compute; intros H; now apply H|].
  apply D3; [vm_compute; discriminate|].
  unfold decode_overlap_ok. right. vm_compute. discriminate.
Defined.

(** C9. [HexadecimalDecode] does not tell the case of the letters a to f:
    the table gives a letter and its upper-case form the same nibble, and
    two inputs that differ in the case of such letters only are decoded to
    the same bytes. *)
Theorem HexadecimalDecode_case_insensitive
    (m m' : memory) (input input_size output output_size : Z) :
  0 <= input_size ->
  input_size / 2 <= output_size ->
  decode_overlap_ok input (2 * (input_size / 2)) output ->
  same_up_to_case (load m input (Z.to_nat input_size))
                  (load m' input (Z.to_nat input_size)) ->
  (forall c, nibble_at (upper_hex c) = nibble_at c)
  /\ exists r r',
       HexadecimalDecode m input input_size output output_size = Returns r
       /\ HexadecimalDecode m' input input_size output output_size
          = Returns r'
       /\ load r output (Z.to_nat (input_size / 2))
          = load r' output (Z.to_nat (input_size / 2)).
Proof.
  intros Hn Hsize Hgeo Hcase. split; [exact nibble_at_upper_hex|].
  destruct (HexadecimalDecode_returns m input input_size output output_size)
    as (r & Hr & Hlr & _); try assumption.
  destruct (HexadecimalDecode_returns m' input input_size output output_size)
    as (r' & Hr' & Hlr' & _); try assumption.
  exists r, r'. repeat split; try assumption.
  rewrite Hlr, Hlr'. now apply decode_list_same_up_to_case.
Qed.

Lemma HexadecimalDecode_case_insensitive_witness :
  exists r r',
    HexadecimalDecode (fill blank 0 (list_byte_of_string "c0FfeE")) 0 6 10 3
    = Returns r
    /\ HexadecimalDecode (fill blank 0 (list_byte_of_string "C0fFEe")) 0 6 10 3
       = Returns r'
    /\ load r 10 3 = load r' 10 3.
Proof.
  apply (HexadecimalDecode_case_insensitive
           (fill blank 0 (list_byte_of_string "c0FfeE"))
           (fill blank 0 (list_byte_of_string "C0fFEe")) 0 6 10 3).
  - lia.
  - change (6 / 2) with 3. lia.
  - unfold decode_overlap_ok. change (6 / 2) with 3. lia.
  - reflexivity.
Defined.

(** C10. [HexadecimalDecode] does not validate its input. The table maps
    every byte that is not a hexadecimal digit to the nibble 0, whether a
    call fails does not depend on the bytes in memory, and on any input
    whatsoever, with an accepted geometry and a large enough output, the
    call returns having written exactly the [input_size / 2] bytes from
    [output[0]] on. *)
Theorem HexadecimalDecode_total
    (m : memory) (input input_size output output_size : Z) :
  (forall c, is_hex_digit c = false -> nibble_at c = 0)
  /\ (forall m0 msg,
        HexadecimalDecode m input input_size output output_size
        = CheckFailure msg ->
        HexadecimalDecode m0 input input_size output output_size
        = CheckFailure msg)
  /\ (0 <= input_size ->
      input_size / 2 <= output_size ->
      decode_overlap_ok input (2 * (input_size / 2)) output ->
      exists m',
        HexadecimalDecode m input input_size output output_size = Returns m'
        /\ load m' output (Z.to_nat (input_size / 2))
           = decode_list (load m input (Z.to_nat input_size))
        /\ List.length (decode_list (load m input (Z.to_nat input_size)))
           = Z.to_nat (input_size / 2)
        /\ (forall a, a < output \/ output + input_size / 2 <= a ->
              m' a = m a)).
Proof.
  split; [exact nibble_at_not_digit | split].
  - intros m0 msg H.
    apply HexadecimalDecode_checks. now apply HexadecimalDecode_checks in H.
  - intros Hn Hsize Hgeo.
    destruct (HexadecimalDecode_returns m input input_size output output_size)
      as (m' & Hrun & Hload & Hout); try assumption.
    exists m'. repeat split; try assumption.
    rewrite <- Hload. apply length_load.
Qed.

Lemma HexadecimalDecode_total_witness :
  exists m',
    HexadecimalDecode (fill blank 0 (list_byte_of_string "4g zz~")) 0 6 10 3
    = Returns m'
    /\ load m' 10 3 = [x40; x00; x00].
Proof.
  destruct (HexadecimalDecode_total
              (fill blank 0 (list_byte_of_string "4g zz~")) 0 6 10 3)
    as (_ & _ & H).
  destruct H as (m' & Hrun & Hload & _).
  - lia.
  - change (6 / 2) with 3. lia.
  - unfold decode_overlap_ok. change (6 / 2) with 3. lia.
  - exists m'. split; [exact Hrun | exact Hload].
Defined.

Example scenario_pieces :
  Push_pieces (create 4 2) bytes_0_to_9
  = [[x00; x01; x02; x03]; [x04; x05; x06; x07]; [x08; x09]].
Proof. reflexivity. Qed.

(** ** Splitting into pieces *)

Section Pieces.

Variable chunk_size : nat.

Lemma pieces_nil (fuel : nat) : pieces fuel chunk_size [] = [[]].
Proof. destruct fuel; reflexivity. Qed.

Lemma concat_pieces (fuel : nat) :
  forall bytes, List.concat (pieces fuel chunk_size bytes) = bytes.
Proof.
  induction fuel as [|fuel IH]; intros bytes; simpl.
  - apply app_nil_r.
  - destruct (List.length bytes <=? chunk_size)%nat; simpl.
    + apply app_nil_r.
    + rewrite IH. apply firstn_skipn.
Qed.

Hypothesis chunk_size_positive : (0 < chunk_size)%nat.

Lemma pieces_bounded (fuel : nat) :
  forall bytes,
    (List.length bytes <= fuel)%nat ->
    Forall (fun chunk => (List.length chunk <= chunk_size)%nat)
      (pieces fuel chunk_size bytes).
Proof.
  induction fuel as [|fuel IH]; intros bytes Hlen; simpl.
  - constructor; [lia | constructor].
  - destruct (Nat.leb_spec (List.length bytes) chunk_size) as [Hle|Hgt].
    + constructor; [exact Hle | constructor].
    + constructor.
      * rewrite length_firstn. lia.
      * apply IH. rewrite length_skipn. lia.
Qed.

Lemma pieces_nonempty (fuel : nat) :
  forall bytes,
    bytes <> [] ->
    (List.length bytes <= fuel)%nat ->
    Forall (fun chunk => chunk <> []) (pieces fuel chunk_size bytes).
Proof.
  induction fuel as [|fuel IH]; intros bytes Hne Hlen; simpl.
  - constructor; [exact Hne | constructor].
  - destruct (Nat.leb_spec (List.length bytes) chunk_size) as [Hle|Hgt].
    + constructor; [exact Hne | constructor].
    + assert (Hskip : List.length (skipn chunk_size bytes)
                      = (List.length bytes - chunk_size)%nat)
        by apply length_skipn.
      constructor.
      * intros E. apply (f_equal (@List.length byte)) in E.
        rewrite length_firstn in E. simpl in E. lia.
      * apply IH; [|lia].
        intros E. rewrite E in Hskip. simpl in Hskip. lia.
Qed.

End Pieces.

(** ** What holds in every state of a started pipeline *)

Section Invariant.

Variables chunk_size number_of_chunks : Z.
Hypothesis chunk_size_positive : 0 < chunk_size.
Hypothesis number_of_chunks_positive : 0 < number_of_chunks.

Lemma Push_pieces_bounded (d : t) (bytes : Bytes) :
  chunk_size_ d = chunk_size ->
  Forall (fun chunk => size chunk <= chunk_size) (Push_pieces d bytes).
Proof.
  intros Hd. unfold Push_pieces. rewrite Hd.
  eapply Forall_impl; [|apply pieces_bounded; [lia | apply Nat.le_refl]].
  intros chunk H. unfold size. cbv beta in H. lia.
Qed.

Lemma Push_pieces_nonempty (d : t) (bytes : Bytes) :
  chunk_size_ d = chunk_size ->
  bytes <> [] ->
  Forall nonempty (Push_pieces d bytes).
Proof.
  intros Hd Hne. unfold Push_pieces. rewrite Hd.
  apply pieces_nonempty; [lia | exact Hne | apply Nat.le_refl].
Qed.

Lemma size_0_iff (bytes : Bytes) : (size bytes =? 0) = true <-> bytes = [].
Proof.
  unfold size. rewrite Z.eqb_eq. destruct bytes; simpl; split; intros H;
    try reflexivity; try discriminate; lia.
Qed.

Lemma invariant_start :
  invariant chunk_size number_of_chunks (start chunk_size number_of_chunks).
Proof.
  constructor; simpl; try reflexivity; try lia; try constructor.
  - constructor.
  - constructor.
Qed.

Lemma invariant_CallPush (s s' : pipeline) (bytes : Bytes) :
  invariant chunk_size number_of_chunks s ->
  exec (CallPush bytes) s = Continues s' ->
  invariant chunk_size number_of_chunks s'.
Proof.
  intros [Hcs Hnc Hfifo Hpieces Hcap Hsizes Hsent] Hexec.
  simpl in Hexec. destruct (pending s) as [|c rest] eqn:Hpend; [|discriminate].
  destruct (end_of_input s) eqn:Hend; [discriminate|].
  injection Hexec as <-.
  rewrite app_nil_r in *.
  constructor; simpl; try assumption.
  - rewrite flat_map_app. simpl. rewrite app_nil_r, <- Hpieces.
    f_equal. unfold Push_pieces. now rewrite Hcs.
  - apply Forall_app. split; [exact Hsizes | now apply Push_pieces_bounded].
  - unfold sentinel_in_place in *. simpl. rewrite Hpend, Hend in Hsent.
    rewrite app_nil_r in Hsent.
    destruct (decoding s).
    + destruct Hsent as [Hdel Hwait]. split; [exact Hdel|].
      destruct (size bytes =? 0) eqn:Hsz.
      * apply size_0_iff in Hsz. subst bytes.
        exists (queue_ (deserializer s)). split; [|exact Hwait].
        unfold Push_pieces. now rewrite pieces_nil.
      * apply Forall_app. split; [exact Hwait|].
        apply Push_pieces_nonempty; [exact Hcs|].
        intros E. subst bytes. discriminate.
    + destruct Hsent as [Hcontra _]. discriminate.
Qed.

Lemma invariant_PutNext (s s' : pipeline) :
  invariant chunk_size number_of_chunks s ->
  exec PutNext s = Continues s' ->
  invariant chunk_size number_of_chunks s'.
Proof.
  intros [Hcs Hnc Hfifo Hpieces Hcap Hsizes Hsent] Hexec.
  simpl in Hexec. destruct (pending s) as [|c rest] eqn:Hpend; [discriminate|].
  unfold Put in Hexec.
  destruct (Z.eqb_spec (Z.of_nat (List.length (queue_ (deserializer s))))
              (number_of_chunks_ (deserializer s))) as [|Hroom];
    [discriminate|].
  injection Hexec as <-.
  constructor; simpl; try assumption.
  - rewrite Hfifo. now rewrite app_assoc.
  - rewrite <- Hpieces, <- app_assoc. reflexivity.
  - rewrite length_app. simpl. lia.
  - rewrite <- app_assoc. exact Hsizes.
  - unfold sentinel_in_place in *. simpl. rewrite Hpend in Hsent.
    rewrite <- app_assoc. exact Hsent.
Qed.

Lemma invariant_PullNext (s s' : pipeline) :
  invariant chunk_size number_of_chunks s ->
  exec PullNext s = Continues s' ->
  invariant chunk_size number_of_chunks s'.
Proof.
  intros [Hcs Hnc Hfifo Hpieces Hcap Hsizes Hsent] Hexec.
  simpl in Hexec. destruct (decoding s) eqn:Hdec; [|discriminate].
  unfold Get in Hexec.
  destruct (queue_ (deserializer s)) as [|c rest] eqn:Hq; [discriminate|].
  injection Hexec as <-.
  constructor; simpl; try assumption.
  - rewrite Hfifo, <- app_assoc. reflexivity.
  - simpl in Hcap. lia.
  - now inversion Hsizes.
  - unfold sentinel_in_place in *. simpl. rewrite Hdec, Hq in Hsent.
    destruct Hsent as [Hdel Hwait].
    destruct (size c =? 0) eqn:Hsz; simpl.
    + apply size_0_iff in Hsz. subst c.
      destruct (end_of_input s).
      * destruct Hwait as (l & Hl & Hne). split; [reflexivity|].
        destruct l as [|x l].
        -- simpl in Hl. injection Hl as Hl. split; [exact Hl|].
           exists (delivered s). split; [reflexivity | exact Hdel].
        -- simpl in Hl. injection Hl as Hx _. subst x.
           inversion Hne as [|? ? Hx _]. now elim Hx.
      * inversion Hwait as [|? ? Hx _]. now elim Hx.
    + assert (Hc : nonempty c).
      { intros E. subst c. discriminate. }
      split; [apply Forall_app; split; [exact Hdel | now constructor]|].
      destruct (end_of_input s).
      * destruct Hwait as (l & Hl & Hne).
        destruct l as [|x l].
        -- simpl in Hl. injection Hl as Hx _. now elim Hc.
        -- simpl in Hl. injection Hl as Hx Hl. exists l.
           split; [exact Hl | now inversion Hne].
      * now inversion Hwait.
Qed.

Lemma reachable_invariant (s : pipeline) :
  reachable chunk_size number_of_chunks s ->
  invariant chunk_size number_of_chunks s.
Proof.
  induction 1 as [|s e s' _ IH Hexec]; [apply invariant_start|].
  destruct e.
  - eapply invariant_CallPush; eassumption.
  - eapply invariant_PutNext; eassumption.
  - eapply invariant_PullNext; eassumption.
Qed.

End Invariant.

(** ** Steps of the two threads *)

Section Steps.

Variables chunk_size number_of_chunks : Z.
Hypothesis chunk_size_positive : 0 < chunk_size.
Hypothesis number_of_chunks_positive : 0 < number_of_chunks.

Lemma thread_event_step (e : event) (s s' : pipeline) :
  thread_event e ->
  exec e s = Continues s' ->
  end_of_input s' = end_of_input s
  /\ calls s' = calls s
  /\ enqueued s' ++ pending s' = enqueued s ++ pending s
  /\ (work_left s' + 1 = work_left s)%nat.
Proof.
  intros He Hexec. destruct e; [contradiction | |]; simpl in Hexec.
  - destruct (pending s) as [|c rest] eqn:Hpend; [discriminate|].
    unfold Put in Hexec.
    destruct (Z.of_nat (List.length (queue_ (deserializer s)))
              =? number_of_chunks_ (deserializer s)); [discriminate|].
    injection Hexec as <-. unfold work_left. simpl. rewrite Hpend.
    repeat split.
    + now rewrite <- app_assoc.
    + rewrite length_app. simpl. lia.
  - destruct (decoding s); [|discriminate]. unfold Get in Hexec.
    destruct (queue_ (deserializer s)) as [|c rest] eqn:Hq; [discriminate|].
    injection Hexec as <-. unfold work_left. simpl. rewrite Hq.
    repeat split. simpl. lia.
Qed.

Lemma thread_events_run (trace : list event) :
  forall s s',
    Forall thread_event trace ->
    run trace s = Continues s' ->
    end_of_input s' = end_of_input s
    /\ calls s' = calls s
    /\ enqueued s' ++ pending s' = enqueued s ++ pending s.
Proof.
  induction trace as [|e trace IH]; intros s s' Hall Hrun; simpl in Hrun.
  - injection Hrun as <-. repeat split.
  - inversion Hall as [|? ? He Hrest]; subst.
    destruct (exec e s) as [s1| |] eqn:Hexec; try discriminate.
    destruct (thread_event_step e s s1 He Hexec) as (H1 & H2 & H3 & _).
    destruct (IH s1 s' Hrest Hrun) as (H1' & H2' & H3').
    repeat split; congruence.
Qed.

Lemma reachable_run (trace : list event) :
  forall s s',
    reachable chunk_size number_of_chunks s ->
    run trace s = Continues s' ->
    reachable chunk_size number_of_chunks s'.
Proof.
  induction trace as [|e trace IH]; intros s s' Hs Hrun; simpl in Hrun.
  - now injection Hrun as <-.
  - destruct (exec e s) as [s1| |] eqn:Hexec; try discriminate.
    eapply IH; [|exact Hrun]. eapply reachable_step; eassumption.
Qed.

(** After the end of input one of the two threads can always take a step,
    as long as the decoding loop runs. *)
Lemma progress_to_sentinel (s : pipeline) :
  invariant chunk_size number_of_chunks s ->
  end_of_input s = true ->
  decoding s = true ->
  exists e s', thread_event e /\ exec e s = Continues s'.
Proof.
  intros [Hcs Hnc Hfifo Hpieces Hcap Hsizes Hsent] Hend Hdec.
  unfold sentinel_in_place in Hsent. rewrite Hdec, Hend in Hsent.
  destruct Hsent as (_ & l & Hl & _).
  destruct (queue_ (deserializer s)) as [|c rest] eqn:Hq.
  - destruct (pending s) as [|c rest] eqn:Hpend.
    + destruct l; discriminate.
    + exists PutNext. eexists. split; [exact I|].
      simpl. rewrite Hpend. unfold Put. rewrite Hq, Hnc.
      change (Z.of_nat (List.length (@nil Bytes))) with 0.
      destruct (Z.eqb_spec 0 number_of_chunks); [lia | reflexivity].
  - exists PullNext. eexists. split; [exact I|].
    simpl. rewrite Hdec. unfold Get. rewrite Hq. reflexivity.
Qed.

(** After the end of input some run of the two threads, of at most
    [work_left] steps, ends the decoding loop. *)
Lemma sentinel_reached (n : nat) :
  forall s,
    (work_left s <= n)%nat ->
    invariant chunk_size number_of_chunks s ->
    end_of_input s = true ->
    exists trace s',
      Forall thread_event trace
      /\ (List.length trace <= n)%nat
      /\ run trace s = Continues s'
      /\ decoding s' = false.
Proof.
  induction n as [|n IH]; intros s Hwork Hinv Hend;
    destruct (decoding s) eqn:Hdec;
    try (exists [], s; repeat split;
         [constructor | simpl; lia | exact Hdec]);
    destruct (progress_to_sentinel s Hinv Hend Hdec) as (e & s1 & He & Hexec);
    destruct (thread_event_step e s s1 He Hexec) as (Hend1 & _ & _ & Hwork1).
  - lia.
  - destruct (IH s1) as (trace & s' & Hall & Hlen & Hrun & Hdone).
    + lia.
    + destruct e; [contradiction | |].
      * eapply invariant_PutNext; eassumption.
      * eapply invariant_PullNext; eassumption.
    + congruence.
    + exists (e :: trace), s'. repeat split.
      * now constructor.
      * simpl. lia.
      * simpl. now rewrite Hexec.
      * exact Hdone.
Qed.

(** The decoding loop takes out all that the queue holds. *)
Lemma drain (n : nat) :
  forall s,
    invariant chunk_size number_of_chunks s ->
    List.length (queue_ (deserializer s)) = n ->
    exists s',
      run (repeat PullNext n) s = Continues s'
      /\ delivered s' = enqueued s
      /\ enqueued s' = enqueued s
      /\ queue_ (deserializer s') = [].
Proof.
  induction n as [|n IH]; intros s Hinv Hlen.
  - exists s. destruct Hinv as [_ _ Hfifo _ _ _ _].
    destruct (queue_ (deserializer s)); [|discriminate].
    rewrite app_nil_r in Hfifo. simpl. repeat split. now symmetry.
  - destruct (queue_ (deserializer s)) as [|c rest] eqn:Hq; [discriminate|].
    assert (Hdec : decoding s = true).
    { destruct Hinv as [_ _ _ _ _ _ Hsent]. unfold sentinel_in_place in Hsent.
      destruct (decoding s); [reflexivity|].
      destruct Hsent as (_ & Hw & _). rewrite Hq in Hw. discriminate. }
    assert (Hexec : exec PullNext s
                    = Continues
                        (Pipeline
                           (Build (chunk_size_ (deserializer s))
                              (number_of_chunks_ (deserializer s)) rest)
                           (pending s) (end_of_input s)
                           (negb (size c =? 0)) (calls s) (enqueued s)
                           (delivered s ++ [c]))).
    { simpl. rewrite Hdec. unfold Get. now rewrite Hq. }
    destruct (IH _ (invariant_PullNext _ _ _ _ Hinv Hexec))
      as (s' & Hrun & Hdel & Henq & Hempty).
    + simpl in *. lia.
    + exists s'. repeat split; try assumption.
      change (repeat PullNext (S n)) with (PullNext :: repeat PullNext n).
      cbn [run]. rewrite Hexec. exact Hrun.
Qed.

Lemma total_size_bounded (q : list Bytes) :
  Forall (fun chunk => size chunk <= chunk_size) q ->
  total_size q <= Z.of_nat (List.length q) * chunk_size.
Proof.
  induction 1 as [|c q Hc _ IH].
  - reflexivity.
  - change (total_size (c :: q)) with (size c + total_size q).
    change (List.length (c :: q)) with (S (List.length q)).
    rewrite Nat2Z.inj_succ. lia.
Qed.

End Steps.

(** ** Properties of the push deserializer *)

(** C2. [Push] splits [bytes] into consecutive pieces of at most
    [chunk_size] bytes each, which put end to end are [bytes], and puts
    them in the queue in that order: whatever the two threads do next, the
    chunks put so far followed by the pieces still to put are the chunks
    put before the call followed by all the pieces, and the decoding side
    is handed them in the same order. With [chunk_size = 4] and
    [number_of_chunks = 2] the ten bytes 0 to 9 go to the decoding side as
    0 1 2 3, then 4 5 6 7, then 8 9. *)
Theorem Push_splits_in_order
    (chunk_size number_of_chunks : Z) (bytes : Bytes) (s s1 : pipeline) :
  0 < chunk_size ->
  0 < number_of_chunks ->
  reachable chunk_size number_of_chunks s ->
  exec (CallPush bytes) s = Continues s1 ->
  let chunks := Push_pieces (deserializer s) bytes in
  List.concat chunks = bytes
  /\ Forall (fun chunk => size chunk <= chunk_size) chunks
  /\ pending s1 = chunks
  /\ (forall trace s2,
        Forall thread_event trace ->
        run trace s1 = Continues s2 ->
        enqueued s2 ++ pending s2 = enqueued s ++ chunks
        /\ delivered s2 ++ queue_ (deserializer s2) ++ pending s2
           = delivered s ++ queue_ (deserializer s) ++ chunks
        /\ delivered s2 ++ queue_ (deserializer s2) ++ pending s2
           = flat_map (Push_pieces (deserializer s)) (calls s ++ [bytes]))
  /\ (chunk_size = 4 -> bytes = bytes_0_to_9 -> chunks = chunks_0_to_9)
  /\ (chunk_size = 4 -> number_of_chunks = 2 ->
      s = start 4 2 -> bytes = bytes_0_to_9 ->
      exists s2,
        run [PutNext; PutNext; PullNext; PutNext; PullNext; PullNext] s1
        = Continues s2
        /\ delivered s2 = chunks_0_to_9).
Proof.
  intros Hcs Hnc Hs Hexec chunks.
  pose proof (reachable_invariant _ _ Hcs Hnc s Hs) as Hinv.
  assert (Hs1 : reachable chunk_size number_of_chunks s1)
    by (eapply reachable_step; eassumption).
  assert (Hshape : pending s1 = chunks /\ enqueued s1 = enqueued s
                   /\ calls s1 = calls s ++ [bytes]).
  { simpl in Hexec. destruct (pending s); [|discriminate].
    destruct (end_of_input s); [discriminate|].
    injection Hexec as <-. repeat split. }
  destruct Hshape as (Hpend1 & Henq1 & Hcalls1).
  split; [apply concat_pieces|].
  split; [apply (Push_pieces_bounded chunk_size Hcs); apply Hinv|].
  split; [exact Hpend1|].
  split; [|split].
  - intros trace s2 Hall Hrun.
    destruct (thread_events_run trace s1 s2 Hall Hrun) as (_ & Hcalls & Hkeep).
    rewrite Hpend1, Henq1 in Hkeep. split; [exact Hkeep|].
    pose proof (reachable_invariant _ _ Hcs Hnc s2
                  (reachable_run _ _ trace s1 s2 Hs1 Hrun)) as Hinv2.
    pose proof (inv_pieces _ _ _ Hinv2) as Hall2.
    rewrite (inv_fifo _ _ _ Hinv2) in Hkeep, Hall2.
    rewrite (inv_fifo _ _ _ Hinv) in Hkeep.
    rewrite <- !app_assoc in Hkeep. rewrite <- !app_assoc in Hall2.
    split; [exact Hkeep|].
    rewrite Hall2, Hcalls, Hcalls1.
    apply flat_map_ext. intros b. unfold Push_pieces.
    now rewrite (inv_chunk_size _ _ _ Hinv).
  - intros -> ->. subst chunks. unfold Push_pieces.
    rewrite (inv_chunk_size _ _ _ Hinv). reflexivity.
  - intros -> -> -> ->. simpl in Hexec. injection Hexec as <-.
    eexists. split; reflexivity.
Qed.

Lemma Push_splits_in_order_witness :
  exists s1 s2,
    exec (CallPush bytes_0_to_9) (start 4 2) = Continues s1
    /\ pending s1 = chunks_0_to_9
    /\ run [PutNext; PutNext; PullNext; PutNext; PullNext; PullNext] s1
       = Continues s2
    /\ delivered s2 = chunks_0_to_9.
Proof.
  eexists.
  destruct (Push_splits_in_order 4 2 bytes_0_to_9 (start 4 2) _
              ltac:(lia) ltac:(lia) (reachable_start 4 2) eq_refl)
    as (_ & _ & Hpend & _ & _ & Hrun).
  destruct (Hrun eq_refl eq_refl eq_refl eq_refl) as (s2 & Hs2 & Hdel).
  exists s2. split; [reflexivity|]. split; [exact Hpend|].
  split; [exact Hs2 | exact Hdel].
Defined.

(** C3. In every state of a started pipeline the queue holds between 0 and
    [number_of_chunks] chunks and each of them has at most [chunk_size]
    bytes, so that the queue never holds more than
    [number_of_chunks * chunk_size] bytes, whatever the size of the
    message. *)
Theorem queue_bounded
    (chunk_size number_of_chunks : Z) (s : pipeline) :
  0 < chunk_size ->
  0 < number_of_chunks ->
  reachable chunk_size number_of_chunks s ->
  let queue := queue_ (deserializer s) in
  0 <= Z.of_nat (List.length queue) <= number_of_chunks
  /\ Forall (fun chunk => size chunk <= chunk_size) queue
  /\ total_size queue <= number_of_chunks * chunk_size.
Proof.
  intros Hcs Hnc Hs queue.
  destruct (reachable_invariant _ _ Hcs Hnc s Hs)
    as [_ _ _ _ Hcap Hsizes _].
  apply Forall_app in Hsizes. destruct Hsizes as [Hq _].
  fold queue in Hcap, Hq.
  split; [lia | split; [exact Hq|]].
  pose proof (total_size_bounded chunk_size queue Hq). nia.
Qed.

Lemma queue_bounded_witness :
  exists s,
    run [CallPush bytes_0_to_9; PutNext; PutNext] (start 4 2) = Continues s
    /\ Z.of_nat (List.length (queue_ (deserializer s))) <= 2
    /\ total_size (queue_ (deserializer s)) <= 2 * 4.
Proof.
  eexists. split; [reflexivity|].
  refine (let H := queue_bounded 4 2 _ ltac:(lia) ltac:(lia)
                     (reachable_run 4 2
                        [CallPush bytes_0_to_9; PutNext; PutNext]
                        (start 4 2) _ (reachable_start 4 2) eq_refl) in _).
  destruct H as ((_ & Hlen) & _ & Htotal).
  split; [exact Hlen | exact Htotal].
Defined.

(** C4. The queue is first in, first out: in every state of a started
    pipeline the chunks put so far, in the order they were put, are the
    chunks [Pull] has returned so far, in the order it returned them,
    followed by the chunks still in the queue. Each [Pull] returns the
    oldest chunk not yet returned, and once the decoding side has taken
    out what the queue holds it has seen exactly the chunks that were
    put, in that order. *)
Theorem Pull_first_in_first_out
    (chunk_size number_of_chunks : Z) (s : pipeline) :
  0 < chunk_size ->
  0 < number_of_chunks ->
  reachable chunk_size number_of_chunks s ->
  enqueued s = delivered s ++ queue_ (deserializer s)
  /\ (forall s',
        exec PullNext s = Continues s' ->
        exists chunk,
          delivered s' = delivered s ++ [chunk]
          /\ nth_error (enqueued s) (List.length (delivered s)) = Some chunk
          /\ enqueued s' = enqueued s)
  /\ exists s',
       run (repeat PullNext (List.length (queue_ (deserializer s)))) s
       = Continues s'
       /\ delivered s' = enqueued s
       /\ enqueued s' = enqueued s.
Proof.
  intros Hcs Hnc Hs.
  pose proof (reachable_invariant _ _ Hcs Hnc s Hs) as Hinv.
  pose proof (inv_fifo _ _ _ Hinv) as Hfifo.
  split; [exact Hfifo | split].
  - intros s' Hexec. simpl in Hexec.
    destruct (decoding s); [|discriminate]. unfold Get in Hexec.
    destruct (queue_ (deserializer s)) as [|c rest]; [discriminate|].
    injection Hexec as <-. exists c. simpl. repeat split.
    rewrite Hfifo, nth_error_app2 by lia.
    now rewrite Nat.sub_diag.
  - destruct (drain chunk_size number_of_chunks
                (List.length (queue_ (deserializer s))) s Hinv eq_refl)
      as (s' & Hrun & Hdel & Henq & _).
    exists s'. repeat split; assumption.
Qed.

Lemma Pull_first_in_first_out_witness :
  exists s s',
    run [CallPush bytes_0_to_9; PutNext; PutNext] (start 4 2) = Continues s
    /\ run [PullNext; PullNext] s = Continues s'
    /\ delivered s' = [[x00; x01; x02; x03]; [x04; x05; x06; x07]].
Proof.
  eexists.
  refine (let H := Pull_first_in_first_out 4 2 _ ltac:(lia) ltac:(lia)
                     (reachable_run 4 2
                        [CallPush bytes_0_to_9; PutNext; PutNext]
                        (start 4 2) _ (reachable_start 4 2) eq_refl) in _).
  destruct H as (_ & _ & s' & Hrun & Hdel & _).
  exists s'. split; [reflexivity|]. split; [exact Hrun | exact Hdel].
Defined.

(** C5. The chunk of size 0 ends the stream. Pushing a zero-length
    [bytes] hands the queue one chunk of size 0. From then on, as long
    as the decoding loop runs, one of the two threads can take a step
    and every step leaves less work, so that within [work_left] steps
    [Pull] returns the chunk of size 0; the decoding loop is over exactly
    when [Pull] has returned a chunk of size 0, and then it was the last
    chunk returned and the only one of size 0. After the end of input a
    call of [Push] never goes through: it is a contract violation. *)
Theorem sentinel_ends_stream
    (chunk_size number_of_chunks : Z) (s : pipeline) :
  0 < chunk_size ->
  0 < number_of_chunks ->
  reachable chunk_size number_of_chunks s ->
  (forall s1,
     exec (CallPush []) s = Continues s1 ->
     pending s1 = [[]] /\ end_of_input s1 = true)
  /\ (end_of_input s = true ->
      (exists trace s',
         Forall thread_event trace
         /\ (List.length trace <= work_left s)%nat
         /\ run trace s = Continues s'
         /\ decoding s' = false
         /\ exists l, delivered s' = l ++ [[]] /\ Forall nonempty l)
      /\ (decoding s = true ->
          exists e s', thread_event e /\ exec e s = Continues s')
      /\ (forall e s',
            exec e s = Continues s' ->
            thread_event e
            /\ (work_left s' < work_left s)%nat
            /\ end_of_input s' = true)
      /\ (forall bytes s', exec (CallPush bytes) s <> Continues s')
      /\ (forall bytes,
            pending s = [] ->
            exists msg, exec (CallPush bytes) s = Aborts msg))
  /\ (decoding s = false <-> exists l, delivered s = l ++ [[]]).
Proof.
  intros Hcs Hnc Hs.
  pose proof (reachable_invariant _ _ Hcs Hnc s Hs) as Hinv.
  assert (Hover : forall s', invariant chunk_size number_of_chunks s' ->
                    decoding s' = false ->
                    exists l, delivered s' = l ++ [[]] /\ Forall nonempty l).
  { intros s' Hinv' Hdec. destruct Hinv' as [_ _ _ _ _ _ Hsent].
    unfold sentinel_in_place in Hsent. rewrite Hdec in Hsent.
    now destruct Hsent as (_ & _ & Hl). }
  assert (Hno : end_of_input s = true ->
                forall bytes s', exec (CallPush bytes) s <> Continues s').
  { intros Hend bytes s' H. simpl in H. rewrite Hend in H.
    destruct (pending s); discriminate. }
  split; [|split].
  - intros s1 Hexec. simpl in Hexec.
    destruct (pending s); [|discriminate].
    destruct (end_of_input s); [discriminate|].
    injection Hexec as <-. simpl. split; reflexivity.
  - intros Hend. split; [|split; [|split; [|split]]].
    + destruct (sentinel_reached chunk_size number_of_chunks Hnc
                  (work_left s) s (Nat.le_refl _) Hinv Hend)
        as (trace & s' & Hall & Hlen & Hrun & Hdone).
      exists trace, s'. repeat split; try assumption.
      apply Hover; [|exact Hdone].
      apply (reachable_invariant _ _ Hcs Hnc).
      eapply reachable_run; eassumption.
    + intros Hdec.
      exact (progress_to_sentinel _ _ Hnc s Hinv Hend Hdec).
    + intros e s' Hexec.
      assert (He : thread_event e).
      { destruct e as [bytes| |]; try exact I.
        exfalso. exact (Hno Hend bytes s' Hexec). }
      destruct (thread_event_step e s s' He Hexec) as (H1 & _ & _ & H2).
      split; [exact He | split; [lia | congruence]].
    + exact (Hno Hend).
    + intros bytes Hpend. simpl. rewrite Hpend, Hend. eexists. reflexivity.
  - split.
    + intros Hdec. destruct (Hover s Hinv Hdec) as (l & Hl & _).
      now exists l.
    + intros (l & Hl). destruct Hinv as [_ _ _ _ _ _ Hsent].
      unfold sentinel_in_place in Hsent.
      destruct (decoding s); [|reflexivity].
      destruct Hsent as (Hdel & _). rewrite Hl in Hdel.
      apply Forall_app in Hdel. destruct Hdel as (_ & Hlast).
      inversion Hlast as [|? ? Hne _]. now elim Hne.
Qed.

Lemma sentinel_ends_stream_witness :
  exists s,
    run [CallPush [x2a]; PutNext; CallPush []] (start 4 2) = Continues s
    /\ end_of_input s = true
    /\ (exists trace s',
          run trace s = Continues s' /\ decoding s' = false
          /\ exists l, delivered s' = l ++ [[]])
    /\ (forall bytes s', exec (CallPush bytes) s <> Continues s').
Proof.
  eexists. split; [reflexivity|]. split; [reflexivity|].
  refine (let H := sentinel_ends_stream 4 2 _ ltac:(lia) ltac:(lia)
                     (reachable_run 4 2
                        [CallPush [x2a]; PutNext; CallPush []]
                        (start 4 2) _ (reachable_start 4 2) eq_refl) in _).
  destruct H as (_ & Hend & _).
  destruct (Hend eq_refl)
    as ((trace & s' & _ & _ & Hrun & Hdone & l & Hl & _) & _ & _ & Hno & _).
  split; [|exact Hno].
  exists trace, s'. split; [exact Hrun|]. split; [exact Hdone|].
  exists l. exact Hl.
Defined.

(** ** The calendar of astronomy/date_time_body.hpp *)

Import date_time.
Import calendar.

Section DaysAndYears.

Lemma div_mod_eq (x d q r : Z) :
  0 <= r < d -> x = d * q + r -> x / d = q /\ x mod d = r.
Proof.
  intros Hr Hx. split.
  - symmetry. apply (Z.div_unique x d q r); [lia | exact Hx].
  - symmetry. apply (Z.mod_unique x d q r); [lia | exact Hx].
Qed.

Ltac div_mod_by q r :=
  match goal with
  | |- context [?x / ?d] =>
      let E := fresh "E" in
      destruct (div_mod_eq x d q r) as [E ?]; [lia | lia |];
      rewrite ?E
  end.

Lemma year_decomposition (year : Z) :
  0 < year ->
  exists a b c e,
    year - 1 = 400 * a + 100 * b + 4 * c + e
    /\ 0 <= a /\ 0 <= b < 4 /\ 0 <= c < 25 /\ 0 <= e < 4.
Proof.
  intros Hy. set (z := year - 1).
  pose proof (Z.div_mod z 400 ltac:(lia)) as Ha.
  pose proof (Z.mod_pos_bound z 400 ltac:(lia)) as Hra.
  pose proof (Z.div_mod (z mod 400) 100 ltac:(lia)) as Hb.
  pose proof (Z.mod_pos_bound (z mod 400) 100 ltac:(lia)) as Hrb.
  pose proof (Z.div_mod (z mod 400 mod 100) 4 ltac:(lia)) as Hc.
  pose proof (Z.mod_pos_bound (z mod 400 mod 100) 4 ltac:(lia)) as Hrc.
  exists (z / 400), (z mod 400 / 100), (z mod 400 mod 100 / 4),
         (z mod 400 mod 100 mod 4).
  assert (0 <= z / 400) by (apply Z.div_pos; lia).
  assert (0 <= z mod 400 / 100 < 4)
    by (split; [apply Z.div_pos; lia | apply Z.div_lt_upper_bound; lia]).
  assert (0 <= z mod 400 mod 100 / 4 < 25)
    by (split; [apply Z.div_pos; lia | apply Z.div_lt_upper_bound; lia]).
  repeat split; try lia.
Qed.

(** The value of [gregorian_days_from_0000_01_01_at_start_of_year]. *)
Lemma start_of_year_decomposed (year a b c e : Z) :
  year - 1 = 400 * a + 100 * b + 4 * c + e ->
  0 <= a -> 0 <= b < 4 -> 0 <= c < 25 -> 0 <= e < 4 ->
  gregorian_days_from_0000_01_01_at_start_of_year year
  = Some (1 + (146097 * a + 36524 * b + 1461 * c + 365 * (e + 1))).
Proof.
  intros Hz Ha Hb Hc He.
  unfold gregorian_days_from_0000_01_01_at_start_of_year.
  destruct (Z.gtb_spec year 0); [|lia]. unfold CHECKING.
  rewrite !Z.quot_div_nonneg by lia.
  destruct (div_mod_eq (year - 1) 4 (100 * a + 25 * b + c) e) as [E4 _];
    [lia | lia |].
  destruct (div_mod_eq (year - 1) 100 (4 * a + b) (4 * c + e)) as [E100 _];
    [lia | lia |].
  destruct (div_mod_eq (year - 1) 400 a (100 * b + 4 * c + e)) as [E400 _];
    [lia | lia |].
  rewrite E4, E100, E400. f_equal. lia.
Qed.

Lemma leap_year_decomposed (year a b c e : Z) :
  year - 1 = 400 * a + 100 * b + 4 * c + e ->
  0 <= a -> 0 <= b < 4 -> 0 <= c < 25 -> 0 <= e < 4 ->
  is_gregorian_leap_year year
  = (e =? 3) && (negb (c =? 24) || (b =? 3)).
Proof.
  intros Hz Ha Hb Hc He. unfold is_gregorian_leap_year.
  rewrite !Z.rem_mod_nonneg by lia.
  destruct (Z.eqb_spec e 3) as [He3|He3].
  - destruct (div_mod_eq year 4 (100 * a + 25 * b + c + 1) 0) as [_ E4];
      [lia | lia |]. rewrite E4.
    destruct (Z.eqb_spec c 24) as [Hc24|Hc24].
    + destruct (div_mod_eq year 100 (4 * a + b + 1) 0) as [_ E100];
        [lia | lia |]. rewrite E100.
      destruct (Z.eqb_spec b 3) as [Hb3|Hb3].
      * destruct (div_mod_eq year 400 (a + 1) 0) as [_ E400]; [lia | lia |].
        now rewrite E400.
      * destruct (div_mod_eq year 400 a (100 * (b + 1))) as [_ E400];
          [lia | lia |]. rewrite E400.
        destruct (Z.eqb_spec (100 * (b + 1)) 0); [lia | reflexivity].
    + destruct (div_mod_eq year 100 (4 * a + b) (4 * (c + 1))) as [_ E100];
        [lia | lia |]. rewrite E100.
      destruct (Z.eqb_spec (4 * (c + 1)) 0); [lia | reflexivity].
  - destruct (div_mod_eq year 4 (100 * a + 25 * b + c) (e + 1)) as [_ E4];
      [lia | lia |]. rewrite E4.
    destruct (Z.eqb_spec (e + 1) 0); [lia | reflexivity].
Qed.

(** The year and the ordinal of a number of days, with the divisions and
    the remainders as numbers. *)
Lemma to_year_decomposed (d q400 r400 q100 r100 q4 r4 q1 r1 : Z) :
  d - 1 = 146097 * q400 + r400 -> 0 <= r400 < 146097 ->
  r400 = 36524 * q100 + r100 -> 0 <= r100 < 36524 ->
  r100 = 1461 * q4 + r4 -> 0 <= r4 < 1461 ->
  r4 = 365 * q1 + r1 -> 0 <= r1 < 365 ->
  0 <= q400 ->
  gregorian_days_from_0000_01_01_to_year d
  = Some (q400 * 400 + q100 * 100 + q4 * 4 + q1)
  /\ gregorian_days_from_0000_01_01_to_ordinal d = Some (r1 + 1).
Proof.
  intros H400 Hr400 H100 Hr100 H4 Hr4 H1 Hr1 Hq.
  unfold gregorian_days_from_0000_01_01_to_year,
    gregorian_days_from_0000_01_01_to_ordinal.
  change days_in_1_year with 365. change days_in_4_years with 1461.
  change days_in_100_years with 36524. change days_in_400_years with 146097.
  destruct (Z.gtb_spec d 0); [|lia]. unfold CHECKING.
  destruct (div_mod_eq (d - 1) 146097 q400 r400) as [Ea Eb]; [lia | lia |].
  destruct (div_mod_eq r400 36524 q100 r100) as [Ec Ed]; [lia | lia |].
  destruct (div_mod_eq r100 1461 q4 r4) as [Ee Ef]; [lia | lia |].
  destruct (div_mod_eq r4 365 q1 r1) as [Eg Eh]; [lia | lia |].
  rewrite (Z.rem_mod_nonneg (d - 1)) by lia. rewrite Eb.
  rewrite (Z.rem_mod_nonneg r400) by lia. rewrite Ed.
  rewrite (Z.rem_mod_nonneg r100) by lia. rewrite Ef.
  rewrite (Z.rem_mod_nonneg r4) by lia. rewrite Eh.
  rewrite !Z.quot_div_nonneg by lia.
  rewrite Ea, Ec, Ee, Eg. split; reflexivity.
Qed.

(** What the two functions give for the days of a year. *)
Lemma days_within_year (year day start : Z) :
  0 < year ->
  1 <= day <= gregorian_year_length year ->
  gregorian_days_from_0000_01_01_at_start_of_year year = Some start ->
  gregorian_days_from_0000_01_01_to_year (start + day - 1) = Some year
  /\ gregorian_days_from_0000_01_01_to_ordinal (start + day - 1)
     = Some (if is_gregorian_leap_year year && (day >? 1)
             then day - 1 else day).
Proof.
  intros Hy Hday Hstart.
  destruct (year_decomposition year Hy) as (a & b & c & e & Hz & Ha & Hb & Hc & He).
  rewrite (start_of_year_decomposed year a b c e Hz Ha Hb Hc He) in Hstart.
  assert (Hs : start
               = 1 + (146097 * a + 36524 * b + 1461 * c + 365 * (e + 1)))
    by congruence.
  clear Hstart. subst start.
  unfold gregorian_year_length in Hday.
  rewrite (leap_year_decomposed year a b c e Hz Ha Hb Hc He) in *.
  set (x := 1 + (146097 * a + 36524 * b + 1461 * c + 365 * (e + 1)) + day - 1).
  destruct (Z.eqb_spec e 3) as [He3|He3]; cbn [andb] in *.
  - destruct (Z.eqb_spec c 24) as [Hc24|Hc24]; cbn [negb orb] in *.
    + destruct (Z.eqb_spec b 3) as [Hb3|Hb3].
      * (* a year that 400 divides *)
        destruct (Z.gtb_spec day 1) as [Hd|Hd].
        -- destruct (to_year_decomposed x (a + 1) (day - 2) 0 (day - 2)
                       0 (day - 2) 0 (day - 2)) as [E1 E2];
             try (subst x; lia).
           rewrite E1, E2. cbn [andb negb orb]. split; f_equal; lia.
        -- destruct (to_year_decomposed x a 146096 4 0 0 0 0 0) as [E1 E2];
             try (subst x; lia).
           rewrite E1, E2. cbn [andb negb orb]. split; f_equal; lia.
      * (* a year that 100 divides and 400 does not *)
        destruct (to_year_decomposed x a (36524 * (b + 1) + (day - 1))
                    (b + 1) (day - 1) 0 (day - 1) 0 (day - 1)) as [E1 E2];
          try (subst x; lia).
        rewrite E1, E2. cbn [andb negb orb]. split; f_equal; lia.
    + (* a year that 4 divides and 100 does not *)
      destruct (Z.gtb_spec day 1) as [Hd|Hd].
      * destruct (to_year_decomposed x a
                    (36524 * b + 1461 * (c + 1) + (day - 2)) b
                    (1461 * (c + 1) + (day - 2)) (c + 1) (day - 2)
                    0 (day - 2)) as [E1 E2]; try (subst x; lia).
        rewrite E1, E2. cbn [andb negb orb]. split; f_equal; lia.
      * destruct (to_year_decomposed x a (36524 * b + 1461 * c + 1460) b
                    (1461 * c + 1460) c 1460 4 0) as [E1 E2];
          try (subst x; lia).
        rewrite E1, E2. cbn [andb negb orb]. split; f_equal; lia.
  - (* a year that 4 does not divide *)
    destruct (to_year_decomposed x a
                (36524 * b + 1461 * c + 365 * (e + 1) + (day - 1)) b
                (1461 * c + 365 * (e + 1) + (day - 1)) c
                (365 * (e + 1) + (day - 1)) (e + 1) (day - 1)) as [E1 E2];
      try (subst x; lia).
    rewrite E1, E2. cbn [andb negb orb]. split; f_equal; lia.
Qed.

End DaysAndYears.

(** Case analyses on the month and on the kind of year. *)
Ltac by_leap_cases year :=
  cbv - [is_gregorian_leap_year Z.add Z.sub Z.mul Z.le Z.lt];
  generalize (is_gregorian_leap_year year); intros [|];
  cbv; repeat split; congruence.

Ltac month_cases month :=
  let H := fresh "Hm" in
  assert (H : month = 1 \/ month = 2 \/ month = 3 \/ month = 4 \/ month = 5
              \/ month = 6 \/ month = 7 \/ month = 8 \/ month = 9
              \/ month = 10 \/ month = 11 \/ month = 12) by lia;
  repeat (destruct H as [H|H]; [subst month|]); [..|subst month].

Section MonthsAndDays.

(** The lengths of the months and the days before each month. *)
Lemma month_length_values (year : Z) :
  let leap := if is_gregorian_leap_year year then 1 else 0 in
  month_length year 1 = 31 /\ month_length year 2 = 28 + leap
  /\ month_length year 3 = 31 /\ month_length year 4 = 30
  /\ month_length year 5 = 31 /\ month_length year 6 = 30
  /\ month_length year 7 = 31 /\ month_length year 8 = 31
  /\ month_length year 9 = 30 /\ month_length year 10 = 31
  /\ month_length year 11 = 30 /\ month_length year 12 = 31.
Proof. by_leap_cases year. Qed.

Lemma days_before_month_values (year : Z) :
  let leap := if is_gregorian_leap_year year then 1 else 0 in
  days_before_month year 1 = 0 /\ days_before_month year 2 = 31
  /\ days_before_month year 3 = 59 + leap
  /\ days_before_month year 4 = 90 + leap
  /\ days_before_month year 5 = 120 + leap
  /\ days_before_month year 6 = 151 + leap
  /\ days_before_month year 7 = 181 + leap
  /\ days_before_month year 8 = 212 + leap
  /\ days_before_month year 9 = 243 + leap
  /\ days_before_month year 10 = 273 + leap
  /\ days_before_month year 11 = 304 + leap
  /\ days_before_month year 12 = 334 + leap
  /\ days_before_month year 13 = 365 + leap.
Proof. by_leap_cases year. Qed.

Lemma Date_ordinal_first_of_month (year month : Z) (fuel : nat) :
  1 <= month <= 12 ->
  fuel = Z.to_nat month \/ fuel = S (Z.to_nat month) ->
  Date_ordinal_rec fuel (Date_ year month 1)
  = days_before_month year month + 1.
Proof.
  intros Hm Hfuel. month_cases month; destruct Hfuel; subst fuel;
    by_leap_cases year.
Qed.

(** [Date::ordinal] as a sum: the days before the month and the day. *)
Lemma Date_ordinal_value (year month day : Z) :
  1 <= month <= 12 -> 1 <= day ->
  Date_ordinal (Date_ year month day) = days_before_month year month + day.
Proof.
  intros Hm Hd. unfold Date_ordinal. cbn [month_].
  destruct (Z.eq_dec day 1) as [->|Hne].
  - apply Date_ordinal_first_of_month; [exact Hm | now right].
  - cbn [Date_ordinal_rec day_ month_ year_].
    destruct (Z.gtb_spec day 1); [|lia].
    rewrite Date_ordinal_first_of_month; [lia | exact Hm | now left].
Qed.

Lemma valid_date_iff (date : Date) :
  valid_date date
  <-> 1583 <= year_ date <= 9999 /\ 1 <= month_ date <= 12
      /\ 1 <= day_ date <= month_length (year_ date) (month_ date).
Proof.
  unfold valid_date, Date_Calendar, CHECKING. destruct date as [y m d].
  cbn [year_ month_ day_].
  destruct (Z.geb_spec y 1583); destruct (Z.leb_spec y 9999);
    destruct (Z.geb_spec m 1); destruct (Z.leb_spec m 12);
    destruct (Z.geb_spec d 1); destruct (Z.leb_spec d (month_length y m));
    cbn [andb]; split; intros Hv; try discriminate; try reflexivity; lia.
Qed.

Lemma Date_Calendar_valid (year month day : Z) (date : Date) :
  Date_Calendar year month day = Some date ->
  date = Date_ year month day /\ valid_date date.
Proof.
  intros H. unfold valid_date.
  assert (E : date = Date_ year month day).
  { unfold Date_Calendar, CHECKING in H.
    destruct (_ && _) in H; [congruence | discriminate]. }
  subst date. split; [reflexivity | exact H].
Qed.

End MonthsAndDays.

Section OrdinalDates.

Lemma month_length_bounds (year month : Z) :
  1 <= month <= 12 -> 28 <= month_length year month <= 31.
Proof.
  intros Hm. pose proof (month_length_values year) as H. cbv zeta in H.
  destruct (is_gregorian_leap_year year); month_cases month; lia.
Qed.

Lemma days_before_month_succ (year month : Z) :
  1 <= month <= 12 ->
  days_before_month year (month + 1)
  = days_before_month year month + month_length year month.
Proof.
  intros Hm. pose proof (month_length_values year) as H.
  pose proof (days_before_month_values year) as H'. cbv zeta in H, H'.
  month_cases month; cbn [Z.add Pos.add Pos.succ]; lia.
Qed.

Lemma days_before_month_13 (year : Z) :
  days_before_month year 13 = gregorian_year_length year.
Proof.
  pose proof (days_before_month_values year) as H. cbv zeta in H.
  unfold gregorian_year_length.
  destruct (is_gregorian_leap_year year); lia.
Qed.

Lemma days_before_month_mono (year : Z) (k : nat) :
  forall month,
    1 <= month -> month + Z.of_nat k <= 12 ->
    days_before_month year month + month_length year month
    <= days_before_month year (month + Z.of_nat k + 1).
Proof.
  induction k as [|k IH]; intros month H1 H12.
  - rewrite Z.add_0_r, days_before_month_succ by lia. lia.
  - specialize (IH month H1 ltac:(lia)).
    replace (month + Z.of_nat (S k) + 1)
      with (month + Z.of_nat k + 1 + 1) by lia.
    rewrite (days_before_month_succ year (month + Z.of_nat k + 1)) by lia.
    pose proof (month_length_bounds year (month + Z.of_nat k + 1)
                  ltac:(lia)).
    lia.
Qed.

Lemma days_before_month_later (year month month' : Z) :
  1 <= month -> month < month' -> month' <= 13 ->
  days_before_month year month + month_length year month
  <= days_before_month year month'.
Proof.
  intros H1 Hlt H13.
  pose proof (days_before_month_mono year (Z.to_nat (month' - month - 1))
                month H1 ltac:(lia)) as H.
  now replace (month + Z.of_nat (Z.to_nat (month' - month - 1)) + 1)
    with month' in H by lia.
Qed.

(** The ordinal tells the month and the day. *)
Lemma ordinal_injective (year m d m' d' : Z) :
  1 <= m <= 12 -> 1 <= d <= month_length year m ->
  1 <= m' <= 12 -> 1 <= d' <= month_length year m' ->
  days_before_month year m + d = days_before_month year m' + d' ->
  m = m' /\ d = d'.
Proof.
  intros Hm Hd Hm' Hd' E.
  destruct (Z.lt_trichotomy m m') as [Hlt|[->|Hgt]].
  - pose proof (days_before_month_later year m m' ltac:(lia) Hlt ltac:(lia)).
    lia.
  - split; lia.
  - pose proof (days_before_month_later year m' m ltac:(lia) Hgt ltac:(lia)).
    lia.
Qed.

Lemma start_of_next_year (year start : Z) :
  0 < year ->
  gregorian_days_from_0000_01_01_at_start_of_year year = Some start ->
  gregorian_days_from_0000_01_01_at_start_of_year (year + 1)
  = Some (start + gregorian_year_length year).
Proof.
  intros Hy Hstart.
  destruct (year_decomposition year Hy)
    as (a & b & c & e & Hz & Ha & Hb & Hc & He).
  rewrite (start_of_year_decomposed year a b c e Hz Ha Hb Hc He) in Hstart.
  assert (Hs : start
               = 1 + (146097 * a + 36524 * b + 1461 * c + 365 * (e + 1)))
    by congruence.
  clear Hstart. subst start. unfold gregorian_year_length.
  rewrite (leap_year_decomposed year a b c e Hz Ha Hb Hc He).
  destruct (Z.eqb_spec e 3) as [He3|He3]; cbn [andb].
  - destruct (Z.eqb_spec c 24) as [Hc24|Hc24]; cbn [negb orb].
    + destruct (Z.eqb_spec b 3) as [Hb3|Hb3].
      * rewrite (start_of_year_decomposed (year + 1) (a + 1) 0 0 0) by lia.
        f_equal. lia.
      * rewrite (start_of_year_decomposed (year + 1) a (b + 1) 0 0) by lia.
        f_equal. lia.
    + rewrite (start_of_year_decomposed (year + 1) a b (c + 1) 0) by lia.
      f_equal. lia.
  - rewrite (start_of_year_decomposed (year + 1) a b c (e + 1)) by lia.
    f_equal. lia.
Qed.

(** [add_days_within_year] on a date that [Date::Calendar] makes. *)
Lemma add_days_within_year_rec_value (year : Z) (fuel : nat) :
  1583 <= year <= 9999 ->
  forall month day days,
    1 <= month <= 12 -> 1 <= day <= month_length year month ->
    0 <= days -> 12 - month <= Z.of_nat fuel ->
    if days_before_month year month + day + days
       <=? gregorian_year_length year
    then exists month' day',
        add_days_within_year_rec fuel (Date_ year month day) days
        = Some (Date_ year month' day')
        /\ 1 <= month' <= 12 /\ 1 <= day' <= month_length year month'
        /\ days_before_month year month' + day'
           = days_before_month year month + day + days
    else add_days_within_year_rec fuel (Date_ year month day) days = None.
Proof.
  intros Hy. induction fuel as [|fuel IH]; intros month day days Hm Hd Hdays Hfuel.
  all: pose proof (days_before_month_later year month 13 ltac:(lia)
                     ltac:(lia) ltac:(lia)) as Hlast;
    rewrite days_before_month_13 in Hlast;
    pose proof (days_before_month_succ year month Hm) as Hsucc;
    assert (H12 : month = 12 ->
                  days_before_month year month + month_length year month
                  = gregorian_year_length year)
      by (intros ->; rewrite <- days_before_month_13;
          now rewrite <- days_before_month_succ by lia).
  all: cbn [add_days_within_year_rec year_ month_ day_]; unfold CHECKING.
  all: destruct (Z.geb_spec days 0); [|lia].
  all: destruct (Z.eqb_spec days 0) as [->|Hne].
  1, 3: destruct (Z.leb_spec (days_before_month year month + day + 0)
                    (gregorian_year_length year)); [|lia];
    exists month, day; repeat split; lia.
  all: destruct (Z.gtb_spec (day + days) (month_length year month)) as [Hover|Hfit].
  2, 4: assert (Hc : Date_Calendar year month (day + days)
                     = Some (Date_ year month (day + days)))
      by (apply (valid_date_iff (Date_ year month (day + days)));
          cbn [year_ month_ day_]; lia);
    rewrite Hc;
    destruct (Z.leb_spec (days_before_month year month + day + days)
                (gregorian_year_length year)); [|lia];
    exists month, (day + days); repeat split; lia.
  - (* no fuel: the month is the twelfth *)
    destruct (Z.leb_spec month 11); [lia|].
    destruct (Z.leb_spec (days_before_month year month + day + days)
                (gregorian_year_length year)); [|reflexivity].
    specialize (H12 ltac:(lia)). lia.
  - destruct (Z.leb_spec month 11) as [H11|H11].
    + assert (Hc : Date_Calendar year (month + 1) 1
                   = Some (Date_ year (month + 1) 1)).
      { apply (valid_date_iff (Date_ year (month + 1) 1)).
        cbn [year_ month_ day_].
        pose proof (month_length_bounds year (month + 1) ltac:(lia)). lia. }
      rewrite Hc. cbn [bind].
      pose proof (month_length_bounds year (month + 1) ltac:(lia)) as Hb.
      specialize (IH (month + 1) 1
                    (days - month_length year month + day - 1)
                    ltac:(lia) ltac:(lia) ltac:(lia) ltac:(lia)).
      replace (days_before_month year (month + 1) + 1
               + (days - month_length year month + day - 1))
        with (days_before_month year month + day + days) in IH by lia.
      destruct (Z.leb_spec (days_before_month year month + day + days)
                  (gregorian_year_length year)).
      * destruct IH as (m' & d' & E & Hm' & Hd' & Hsum).
        exists m', d'. repeat split; try assumption; lia.
      * exact IH.
    + destruct (Z.leb_spec (days_before_month year month + day + days)
                  (gregorian_year_length year)); [|reflexivity].
      specialize (H12 ltac:(lia)). lia.
Qed.

End OrdinalDates.

Section ModifiedJulianDays.

Lemma start_of_year_some (year : Z) :
  0 < year ->
  exists start,
    gregorian_days_from_0000_01_01_at_start_of_year year = Some start.
Proof.
  intros Hy. unfold gregorian_days_from_0000_01_01_at_start_of_year.
  destruct (Z.gtb_spec year 0); [|lia]. eexists. reflexivity.
Qed.

(** The starts of later years are later by the lengths of the years
    between. *)
Lemma start_of_later_year (year start : Z) (k : nat) :
  0 < year ->
  gregorian_days_from_0000_01_01_at_start_of_year year = Some start ->
  exists start',
    gregorian_days_from_0000_01_01_at_start_of_year
      (year + Z.of_nat (S k)) = Some start'
    /\ start + gregorian_year_length year <= start'.
Proof.
  intros Hy Hstart. induction k as [|k IH].
  - exists (start + gregorian_year_length year). split; [|lia].
    now apply start_of_next_year.
  - destruct IH as (s' & Hs' & Hle).
    exists (s' + gregorian_year_length (year + Z.of_nat (S k))).
    split.
    + replace (year + Z.of_nat (S (S k)))
        with (year + Z.of_nat (S k) + 1) by lia.
      apply start_of_next_year; [lia | exact Hs'].
    + unfold gregorian_year_length at 2.
      destruct (is_gregorian_leap_year _); lia.
Qed.

Lemma Date_mjd_value (date : Date) (start : Z) :
  gregorian_days_from_0000_01_01_at_start_of_year (year_ date) = Some start ->
  Date_mjd date = Some (start + Date_ordinal date - 678942).
Proof.
  intros Hstart. unfold Date_mjd. rewrite Hstart. cbn [bind].
  replace (gregorian_days_from_0000_01_01_at_start_of_year mjd0_yyyy)
    with (Some 678621) by (vm_compute; reflexivity).
  replace (Date_YYYYMMDD mjd0_yyyymmdd) with (Some (Date_ 1858 11 17))
    by (vm_compute; reflexivity).
  cbn [bind].
  replace (Date_ordinal (Date_ 1858 11 17)) with 321
    by (vm_compute; reflexivity).
  f_equal; lia.
Qed.

Lemma valid_date_ordinal_bounds (date : Date) :
  valid_date date ->
  1 <= Date_ordinal date <= gregorian_year_length (year_ date).
Proof.
  intros Hv. apply valid_date_iff in Hv. destruct Hv as (Hy & Hm & Hd).
  destruct date as [y m d]. cbn [year_ month_ day_] in *.
  rewrite Date_ordinal_value by lia.
  pose proof (days_before_month_later y m 13 ltac:(lia) ltac:(lia)
                ltac:(lia)) as H.
  rewrite days_before_month_13 in H.
  assert (0 <= days_before_month y m).
  { pose proof (days_before_month_values y) as Hv. cbv zeta in Hv.
    destruct (is_gregorian_leap_year y); month_cases m; lia. }
  lia.
Qed.

End ModifiedJulianDays.

Section IntRange.


End IntRange.





(** X3. [arbitrary_ordinal] on a day of the year itself: in a year that is
    not a leap year it is the date of that ordinal; in a leap year it is
    so for the first day only, and for every later day it is the date of
    the day before, since the ordinal that
    [gregorian_days_from_0000_01_01_to_ordinal] gives is one short. *)
Theorem arbitrary_ordinal_within_year (year day : Z) :
  1583 <= year <= 9999 ->
  1 <= day <= gregorian_year_length year ->
  arbitrary_ordinal year day
  = Date_Ordinal year
      (if is_gregorian_leap_year year && (day >? 1) then day - 1 else day).
Proof.
  intros Hy Hday. unfold arbitrary_ordinal.
  destruct (start_of_year_some year ltac:(lia)) as (start & Hstart).
  rewrite Hstart. cbn [bind].
  destruct (days_within_year year day start ltac:(lia) Hday Hstart)
    as [E1 E2].
  rewrite E1, E2. reflexivity.
Qed.

Lemma arbitrary_ordinal_within_year_witness :
  arbitrary_ordinal 2000 60 = Some (Date_ 2000 2 28)
  /\ arbitrary_ordinal 2001 60 = Some (Date_ 2001 3 1).
Proof.
  split.
  - rewrite (arbitrary_ordinal_within_year 2000 60); [reflexivity | lia |].
    vm_compute. split; discriminate.
  - rewrite (arbitrary_ordinal_within_year 2001 60); [reflexivity | lia |].
    vm_compute. split; discriminate.
Defined.

(** X4. The lengths of the twelve months of a year add up to
    [gregorian_year_length], each month has from 28 to 31 days, and only
    the second month depends on the year. *)
Theorem month_lengths_of_year (year : Z) :
  fold_right Z.add 0
    (map (month_length year) [1; 2; 3; 4; 5; 6; 7; 8; 9; 10; 11; 12])
  = gregorian_year_length year
  /\ (forall month, 1 <= month <= 12 -> 28 <= month_length year month <= 31)
  /\ (forall month year',
        1 <= month <= 12 -> month <> 2 ->
        month_length year month = month_length year' month)
  /\ month_length year 2 = if is_gregorian_leap_year year then 29 else 28.
Proof.
  split; [|split; [|split]].
  - unfold gregorian_year_length. by_leap_cases year.
  - apply month_length_bounds.
  - intros month year' Hm H2. unfold month_length.
    destruct (Z.eqb_spec month 2); [contradiction|].
    now rewrite !andb_false_r.
  - by_leap_cases year.
Qed.

Lemma month_lengths_of_year_witness : 28 <= month_length 2016 2 <= 31.
Proof. apply (proj1 (proj2 (month_lengths_of_year 2016))). lia. Defined.

Section OrdinalRoundTrip.

Lemma Date_Ordinal_value (year n : Z) :
  1583 <= year <= 9999 ->
  1 <= n <= gregorian_year_length year ->
  exists month day,
    Date_Ordinal year n = Some (Date_ year month day)
    /\ 1 <= month <= 12 /\ 1 <= day <= month_length year month
    /\ days_before_month year month + day = n.
Proof.
  intros Hy Hn. unfold Date_Ordinal, CHECKING.
  destruct (Z.geb_spec n 1); [|lia].
  destruct (Z.leb_spec n (gregorian_year_length year)); [|lia].
  cbn [andb].
  assert (Hc : Date_Calendar year 1 1 = Some (Date_ year 1 1)).
  { apply (valid_date_iff (Date_ year 1 1)). cbn [year_ month_ day_].
    pose proof (month_length_bounds year 1 ltac:(lia)). lia. }
  rewrite Hc. cbn [bind]. unfold add_days_within_year.
  pose proof (month_length_bounds year 1 ltac:(lia)) as Hb.
  pose proof (add_days_within_year_rec_value year 12 Hy 1 1 (n - 1)
                ltac:(lia) ltac:(lia) ltac:(lia) ltac:(lia)) as Hadd.
  assert (Hjan : days_before_month year 1 = 0) by reflexivity.
  rewrite Hjan in Hadd.
  destruct (Z.leb_spec (0 + 1 + (n - 1)) (gregorian_year_length year));
    [|lia].
  destruct Hadd as (m' & d' & E & Hm' & Hd' & Hsum).
  exists m', d'. repeat split; try assumption; lia.
Qed.

End OrdinalRoundTrip.

(** X5. [Date::Ordinal] and [Date::ordinal] are inverse to each other: the
    date made from a year from 1583 to 9999 and one of its ordinals is a
    calendar date of that year with that ordinal, and the date made from
    the year and the ordinal of a calendar date is the date.
    [Date::Ordinal] fails for a day that is not an ordinal of the year and
    for a year before 1583 or after 9999. *)
Theorem Date_Ordinal_round_trip :
  (forall year n,
     1583 <= year <= 9999 ->
     1 <= n <= gregorian_year_length year ->
     exists date,
       Date_Ordinal year n = Some date
       /\ valid_date date /\ year_ date = year /\ Date_ordinal date = n)
  /\ (forall date,
        valid_date date ->
        Date_Ordinal (year_ date) (Date_ordinal date) = Some date)
  /\ (forall year n,
        n < 1 \/ gregorian_year_length year < n \/ year < 1583
        \/ 9999 < year ->
        Date_Ordinal year n = None).
Proof.
  split; [|split].
  3: { intros year n H. unfold Date_Ordinal, CHECKING.
       destruct (Z.geb_spec n 1); cbn [andb]; [|reflexivity].
       destruct (Z.leb_spec n (gregorian_year_length year)); [|reflexivity].
       unfold Date_Calendar, CHECKING.
       destruct (Z.geb_spec year 1583); cbn [andb]; [|reflexivity].
       destruct (Z.leb_spec year 9999); cbn [andb]; [|reflexivity].
       lia. }
  - intros year n Hy Hn.
    destruct (Date_Ordinal_value year n Hy Hn)
      as (m & d & E & Hm & Hd & Hsum).
    exists (Date_ year m d). split; [exact E|].
    split; [apply valid_date_iff; cbn [year_ month_ day_]; lia|].
    split; [reflexivity|].
    rewrite Date_ordinal_value by lia. exact Hsum.
  - intros date Hv.
    pose proof (valid_date_ordinal_bounds date Hv) as Hbounds.
    apply valid_date_iff in Hv. destruct Hv as (Hy & Hm & Hd).
    destruct date as [y m d]. cbn [year_ month_ day_] in *.
    destruct (Date_Ordinal_value y (Date_ordinal (Date_ y m d)) Hy Hbounds)
      as (m' & d' & E & Hm' & Hd' & Hsum).
    rewrite E. rewrite Date_ordinal_value in Hsum by lia.
    destruct (ordinal_injective y m' d' m d Hm' Hd' Hm Hd Hsum) as [-> ->].
    reflexivity.
Qed.

Lemma Date_Ordinal_round_trip_witness :
  exists date,
    Date_Ordinal 2016 60 = Some date
    /\ valid_date date /\ year_ date = 2016 /\ Date_ordinal date = 60.
Proof.
  apply (proj1 Date_Ordinal_round_trip 2016 60);
    [lia | vm_compute; split; discriminate].
Defined.

(** X6. [add_days_within_year] advances a calendar date by [days] days:
    when the result is in the same year it is the calendar date of that
    year whose ordinal is [days] more; when the result would be in a later
    year, or [days] is negative, the call fails. *)
Theorem add_days_within_year_ordinal (date : Date) (days : Z) :
  valid_date date ->
  (0 <= days ->
   Date_ordinal date + days <= gregorian_year_length (year_ date) ->
   exists date',
     add_days_within_year date days = Some date'
     /\ valid_date date' /\ year_ date' = year_ date
     /\ Date_ordinal date' = Date_ordinal date + days)
  /\ (0 <= days ->
      gregorian_year_length (year_ date) < Date_ordinal date + days ->
      add_days_within_year date days = None)
  /\ (days < 0 -> add_days_within_year date days = None).
Proof.
  intros Hv. apply valid_date_iff in Hv. destruct Hv as (Hy & Hm & Hd).
  destruct date as [y m d]. cbn [year_ month_ day_] in *.
  rewrite Date_ordinal_value by lia.
  split; [|split].
  - intros Hdays Hfit.
    pose proof (add_days_within_year_rec_value y 12 Hy m d days Hm Hd
                  Hdays ltac:(lia)) as Hadd.
    destruct (Z.leb_spec (days_before_month y m + d + days)
                (gregorian_year_length y)); [|lia].
    destruct Hadd as (m' & d' & E & Hm' & Hd' & Hsum).
    exists (Date_ y m' d'). split; [exact E|].
    split; [apply valid_date_iff; cbn [year_ month_ day_]; lia|].
    split; [reflexivity|].
    rewrite Date_ordinal_value by lia. exact Hsum.
  - intros Hdays Hover.
    pose proof (add_days_within_year_rec_value y 12 Hy m d days Hm Hd
                  Hdays ltac:(lia)) as Hadd.
    destruct (Z.leb_spec (days_before_month y m + d + days)
                (gregorian_year_length y)); [lia | exact Hadd].
  - intros Hneg. unfold add_days_within_year.
    cbn [add_days_within_year_rec]. unfold CHECKING.
    destruct (Z.geb_spec days 0); [lia | reflexivity].
Qed.

Lemma add_days_within_year_ordinal_witness :
  (exists date',
     add_days_within_year (Date_ 2000 2 28) 2 = Some date'
     /\ Date_ordinal date' = Date_ordinal (Date_ 2000 2 28) + 2)
  /\ add_days_within_year (Date_ 2000 12 31) 1 = None.
Proof.
  destruct (add_days_within_year_ordinal (Date_ 2000 2 28) 2 eq_refl)
    as (H & _ & _).
  destruct (add_days_within_year_ordinal (Date_ 2000 12 31) 1 eq_refl)
    as (_ & H' & _).
  split.
  - destruct H as (date' & E & _ & _ & Hord);
      [lia | vm_compute; discriminate |].
    exists date'. split; assumption.
  - apply H'; [lia | vm_compute; reflexivity].
Defined.

(** X7. [next_day] is the day after: for a calendar date, the modified
    Julian day of [next_day()] is one more than that of the date, and
    [next_day()] is a calendar date again unless the date is the last day
    of the year 9999. *)
Theorem Date_next_day_mjd (date : Date) :
  valid_date date ->
  (exists mjd,
     Date_mjd date = Some mjd
     /\ Date_mjd (Date_next_day date) = Some (mjd + 1))
  /\ (date <> Date_ 9999 12 31 -> valid_date (Date_next_day date)).
Proof.
  intros Hv. pose proof (valid_date_ordinal_bounds date Hv) as Hbounds.
  apply valid_date_iff in Hv. destruct Hv as (Hy & Hm & Hd).
  destruct date as [y m d]. cbn [year_ month_ day_] in *.
  destruct (start_of_year_some y ltac:(lia)) as (start & Hstart).
  pose proof (start_of_next_year y start ltac:(lia) Hstart) as Hnext.
  pose proof (days_before_month_succ y m Hm) as Hsucc.
  pose proof (days_before_month_13 y) as H13.
  pose proof (month_length_bounds y m Hm) as Hb.
  rewrite Date_ordinal_value in Hbounds by lia.
  split.
  - exists (start + Date_ordinal (Date_ y m d) - 678942).
    split; [now apply Date_mjd_value|].
    rewrite (Date_ordinal_value y m d) by lia.
    unfold Date_next_day. cbn [year_ month_ day_].
    destruct (Z.eqb_spec d (month_length y m)) as [Hlast|Hnot].
    + destruct (Z.eqb_spec m 12) as [->|H12].
      * rewrite (Date_mjd_value (Date_ (y + 1) 1 1) _ Hnext).
        rewrite Date_ordinal_value by lia.
        change (12 + 1) with 13 in Hsucc.
        replace (days_before_month (y + 1) 1) with 0 by reflexivity.
        f_equal. lia.
      * rewrite (Date_mjd_value (Date_ y (m + 1) 1) _ Hstart).
        rewrite Date_ordinal_value by lia. f_equal. lia.
    + rewrite (Date_mjd_value (Date_ y m (d + 1)) _ Hstart).
      rewrite Date_ordinal_value by lia. f_equal. lia.
  - intros Hne. apply valid_date_iff. unfold Date_next_day.
    cbn [year_ month_ day_].
    destruct (Z.eqb_spec d (month_length y m)) as [Hlast|Hnot].
    + destruct (Z.eqb_spec m 12) as [->|H12]; cbn [year_ month_ day_].
      * pose proof (month_length_bounds (y + 1) 1 ltac:(lia)).
        assert (y <> 9999).
        { intros ->. apply Hne. f_equal. rewrite Hlast. reflexivity. }
        lia.
      * pose proof (month_length_bounds y (m + 1) ltac:(lia)). lia.
    + cbn [year_ month_ day_]. lia.
Qed.

Lemma Date_next_day_mjd_witness :
  exists mjd,
    Date_mjd (Date_ 2000 2 29) = Some mjd
    /\ Date_mjd (Date_next_day (Date_ 2000 2 29)) = Some (mjd + 1).
Proof.
  apply (Date_next_day_mjd (Date_ 2000 2 29)). reflexivity.
Defined.

Section DateOrder.

Lemma Date_mjd_earlier (l r : Date) :
  valid_date l -> valid_date r -> Date_lt l r = true ->
  exists ml mr, Date_mjd l = Some ml /\ Date_mjd r = Some mr /\ ml < mr.
Proof.
  intros Hl Hr Hlt.
  pose proof (valid_date_ordinal_bounds l Hl) as Hbl.
  pose proof (valid_date_ordinal_bounds r Hr) as Hbr.
  apply valid_date_iff in Hl. apply valid_date_iff in Hr.
  destruct Hl as (Hyl & Hml & Hdl). destruct Hr as (Hyr & Hmr & Hdr).
  destruct l as [y m d]. destruct r as [y' m' d'].
  cbn [year_ month_ day_] in *.
  destruct (start_of_year_some y ltac:(lia)) as (start & Hstart).
  destruct (start_of_year_some y' ltac:(lia)) as (start' & Hstart').
  exists (start + Date_ordinal (Date_ y m d) - 678942),
         (start' + Date_ordinal (Date_ y' m' d') - 678942).
  split; [now apply Date_mjd_value|]. split; [now apply Date_mjd_value|].
  unfold Date_lt in Hlt. cbn [year_ month_ day_] in Hlt.
  destruct (Z.ltb_spec y y') as [Hy|Hy]; cbn [orb] in Hlt.
  - destruct (start_of_later_year y start (Z.to_nat (y' - y - 1))
                ltac:(lia) Hstart) as (s' & Hs' & Hle).
    replace (y + Z.of_nat (S (Z.to_nat (y' - y - 1)))) with y' in Hs' by lia.
    assert (s' = start') by congruence. subst s'. lia.
  - destruct (Z.eqb_spec y y') as [<-|Hne]; cbn [andb] in Hlt;
      [|discriminate].
    assert (start' = start) by congruence. subst start'.
    rewrite !Date_ordinal_value by lia.
    destruct (Z.ltb_spec m m') as [Hm|Hm]; cbn [orb] in Hlt.
    + pose proof (days_before_month_later y m m' ltac:(lia) Hm ltac:(lia)).
      lia.
    + destruct (Z.eqb_spec m m') as [<-|Hne]; cbn [andb] in Hlt;
        [|discriminate].
      apply Z.ltb_lt in Hlt. lia.
Qed.

Lemma Date_lt_trichotomy (l r : Date) :
  Date_lt l r = true \/ l = r \/ Date_lt r l = true.
Proof.
  destruct l as [y m d]. destruct r as [y' m' d']. unfold Date_lt.
  cbn [year_ month_ day_].
  destruct (Z.ltb_spec y y'); destruct (Z.ltb_spec y' y);
    destruct (Z.eqb_spec y y'); destruct (Z.eqb_spec y' y);
    destruct (Z.ltb_spec m m'); destruct (Z.ltb_spec m' m);
    destruct (Z.eqb_spec m m'); destruct (Z.eqb_spec m' m);
    destruct (Z.ltb_spec d d'); destruct (Z.ltb_spec d' d);
    cbn [orb andb]; try lia; auto.
  right. left. f_equal; lia.
Qed.

End DateOrder.

(** X8. The order of the dates is the order of the days: for two calendar
    dates, [left < right] holds exactly when the modified Julian day of
    [left] is less than that of [right], and the two days are equal
    exactly when [left == right]. *)
Theorem Date_lt_is_mjd_order (l r : Date) :
  valid_date l -> valid_date r ->
  exists ml mr,
    Date_mjd l = Some ml /\ Date_mjd r = Some mr
    /\ (Date_lt l r = true <-> ml < mr)
    /\ (Date_eq l r = true <-> ml = mr).
Proof.
  intros Hl Hr.
  destruct (start_of_year_some (year_ l)) as (sl & Hsl);
    [apply valid_date_iff in Hl; lia|].
  destruct (start_of_year_some (year_ r)) as (sr & Hsr);
    [apply valid_date_iff in Hr; lia|].
  pose proof (Date_mjd_value l sl Hsl) as El.
  pose proof (Date_mjd_value r sr Hsr) as Er.
  exists (sl + Date_ordinal l - 678942), (sr + Date_ordinal r - 678942).
  split; [exact El|]. split; [exact Er|].
  assert (Heq : Date_eq l r = true <-> l = r).
  { destruct l as [y m d]. destruct r as [y' m' d']. unfold Date_eq.
    cbn [year_ month_ day_].
    destruct (Z.eqb_spec y y'); destruct (Z.eqb_spec m m');
      destruct (Z.eqb_spec d d'); cbn [andb]; split; intros E;
      try discriminate; try reflexivity; try congruence. }
  assert (Hirr : forall x, Date_lt x x = false).
  { intros [y m d]. unfold Date_lt. cbn [year_ month_ day_].
    now rewrite !Z.ltb_irrefl, !Z.eqb_refl. }
  destruct (Date_lt_trichotomy l r) as [Hlt|[->|Hgt]].
  - destruct (Date_mjd_earlier l r Hl Hr Hlt) as (ml & mr & E1 & E2 & Hless).
    rewrite El in E1. rewrite Er in E2.
    injection E1 as <-. injection E2 as <-.
    split; [split; [intros _; exact Hless | intros _; exact Hlt]|].
    rewrite Heq. split; [intros -> | ]; [rewrite Hirr in Hlt; discriminate|].
    lia.
  - assert (sr = sl) by congruence. subst sr.
    rewrite Hirr. split; [split; [discriminate | lia]|].
    rewrite Heq. split; intros _; reflexivity.
  - destruct (Date_mjd_earlier r l Hr Hl Hgt) as (mr & ml & E1 & E2 & Hless).
    rewrite Er in E1. rewrite El in E2.
    injection E1 as <-. injection E2 as <-.
    split.
    + split; [|lia]. intros Hlt.
      destruct (Date_mjd_earlier l r Hl Hr Hlt) as (a & b & E1 & E2 & Hab).
      rewrite El in E1. rewrite Er in E2.
      injection E1 as <-. injection E2 as <-. lia.
    + rewrite Heq. split; [intros -> | ]; [rewrite Hirr in Hgt; discriminate|].
      lia.
Qed.

Lemma Date_lt_is_mjd_order_witness :
  exists ml mr,
    Date_mjd (Date_ 1999 12 31) = Some ml
    /\ Date_mjd (Date_ 2000 1 1) = Some mr
    /\ (Date_lt (Date_ 1999 12 31) (Date_ 2000 1 1) = true <-> ml < mr)
    /\ (Date_eq (Date_ 1999 12 31) (Date_ 2000 1 1) = true <-> ml = mr).
Proof.
  apply (Date_lt_is_mjd_order (Date_ 1999 12 31) (Date_ 2000 1 1));
    reflexivity.
Defined.

(** ** The digits of astronomy/date_time_body.hpp *)

Section Digits.

Lemma digit_range_rec_value (fuel : nat) :
  forall digits b e,
    0 <= digits -> 0 <= b <= e -> e <= Z.of_nat fuel ->
    digit_range_rec fuel digits b e
    = Some ((digits / 10 ^ b) mod 10 ^ (e - b)).
Proof.
  induction fuel as [|fuel IH]; intros digits b e Hd Hbe Hfuel;
    cbn [digit_range_rec]; unfold CHECKING.
  all: destruct (Z.geb_spec digits 0); [|lia].
  all: destruct (Z.geb_spec b 0); [|lia].
  all: destruct (Z.leb_spec b e); [|lia].
  all: cbn [andb].
  all: destruct (Z.eqb_spec b e) as [->|Hne];
    [rewrite Z.sub_diag, Z.pow_0_r, Z.mod_1_r; reflexivity|].
  - lia.
  - rewrite Z.quot_div_nonneg by lia. rewrite Z.rem_mod_nonneg by lia.
    assert (Hq : 0 <= digits / 10) by (apply Z.div_pos; lia).
    destruct (Z.eqb_spec b 0) as [->|Hb0].
    + rewrite IH by lia. cbn [bind]. f_equal.
      rewrite Z.pow_0_r, !Z.div_1_r, !Z.sub_0_r.
      replace (10 ^ e) with (10 * 10 ^ (e - 1))
        by (rewrite <- Z.pow_succ_r by lia; f_equal; lia).
      rewrite Z.rem_mul_r by (try apply Z.pow_nonzero; lia). lia.
    + rewrite IH by lia. f_equal.
      replace (e - 1 - (b - 1)) with (e - b) by lia.
      replace (10 ^ b) with (10 * 10 ^ (b - 1))
        by (rewrite <- Z.pow_succ_r by lia; f_equal; lia).
      rewrite Z.div_div by (try apply Z.pow_pos_nonneg; lia).
      reflexivity.
Qed.

Lemma digit_range_value (digits b e : Z) :
  0 <= digits -> 0 <= b <= e ->
  digit_range digits b e = Some ((digits / 10 ^ b) mod 10 ^ (e - b)).
Proof.
  intros Hd Hbe. unfold digit_range.
  apply digit_range_rec_value; lia.
Qed.

Lemma digit_range_invalid (digits b e : Z) :
  digits < 0 \/ b < 0 \/ e < b -> digit_range digits b e = None.
Proof.
  intros H. unfold digit_range.
  destruct (Z.to_nat e); cbn [digit_range_rec]; unfold CHECKING;
    destruct (Z.geb_spec digits 0); destruct (Z.geb_spec b 0);
    destruct (Z.leb_spec b e); cbn [andb]; try reflexivity; lia.
Qed.

Lemma shift_left_rec_value (fuel : nat) :
  forall x count,
    0 <= count <= Z.of_nat fuel ->
    shift_left_rec fuel x count = Some (x * 10 ^ count).
Proof.
  induction fuel as [|fuel IH]; intros x count Hc;
    cbn [shift_left_rec]; unfold CHECKING.
  all: destruct (Z.geb_spec count 0); [|lia].
  all: destruct (Z.eqb_spec count 0) as [->|Hne];
    [f_equal; rewrite Z.pow_0_r; lia|].
  - lia.
  - rewrite IH by lia. f_equal.
    replace (10 ^ count) with (10 * 10 ^ (count - 1))
      by (rewrite <- Z.pow_succ_r by lia; f_equal; lia).
    lia.
Qed.

Lemma shift_right_rec_value (fuel : nat) :
  forall x count,
    0 <= count <= Z.of_nat fuel ->
    shift_right_rec fuel x count = Some (Z.quot x (10 ^ count)).
Proof.
  induction fuel as [|fuel IH]; intros x count Hc;
    cbn [shift_right_rec]; unfold CHECKING.
  all: destruct (Z.geb_spec count 0); [|lia].
  all: destruct (Z.eqb_spec count 0) as [->|Hne];
    [f_equal; rewrite Z.pow_0_r, Z.quot_1_r; reflexivity|].
  - lia.
  - rewrite IH by lia. f_equal.
    replace (10 ^ count) with (10 * 10 ^ (count - 1))
      by (rewrite <- Z.pow_succ_r by lia; f_equal; lia).
    rewrite Z.quot_quot by (try apply Z.pow_nonzero; lia). reflexivity.
Qed.

End Digits.

(** X9. [digit_range(digits, begin, end)] is the number written by the
    digits of [digits] from the one of 10 ** begin up to, and without, the
    one of 10 ** end; it fails for a negative number, a negative [begin]
    or an [end] before [begin]. *)
Theorem digit_range_digits (digits b e : Z) :
  (0 <= digits -> 0 <= b <= e ->
   digit_range digits b e = Some ((digits / 10 ^ b) mod 10 ^ (e - b)))
  /\ (digits < 0 \/ b < 0 \/ e < b -> digit_range digits b e = None).
Proof.
  split; [apply digit_range_value | apply digit_range_invalid].
Qed.

Lemma digit_range_digits_witness :
  digit_range 20161231 2 4 = Some ((20161231 / 10 ^ 2) mod 10 ^ (4 - 2)).
Proof. apply (digit_range_digits 20161231 2 4); lia. Defined.

(** X10. [shift_left(x, count)] is [x * 10 ** count] and
    [shift_right(x, count)] is [x / 10 ** count], rounded towards zero, so
    that shifting left and then right by the same count gives [x] back.
    This is for a result [x * 10 ** count] that is an [int64_t]: then so
    is every product on the way.  Both fail for a negative count. *)
Theorem shift_left_right (x count : Z) :
  (0 <= count ->
   int64_range (x * 10 ^ count) ->
   shift_left x count = Some (x * 10 ^ count)
   /\ shift_right x count = Some (Z.quot x (10 ^ count))
   /\ shift_right (x * 10 ^ count) count = Some x
   /\ (forall k, 0 <= k <= count -> int64_range (x * 10 ^ k)))
  /\ (count < 0 ->
      shift_left x count = None /\ shift_right x count = None).
Proof.
  split.
  - intros Hc Hrange.
    assert (Hl : forall y, shift_left y count = Some (y * 10 ^ count))
      by (intros y; unfold shift_left; apply shift_left_rec_value; lia).
    assert (Hr : forall y, shift_right y count = Some (Z.quot y (10 ^ count)))
      by (intros y; unfold shift_right; apply shift_right_rec_value; lia).
    split; [apply Hl | split; [apply Hr | split]].
    + rewrite Hr. f_equal. apply Z.quot_mul.
      apply Z.pow_nonzero; lia.
    + intros k Hk. unfold int64_range in *.
      assert (H1 : 0 < 10 ^ k) by (apply Z.pow_pos_nonneg; lia).
      assert (H2 : 10 ^ k <= 10 ^ count)
        by (apply Z.pow_le_mono_r; lia).
      destruct (Z_le_gt_dec 0 x); nia.
  - intros Hc. unfold shift_left, shift_right.
    destruct (Z.to_nat count);
      cbn [shift_left_rec shift_right_rec]; unfold CHECKING;
      destruct (Z.geb_spec count 0); try lia; split; reflexivity.
Qed.

Lemma shift_left_right_witness :
  shift_left 25 2 = Some (25 * 10 ^ 2)
  /\ shift_right 25 2 = Some (Z.quot 25 (10 ^ 2))
  /\ shift_right (25 * 10 ^ 2) 2 = Some 25
  /\ (forall k, 0 <= k <= 2 -> int64_range (25 * 10 ^ k)).
Proof.
  apply (shift_left_right 25 2); [lia | unfold int64_range; lia].
Defined.

Section DigitsOfDates.

Lemma Date_YYYYMMDD_of_parts (year month day : Z) :
  0 <= year <= 9999 -> 0 <= month <= 99 -> 0 <= day <= 99 ->
  Date_YYYYMMDD (year * 10000 + month * 100 + day)
  = Date_Calendar year month day.
Proof.
  intros Hy Hm Hd. unfold Date_YYYYMMDD, CHECKING.
  set (digits := year * 10000 + month * 100 + day).
  destruct (Z.geb_spec digits 0); [|subst digits; lia].
  destruct (Z.leb_spec digits 99999999); [|subst digits; lia].
  cbn [andb]. rewrite !digit_range_value by lia. cbn [bind].
  change (10 ^ 4) with 10000. change (10 ^ 2) with 100.
  change (10 ^ (8 - 4)) with 10000. change (10 ^ (4 - 2)) with 100.
  change (10 ^ (2 - 0)) with 100. change (10 ^ 0) with 1.
  rewrite Z.div_1_r.
  destruct (div_mod_eq digits 10000 year (month * 100 + day)) as [E1 _];
    [lia | subst digits; lia |].
  destruct (div_mod_eq digits 100 (year * 100 + month) day) as [E2 E3];
    [lia | subst digits; lia |].
  rewrite E1, E2, E3.
  rewrite (Z.mod_small year) by lia.
  destruct (div_mod_eq (year * 100 + month) 100 year month) as [_ E4];
    [lia | lia |].
  now rewrite E4.
Qed.

End DigitsOfDates.

(** X11. [Date::YYYYMMDD] reads the year, the month and the day off the
    digits: for a year of at most four digits and a month and a day of at
    most two, the date of [year * 10000 + month * 100 + day] is that of
    [Date::Calendar(year, month, day)], a failure when that fails. *)
Theorem Date_YYYYMMDD_Calendar (year month day : Z) :
  0 <= year <= 9999 -> 0 <= month <= 99 -> 0 <= day <= 99 ->
  Date_YYYYMMDD (year * 10000 + month * 100 + day)
  = Date_Calendar year month day.
Proof. exact (Date_YYYYMMDD_of_parts year month day). Qed.

Lemma Date_YYYYMMDD_Calendar_witness :
  Date_YYYYMMDD (2016 * 10000 + 2 * 100 + 29) = Date_Calendar 2016 2 29.
Proof. apply (Date_YYYYMMDD_Calendar 2016 2 29); lia. Defined.

(** ** The times of astronomy/date_time_body.hpp *)

Section Times.

Lemma Time_Time_same (h m s ms : Z) :
  0 <= ms < 1000 -> Time_Time h m s ms = Time_ h m s ms.
Proof.
  intros Hms. unfold Time_Time.
  destruct (Z.eqb_spec ms 1000); [lia|]. cbn [andb].
  now rewrite Z.rem_small by lia.
Qed.

Lemma Time_Time_carried (h m s : Z) :
  Time_Time h m s 1000
  = if s =? 59
    then if m =? 59 then Time_ (h + 1) 0 0 0 else Time_ h (m + 1) 0 0
    else Time_ h m (s + 1) 0.
Proof.
  unfold Time_Time. change (1000 =? 1000) with true. cbn [andb].
  change (Z.rem 1000 1000) with 0.
  destruct (s =? 59); destruct (m =? 59); reflexivity.
Qed.

Lemma Time_Time_milliseconds (h m s ms : Z) :
  0 <= ms <= 1000 ->
  milliseconds_of (Time_Time h m s ms)
  = ((h * 60 + m) * 60 + s) * 1000 + ms.
Proof.
  intros Hms. destruct (Z.eq_dec ms 1000) as [->|Hne].
  - rewrite Time_Time_carried.
    destruct (Z.eqb_spec s 59); destruct (Z.eqb_spec m 59);
      unfold milliseconds_of; cbn [hour_ minute_ second_ millisecond_]; lia.
  - rewrite Time_Time_same by lia. reflexivity.
Qed.

(** A time of day with at most 1000 milliseconds passes the check. *)
Lemma Time_Time_checked (h m s ms : Z) :
  0 <= h <= 23 -> 0 <= m <= 59 -> 0 <= s <= 59 -> 0 <= ms <= 1000 ->
  Time_checked (Time_Time h m s ms) = Some (Time_Time h m s ms).
Proof.
  intros Hh Hm Hs Hms.
  assert (Hok : forall h' m' s' ms',
             (h' = 24 /\ m' = 0 /\ s' = 0 /\ ms' = 0)
             \/ (0 <= h' <= 23 /\ 0 <= m' <= 59 /\ 0 <= s' <= 59
                 /\ 0 <= ms' <= 999) ->
             Time_checked (Time_ h' m' s' ms') = Some (Time_ h' m' s' ms')).
  { intros h' m' s' ms' H. unfold Time_checked, CHECKING.
    cbn [hour_ minute_ second_ millisecond_].
    destruct H as [(-> & -> & -> & ->)|(H1 & H2 & H3 & H4)];
      [reflexivity|].
    destruct (Z.eqb_spec h' 24); [lia|]. cbn [andb orb].
    destruct (Z.geb_spec ms' 0); [|lia].
    destruct (Z.leb_spec ms' 999); [|lia].
    destruct (Z.geb_spec h' 0); [|lia].
    destruct (Z.leb_spec h' 23); [|lia].
    destruct (Z.geb_spec m' 0); [|lia].
    destruct (Z.leb_spec m' 59); [|lia].
    destruct (Z.geb_spec s' 0); [|lia].
    destruct (Z.leb_spec s' 59); [|lia].
    cbn [andb]. now rewrite orb_true_r. }
  destruct (Z.eq_dec ms 1000) as [->|Hne].
  - rewrite Time_Time_carried.
    destruct (Z.eqb_spec s 59); destruct (Z.eqb_spec m 59); apply Hok; lia.
  - rewrite Time_Time_same by lia. apply Hok. lia.
Qed.

(** The hours, minutes and seconds that [JDFractionToTime] computes from
    the [digit_count] digits [digits] of a fraction of a day. *)
Lemma JD_fraction_parts (digits dc : Z) :
  0 <= dc -> 0 <= digits < 10 ^ dc ->
  exists h m s r1 r2,
    digit_range (24 * digits) dc (dc + 2) = Some h
    /\ digit_range (24 * digits) 0 dc = Some r1
    /\ digit_range (60 * r1) dc (dc + 2) = Some m
    /\ digit_range (60 * 24 * digits) 0 dc = Some r2
    /\ digit_range (60 * r2) dc (dc + 2) = Some s
    /\ 0 <= h <= 23 /\ 0 <= m <= 59 /\ 0 <= s <= 59
    /\ 60 * 60 * 24 * digits
       = 10 ^ dc * ((h * 60 + m) * 60 + s) + (60 * r2) mod 10 ^ dc.
Proof.
  intros Hdc Hx. set (N := 10 ^ dc) in *.
  assert (HN : 0 < N) by (apply Z.pow_pos_nonneg; lia).
  assert (Hdr : forall y, 0 <= y ->
            digit_range y dc (dc + 2) = Some ((y / N) mod 100)
            /\ digit_range y 0 dc = Some (y mod N)).
  { intros y Hy. rewrite !digit_range_value by lia.
    replace (dc + 2 - dc) with 2 by lia. rewrite Z.sub_0_r.
    change (10 ^ 0) with 1. rewrite Z.div_1_r. now split. }
  set (h := 24 * digits / N). set (r1 := (24 * digits) mod N).
  set (m := 60 * r1 / N). set (r1' := (60 * r1) mod N).
  set (s := 60 * r1' / N).
  pose proof (Z.div_mod (24 * digits) N ltac:(lia)) as E1.
  pose proof (Z.mod_pos_bound (24 * digits) N HN) as B1.
  pose proof (Z.div_mod (60 * r1) N ltac:(lia)) as E2.
  pose proof (Z.mod_pos_bound (60 * r1) N HN) as B2.
  pose proof (Z.div_mod (60 * r1') N ltac:(lia)) as E3.
  pose proof (Z.mod_pos_bound (60 * r1') N HN) as B3.
  fold h r1 in E1, B1. fold r1 m r1' in E2, B2. fold r1' s in E3, B3.
  assert (Hh : 0 <= h <= 23).
  { split; [apply Z.div_pos; lia|].
    assert (h < 24) by (apply Z.div_lt_upper_bound; lia). lia. }
  assert (Hm : 0 <= m <= 59).
  { split; [apply Z.div_pos; lia|].
    assert (m < 60) by (apply Z.div_lt_upper_bound; lia). lia. }
  assert (Hs : 0 <= s <= 59).
  { split; [apply Z.div_pos; lia|].
    assert (s < 60) by (apply Z.div_lt_upper_bound; lia). lia. }
  assert (Hr2 : (60 * 24 * digits) mod N = r1').
  { destruct (div_mod_eq (60 * 24 * digits) N (60 * h + m) r1') as [_ E];
      [lia | nia | exact E]. }
  exists h, m, s, r1, r1'.
  destruct (Hdr (24 * digits) ltac:(lia)) as [D1 D2].
  destruct (Hdr (60 * r1) ltac:(lia)) as [D3 _].
  destruct (Hdr (60 * 24 * digits) ltac:(lia)) as [_ D4].
  destruct (Hdr (60 * r1') ltac:(lia)) as [D5 _].
  fold h in D1. fold r1 in D2. fold m in D3. rewrite Hr2 in D4. fold s in D5.
  rewrite (Z.mod_small h) in D1 by lia.
  rewrite (Z.mod_small m) in D3 by lia.
  rewrite (Z.mod_small s) in D5 by lia.
  repeat split; try assumption; try lia; nia.
Qed.

End Times.

(** X12. The constructor of [Time] carries a millisecond count of 1000 into
    the seconds, the minutes and the hours: for 0 to 1000 milliseconds the
    time constructed is as many milliseconds after midnight as its
    arguments say and has a millisecond field from 0 to 999; below 1000
    the fields are the arguments. *)
Theorem Time_constructor_carries (h m s ms : Z) :
  0 <= ms <= 1000 ->
  milliseconds_of (Time_Time h m s ms)
  = ((h * 60 + m) * 60 + s) * 1000 + ms
  /\ 0 <= millisecond_ (Time_Time h m s ms) <= 999
  /\ (ms < 1000 -> Time_Time h m s ms = Time_ h m s ms).
Proof.
  intros Hms. split; [now apply Time_Time_milliseconds|]. split.
  - destruct (Z.eq_dec ms 1000) as [->|Hne].
    + rewrite Time_Time_carried.
      destruct (s =? 59); destruct (m =? 59);
        cbn [millisecond_]; lia.
    + rewrite Time_Time_same by lia. cbn [millisecond_]. lia.
  - intros Hlt. apply Time_Time_same. lia.
Qed.

Lemma Time_constructor_carries_witness :
  milliseconds_of (Time_Time 23 59 59 1000)
  = ((23 * 60 + 59) * 60 + 59) * 1000 + 1000
  /\ Time_Time 23 59 59 1000 = Time_ 24 0 0 0.
Proof.
  split; [|reflexivity].
  apply (Time_constructor_carries 23 59 59 1000). lia.
Defined.

Section Rounding.

(** What [JDFractionToTime] makes of its parts, for a millisecond count
    from 0 to 1000. *)
Lemma JDFractionToTime_parts (digits dc ms : Z) :
  0 <= dc <= 14 -> 0 <= digits < 10 ^ dc ->
  TimeParser_JDRoundedMilliseconds digits dc = Some ms ->
  0 <= ms <= 1000 ->
  exists t seconds,
    TimeParser_JDFractionToTime digits dc = Some t
    /\ milliseconds_of t = seconds * 1000 + ms
    /\ 0 <= seconds
    /\ 60 * 60 * 24 * digits
       = 10 ^ dc * seconds + (60 * 60 * 24 * digits) mod 10 ^ dc.
Proof.
  intros Hdc Hx Hms Hrange.
  destruct (JD_fraction_parts digits dc ltac:(lia) Hx)
    as (h & m & s & r1 & r2 & D1 & D2 & D3 & D4 & D5 & Hh & Hm & Hs & E).
  assert (HN : 0 < 10 ^ dc) by (apply Z.pow_pos_nonneg; lia).
  exists (Time_Time h m s ms), ((h * 60 + m) * 60 + s).
  split; [|split; [|split]].
  - unfold TimeParser_JDFractionToTime, CHECKING.
    destruct (Z.leb_spec dc 14); [|lia].
    rewrite D1, D2. cbn [bind]. rewrite D3, D4. cbn [bind].
    rewrite D5, Hms. cbn [bind]. now apply Time_Time_checked.
  - now apply Time_Time_milliseconds.
  - lia.
  - destruct (div_mod_eq (60 * 60 * 24 * digits) (10 ^ dc)
                ((h * 60 + m) * 60 + s) ((60 * r2) mod 10 ^ dc))
      as [_ Emod]; [apply Z.mod_pos_bound; lia | exact E |].
    rewrite Emod. exact E.
Qed.

Lemma rounded_tenths (r3 P : Z) :
  0 < P -> 0 <= r3 ->
  (2000 * r3 + 10000 * P) / (2 * (10000 * P)) = (r3 / P + 5) / 10.
Proof.
  intros HP Hr.
  pose proof (Z.div_mod r3 P ltac:(lia)) as E1.
  pose proof (Z.mod_pos_bound r3 P HP) as B1.
  pose proof (Z.div_mod (r3 / P + 5) 10 ltac:(lia)) as E2.
  pose proof (Z.mod_pos_bound (r3 / P + 5) 10 ltac:(lia)) as B2.
  set (q := r3 / P) in *. set (rho := r3 mod P) in *.
  set (k := (q + 5) / 10) in *. set (j := (q + 5) mod 10) in *.
  destruct (div_mod_eq (2000 * r3 + 10000 * P) (2 * (10000 * P)) k
              (2000 * (P * j + rho))) as [E _]; [nia | nia | exact E].
Qed.


(** The milliseconds that [JDRoundedMilliseconds] gives, from the part of
    the fraction that is left after the whole seconds. *)
Lemma JDRoundedMilliseconds_value (digits dc : Z) :
  0 <= dc <= 14 -> dc <= 3 \/ 6 <= dc -> 0 <= digits ->
  let r3 := (60 * 60 * 24 * digits) mod 10 ^ dc in
  let ms := (2000 * r3 + 10 ^ dc) / (2 * 10 ^ dc) in
  TimeParser_JDRoundedMilliseconds digits dc = Some ms /\ 0 <= ms <= 1000.
Proof.
  intros Hdc Hcase Hx r3 ms. unfold TimeParser_JDRoundedMilliseconds.
  assert (HN : 0 < 10 ^ dc) by (apply Z.pow_pos_nonneg; lia).
  pose proof (Z.mod_pos_bound (60 * 60 * 24 * digits) (10 ^ dc) HN) as B.
  fold r3 in B.
  destruct (Z.leb_spec dc 2) as [H2|H2].
  - (* no digit counts towards the milliseconds *)
    assert (Hr3 : r3 = 0).
    { subst r3. assert (Hc : dc = 0 \/ dc = 1 \/ dc = 2) by lia.
      destruct Hc as [-> | [-> | ->]].
      - apply Z.mod_1_r.
      - replace (60 * 60 * 24 * digits) with (8640 * digits * 10 ^ 1) by lia.
        apply Z.mod_mul. lia.
      - replace (60 * 60 * 24 * digits) with (864 * digits * 10 ^ 2) by lia.
        apply Z.mod_mul. lia. }
    assert (Hms : ms = 0).
    { subst ms. rewrite Hr3.
      destruct (div_mod_eq (2000 * 0 + 10 ^ dc) (2 * 10 ^ dc) 0 (10 ^ dc))
        as [E _]; [lia | lia | exact E]. }
    rewrite Hms. split; [reflexivity | lia].
  - destruct (Z.leb_spec dc 5) as [H5|H5].
    + (* three digits: the milliseconds are exact *)
      assert (dc = 3) by lia. subst dc.
      rewrite digit_range_value by lia.
      change (10 ^ 0) with 1. rewrite Z.div_1_r. change (3 - 0) with 3.
      fold r3.
      assert (Hms : ms = r3).
      { subst ms. change (10 ^ 3) with 1000 in *.
        destruct (div_mod_eq (2000 * r3 + 1000) (2 * 1000) r3 1000)
          as [E _]; [lia | lia | exact E]. }
      rewrite Hms. change (10 ^ 3) with 1000 in B. split; [reflexivity | lia].
    + (* six digits or more: the tenths of milliseconds are rounded *)
      rewrite digit_range_value by lia. cbn [bind].
      replace (dc - (dc - 4)) with 4 by lia.
      set (P := 10 ^ (dc - 4)).
      assert (HP : 0 < P) by (apply Z.pow_pos_nonneg; lia).
      assert (HNP : 10 ^ dc = 10000 * P).
      { subst P. change 10000 with (10 ^ 4).
        rewrite <- Z.pow_add_r by lia. f_equal. lia. }
      pose proof (Z.div_mod (60 * 60 * 24 * digits) (10 ^ dc) ltac:(lia))
        as Ey.
      fold r3 in Ey.
      set (Q := 60 * 60 * 24 * digits / 10 ^ dc) in *.
      pose proof (Z.div_mod r3 P ltac:(lia)) as Er.
      pose proof (Z.mod_pos_bound r3 P HP) as Br.
      assert (Hq : 0 <= r3 / P < 10000).
      { split; [apply Z.div_pos; lia|].
        apply Z.div_lt_upper_bound; lia. }
      destruct (div_mod_eq (60 * 60 * 24 * digits) P
                  (10000 * Q + r3 / P) (r3 mod P)) as [E1 _]; [lia | nia |].
      rewrite E1.
      destruct (div_mod_eq (10000 * Q + r3 / P) (10 ^ 4) Q (r3 / P))
        as [_ E2]; [lia | lia |].
      rewrite E2. rewrite Z.quot_div_nonneg by lia.
      assert (Hms : ms = (r3 / P + 5) / 10).
      { subst ms. rewrite HNP. apply rounded_tenths; lia. }
      rewrite Hms. split; [reflexivity|].
      split; [apply Z.div_pos; lia|].
      assert ((r3 / P + 5) / 10 < 1001)
        by (apply Z.div_lt_upper_bound; lia).
      lia.
Qed.

End Rounding.

(** X13. [JDFractionToTime] rounds a fraction of a day to the nearest
    millisecond: for a fraction written with up to three or with six to
    fourteen decimal digits the time it makes is, in milliseconds after
    midnight, 86 400 000 times the fraction rounded to the nearest
    integer, halves up. *)
Theorem JDFractionToTime_rounds (digits dc : Z) :
  0 <= dc <= 14 -> dc <= 3 \/ 6 <= dc ->
  0 <= digits < 10 ^ dc ->
  exists t,
    TimeParser_JDFractionToTime digits dc = Some t
    /\ milliseconds_of t
       = (2 * (86400000 * digits) + 10 ^ dc) / (2 * 10 ^ dc).
Proof.
  intros Hdc Hcase Hx.
  assert (HN : 0 < 10 ^ dc) by (apply Z.pow_pos_nonneg; lia).
  destruct (JDRoundedMilliseconds_value digits dc Hdc Hcase ltac:(lia))
    as [Hcode Hms].
  destruct (JDFractionToTime_parts digits dc _ Hdc Hx Hcode Hms)
    as (t & seconds & Et & Emillis & Hsec & E).
  exists t. split; [exact Et|]. rewrite Emillis.
  set (r3 := (60 * 60 * 24 * digits) mod 10 ^ dc) in *.
  replace (2 * (86400000 * digits) + 10 ^ dc)
    with (seconds * 1000 * (2 * 10 ^ dc) + (2000 * r3 + 10 ^ dc)) by lia.
  rewrite Z.div_add_l by lia. reflexivity.
Qed.

Lemma JDFractionToTime_rounds_witness :
  exists t,
    TimeParser_JDFractionToTime 1234567 7 = Some t
    /\ milliseconds_of t
       = (2 * (86400000 * 1234567) + 10 ^ 7) / (2 * 10 ^ 7).
Proof.
  apply (JDFractionToTime_rounds 1234567 7); [lia | lia |].
  change (10 ^ 7) with 10000000. lia.
Defined.

(** X14. With four or five decimal digits [JDFractionToTime] gives the
    whole seconds of the fraction of the day, and as milliseconds the last
    three digits of 86 400 times the digits, which are not the
    milliseconds of the fraction: 0.7519 of a day is 18:02:44.160 and the
    time made is 18:02:44.600. *)
Theorem JDFractionToTime_four_or_five_digits (digits dc : Z) :
  4 <= dc <= 5 -> 0 <= digits < 10 ^ dc ->
  exists t,
    TimeParser_JDFractionToTime digits dc = Some t
    /\ milliseconds_of t
       = 86400 * digits / 10 ^ dc * 1000 + (86400 * digits) mod 1000.
Proof.
  intros Hdc Hx.
  assert (HN : 0 < 10 ^ dc) by (apply Z.pow_pos_nonneg; lia).
  pose proof (Z.mod_pos_bound (60 * 60 * 24 * digits) 1000 ltac:(lia)) as B.
  assert (Hcode : TimeParser_JDRoundedMilliseconds digits dc
                  = Some ((60 * 60 * 24 * digits) mod 1000)).
  { unfold TimeParser_JDRoundedMilliseconds.
    destruct (Z.leb_spec dc 2); [lia|]. destruct (Z.leb_spec dc 5); [|lia].
    rewrite digit_range_value by lia.
    change (10 ^ 0) with 1. rewrite Z.div_1_r. reflexivity. }
  destruct (JDFractionToTime_parts digits dc _ ltac:(lia) Hx Hcode
              ltac:(lia))
    as (t & seconds & Et & Emillis & Hsec & E).
  exists t. split; [exact Et|]. rewrite Emillis.
  change (60 * 60 * 24) with 86400 in *.
  pose proof (Z.mod_pos_bound (86400 * digits) (10 ^ dc) HN) as B'.
  destruct (div_mod_eq (86400 * digits) (10 ^ dc) seconds
              ((86400 * digits) mod 10 ^ dc)) as [Ediv _];
    [exact B' | exact E |].
  rewrite Ediv. reflexivity.
Qed.

Lemma JDFractionToTime_four_or_five_digits_witness :
  TimeParser_JDFractionToTime 7519 4 = Some (Time_ 18 2 44 600)
  /\ 86400000 * 7519 / 10 ^ 4 = ((18 * 60 + 2) * 60 + 44) * 1000 + 160.
Proof.
  split; [|reflexivity].
  destruct (JDFractionToTime_four_or_five_digits 7519 4) as (t & Et & _);
    [lia | change (10 ^ 4) with 10000; lia |].
  rewrite Et. f_equal.
  assert (E : TimeParser_JDFractionToTime 7519 4 = Some (Time_ 18 2 44 600))
    by reflexivity.
  congruence.
Defined.

(** ** The parsers of astronomy/date_time_body.hpp *)

Section Parsing.

Lemma decimal_digit_not_mark (c : char) :
  is_decimal_digit c = true ->
  Byte.eqb c "-" = false /\ Byte.eqb c "W" = false
  /\ Byte.eqb c ":" = false /\ Byte.eqb c "," = false
  /\ Byte.eqb c "." = false
  /\ 0 <= int_of_uint8 c - int_of_uint8 "0" <= 9.
Proof.
  destruct c; vm_compute; intros H; try discriminate;
    repeat split; congruence.
Qed.

Lemma decimal_value_app (l1 l2 : list char) (acc : Z) :
  decimal_value acc (l1 ++ l2) = decimal_value (decimal_value acc l1) l2.
Proof. unfold decimal_value. apply fold_left_app. Qed.

Lemma decimal_value_bounds (l : list char) :
  Forall (fun c => is_decimal_digit c = true) l ->
  forall acc,
    0 <= acc ->
    decimal_value acc l
    = acc * 10 ^ Z.of_nat (List.length l) + decimal_value 0 l
    /\ 0 <= decimal_value 0 l < 10 ^ Z.of_nat (List.length l).
Proof.
  induction 1 as [|c l Hc _ IH]; intros acc Hacc.
  - cbn. split; lia.
  - destruct (decimal_digit_not_mark c Hc) as (_ & _ & _ & _ & _ & Hv).
    change (decimal_value acc (c :: l))
      with (decimal_value (acc * 10 + int_of_uint8 c - int_of_uint8 "0") l).
    change (decimal_value 0 (c :: l))
      with (decimal_value (0 * 10 + int_of_uint8 c - int_of_uint8 "0") l).
    destruct (IH (acc * 10 + int_of_uint8 c - int_of_uint8 "0")
                ltac:(lia)) as [E1 B].
    destruct (IH (0 * 10 + int_of_uint8 c - int_of_uint8 "0")
                ltac:(lia)) as [E2 _].
    rewrite E1, E2.
    change (List.length (c :: l)) with (S (List.length l)).
    rewrite Nat2Z.inj_succ, Z.pow_succ_r by lia.
    split; nia.
Qed.

(** Reading a run of decimal digits. *)
Lemma DateParser_reads_digits (run : list char) :
  Forall (fun c => is_decimal_digit c = true) run ->
  forall rest index digits count hyphens first second has_w w_index,
    DateParser_ReadToEnd_from (run ++ rest) index digits count hyphens
      first second has_w w_index
    = DateParser_ReadToEnd_from rest (index + Z.of_nat (List.length run))
        (decimal_value digits run) (count + Z.of_nat (List.length run))
        hyphens first second has_w w_index.
Proof.
  induction 1 as [|c run Hc _ IH];
    intros rest index digits count hyphens first second has_w w_index.
  - cbn. now rewrite !Z.add_0_r.
  - destruct (decimal_digit_not_mark c Hc) as (H1 & H2 & _).
    cbn [app DateParser_ReadToEnd_from]. rewrite H1, H2, Hc.
    unfold CHECKING. rewrite IH.
    change (List.length (c :: run)) with (S (List.length run)).
    rewrite Nat2Z.inj_succ.
    change (decimal_value digits (c :: run))
      with (decimal_value (digits * 10 + int_of_uint8 c - int_of_uint8 "0")
              run).
    f_equal; lia.
Qed.

Lemma TimeParser_reads_digits (run : list char) :
  Forall (fun c => is_decimal_digit c = true) run ->
  forall rest index digits count colons first second has_mark mark_index,
    TimeParser_ReadToEnd_from (run ++ rest) index digits count colons
      first second has_mark mark_index
    = TimeParser_ReadToEnd_from rest (index + Z.of_nat (List.length run))
        (decimal_value digits run) (count + Z.of_nat (List.length run))
        colons first second has_mark mark_index.
Proof.
  induction 1 as [|c run Hc _ IH];
    intros rest index digits count colons first second has_mark mark_index.
  - cbn. now rewrite !Z.add_0_r.
  - destruct (decimal_digit_not_mark c Hc) as (_ & _ & H1 & H2 & H3 & _).
    cbn [app TimeParser_ReadToEnd_from]. rewrite H1, H2, H3, Hc.
    cbn [orb]. unfold CHECKING. rewrite IH.
    change (List.length (c :: run)) with (S (List.length run)).
    rewrite Nat2Z.inj_succ.
    change (decimal_value digits (c :: run))
      with (decimal_value (digits * 10 + int_of_uint8 c - int_of_uint8 "0")
              run).
    f_equal; lia.
Qed.

(** The number that three runs of digits write one after the other. *)
Lemma decimal_value_three (a b c : list char) :
  Forall (fun x => is_decimal_digit x = true) a ->
  Forall (fun x => is_decimal_digit x = true) b ->
  Forall (fun x => is_decimal_digit x = true) c ->
  decimal_value 0 (a ++ b ++ c)
  = decimal_value 0 a * 10 ^ Z.of_nat (List.length (b ++ c))
    + decimal_value 0 b * 10 ^ Z.of_nat (List.length c)
    + decimal_value 0 c.
Proof.
  intros Ha Hb Hc.
  destruct (decimal_value_bounds a Ha 0 ltac:(lia)) as [_ Ba].
  destruct (decimal_value_bounds b Hb 0 ltac:(lia)) as [_ Bb].
  rewrite !decimal_value_app.
  destruct (decimal_value_bounds b Hb (decimal_value 0 a) ltac:(lia))
    as [E1 _].
  rewrite E1.
  destruct (decimal_value_bounds c Hc
              (decimal_value 0 a * 10 ^ Z.of_nat (List.length b)
               + decimal_value 0 b) ltac:(nia)) as [E2 _].
  rewrite E2. rewrite length_app, Nat2Z.inj_add, Z.pow_add_r by lia. lia.
Qed.

End Parsing.

Section DateFormats.

Variable base_mod : Z -> Z -> Z -> Z.

Variables year month day : list char.
Hypothesis year_digits : Forall (fun c => is_decimal_digit c = true) year.
Hypothesis month_digits : Forall (fun c => is_decimal_digit c = true) month.
Hypothesis day_digits : Forall (fun c => is_decimal_digit c = true) day.
Hypothesis year_length : List.length year = 4%nat.
Hypothesis month_length_2 : List.length month = 2%nat.
Hypothesis day_length : List.length day = 2%nat.

Lemma calendar_digits_value :
  decimal_value 0 (year ++ month ++ day)
  = decimal_value 0 year * 10000 + decimal_value 0 month * 100
    + decimal_value 0 day
  /\ 0 <= decimal_value 0 year <= 9999
  /\ 0 <= decimal_value 0 month <= 99
  /\ 0 <= decimal_value 0 day <= 99.
Proof.
  destruct (decimal_value_bounds year year_digits 0 ltac:(lia)) as [_ By].
  destruct (decimal_value_bounds month month_digits 0 ltac:(lia)) as [_ Bm].
  destruct (decimal_value_bounds day day_digits 0 ltac:(lia)) as [_ Bd].
  rewrite year_length in By. rewrite month_length_2 in Bm.
  rewrite day_length in Bd.
  rewrite decimal_value_three by assumption.
  rewrite length_app, month_length_2, day_length.
  change (10 ^ Z.of_nat (2 + 2)) with 10000.
  change (10 ^ Z.of_nat 2) with 100 in *.
  change (10 ^ Z.of_nat 4) with 10000 in *. lia.
Qed.

Lemma ParseISO_basic_calendar :
  DateParser_ParseISO base_mod (year ++ month ++ day)
  = Date_Calendar (decimal_value 0 year) (decimal_value 0 month)
      (decimal_value 0 day).
Proof.
  destruct calendar_digits_value as (E & By & Bm & Bd).
  unfold DateParser_ParseISO, DateParser_ReadToEnd.
  rewrite <- (app_nil_r (year ++ month ++ day)) at 1.
  rewrite DateParser_reads_digits
    by (repeat (apply Forall_app; split); assumption).
  rewrite !length_app, year_length, month_length_2, day_length.
  cbn [DateParser_ReadToEnd_from bind].
  unfold DateParser_ISOToDate, CHECKING.
  cbn [digit_count_ hyphens_ digits_].
  change (0 + Z.of_nat (4 + (2 + 2)) =? 8) with true.
  change (0 =? 0) with true. cbn [orb].
  rewrite E. now apply Date_YYYYMMDD_of_parts.
Qed.

Lemma ParseISO_extended_calendar :
  DateParser_ParseISO base_mod (year ++ "-"%byte :: month ++ "-"%byte :: day)
  = Date_Calendar (decimal_value 0 year) (decimal_value 0 month)
      (decimal_value 0 day).
Proof.
  destruct calendar_digits_value as (E & By & Bm & Bd).
  unfold DateParser_ParseISO, DateParser_ReadToEnd.
  rewrite DateParser_reads_digits by assumption.
  cbn [DateParser_ReadToEnd_from]. change (Byte.eqb "-" "-") with true.
  unfold CHECKING. change (0 <? 2) with true. change (0 =? 0) with true.
  cbv iota.
  rewrite DateParser_reads_digits by assumption.
  cbn [DateParser_ReadToEnd_from]. change (Byte.eqb "-" "-") with true.
  unfold CHECKING. change (0 + 1 <? 2) with true.
  change (0 + 1 =? 0) with false. cbv iota.
  rewrite <- (app_nil_r day) at 1.
  rewrite DateParser_reads_digits by assumption.
  rewrite year_length, month_length_2, day_length.
  cbn [DateParser_ReadToEnd_from bind].
  unfold DateParser_ISOToDate, CHECKING.
  cbn [digit_count_ hyphens_ digits_ first_hyphen_index_
         second_hyphen_index_].
  change (0 + Z.of_nat 4 + Z.of_nat 2 + Z.of_nat 2 =? 8) with true.
  change (0 + 1 + 1 =? 0) with false. change (0 + 1 + 1 =? 2) with true.
  change (0 + Z.of_nat 4 =? 4) with true.
  change (0 + Z.of_nat 4 + 1 + Z.of_nat 2 =? 7) with true.
  cbn [orb andb].
  rewrite <- !decimal_value_app, <- ?app_assoc, E.
  now apply Date_YYYYMMDD_of_parts.
Qed.

End DateFormats.

(** X15. [DateParser::ParseISO] reads the calendar dates of both formats
    alike: for four digits of year, two of month and two of day, the basic
    [YYYYMMDD] and the extended [YYYY-MM-DD] are the date that
    [Date::Calendar] makes of the three numbers, a failure when that
    fails. *)
Theorem ParseISO_calendar_formats
    (base_mod : Z -> Z -> Z -> Z) (year month day : list char) :
  Forall (fun c => is_decimal_digit c = true) year ->
  Forall (fun c => is_decimal_digit c = true) month ->
  Forall (fun c => is_decimal_digit c = true) day ->
  List.length year = 4%nat ->
  List.length month = 2%nat ->
  List.length day = 2%nat ->
  DateParser_ParseISO base_mod (year ++ month ++ day)
  = Date_Calendar (decimal_value 0 year) (decimal_value 0 month)
      (decimal_value 0 day)
  /\ DateParser_ParseISO base_mod
       (year ++ "-"%byte :: month ++ "-"%byte :: day)
     = Date_Calendar (decimal_value 0 year) (decimal_value 0 month)
         (decimal_value 0 day).
Proof.
  intros. split.
  - now apply ParseISO_basic_calendar.
  - now apply ParseISO_extended_calendar.
Qed.

Lemma ParseISO_calendar_formats_witness :
  DateParser_ParseISO (fun _ _ _ => 0) (list_byte_of_string "20160229")
  = Some (Date_ 2016 2 29)
  /\ DateParser_ParseISO (fun _ _ _ => 0) (list_byte_of_string "2016-02-29")
     = Some (Date_ 2016 2 29).
Proof.
  exact (ParseISO_calendar_formats (fun _ _ _ => 0)
           (list_byte_of_string "2016") (list_byte_of_string "02")
           (list_byte_of_string "29")
           ltac:(repeat constructor) ltac:(repeat constructor)
           ltac:(repeat constructor) eq_refl eq_refl eq_refl).
Defined.

Section StrayW.

Variable base_mod : Z -> Z -> Z -> Z.

Lemma ParseISO_eight_digits (l : list char) :
  Forall (fun c => is_decimal_digit c = true) l ->
  List.length l = 8%nat ->
  DateParser_ParseISO base_mod l = Date_YYYYMMDD (decimal_value 0 l).
Proof.
  intros Hl Hlen. unfold DateParser_ParseISO, DateParser_ReadToEnd.
  rewrite <- (app_nil_r l) at 1.
  rewrite DateParser_reads_digits by assumption. rewrite Hlen.
  reflexivity.
Qed.

Lemma ParseISO_eight_digits_and_W (l1 l2 : list char) :
  Forall (fun c => is_decimal_digit c = true) l1 ->
  Forall (fun c => is_decimal_digit c = true) l2 ->
  List.length (l1 ++ l2) = 8%nat ->
  DateParser_ParseISO base_mod (l1 ++ "W"%byte :: l2)
  = Date_YYYYMMDD (decimal_value 0 (l1 ++ l2)).
Proof.
  intros H1 H2 Hlen. unfold DateParser_ParseISO, DateParser_ReadToEnd.
  rewrite DateParser_reads_digits by assumption.
  cbn [DateParser_ReadToEnd_from].
  change (Byte.eqb "W" "-") with false. change (Byte.eqb "W" "W") with true.
  cbv iota. unfold CHECKING at 1. cbn [negb].
  rewrite <- (app_nil_r l2) at 1.
  rewrite DateParser_reads_digits by assumption.
  cbn [DateParser_ReadToEnd_from bind].
  unfold DateParser_ISOToDate, CHECKING.
  cbn [digit_count_ hyphens_ digits_].
  rewrite length_app in Hlen.
  assert (E : 0 + Z.of_nat (List.length l1) + Z.of_nat (List.length l2) = 8)
    by lia.
  rewrite E. change (8 =? 8) with true. change (0 =? 0) with true.
  cbn [orb]. now rewrite decimal_value_app.
Qed.

End StrayW.

(** X16. [DateParser::ParseISO] does not see a [W] in a date of eight
    digits: with one [W] put anywhere among the eight digits of a basic
    calendar date, before them or after them, it reads the date of the
    digits. *)
Theorem ParseISO_ignores_W_in_calendar_date
    (base_mod : Z -> Z -> Z -> Z) (l1 l2 : list char) :
  Forall (fun c => is_decimal_digit c = true) l1 ->
  Forall (fun c => is_decimal_digit c = true) l2 ->
  List.length (l1 ++ l2) = 8%nat ->
  DateParser_ParseISO base_mod (l1 ++ "W"%byte :: l2)
  = DateParser_ParseISO base_mod (l1 ++ l2).
Proof.
  intros H1 H2 Hlen.
  rewrite ParseISO_eight_digits_and_W by assumption.
  rewrite ParseISO_eight_digits;
    [reflexivity | apply Forall_app; now split | exact Hlen].
Qed.

Lemma ParseISO_ignores_W_in_calendar_date_witness :
  DateParser_ParseISO (fun _ _ _ => 0) (list_byte_of_string "2016W0229")
  = DateParser_ParseISO (fun _ _ _ => 0) (list_byte_of_string "20160229").
Proof.
  exact (ParseISO_ignores_W_in_calendar_date (fun _ _ _ => 0)
           (list_byte_of_string "2016") (list_byte_of_string "0229")
           ltac:(repeat constructor) ltac:(repeat constructor) eq_refl).
Defined.

Section ReadToEnd.

Lemma occurrences_cons (c x : char) (str : list char) :
  occurrences c (x :: str)
  = (if Byte.eqb c x then 1 else 0) + occurrences c str.
Proof.
  unfold occurrences. cbn [filter].
  destruct (Byte.eqb c x); cbn [List.length]; lia.
Qed.

Lemma occurrences_nonneg (c : char) (str : list char) :
  0 <= occurrences c str.
Proof. unfold occurrences. lia. Qed.

Lemma date_character_cases (c : char) :
  (Byte.eqb c "-" = true /\ c = "-"%byte)
  \/ (Byte.eqb c "-" = false /\ Byte.eqb c "W" = true /\ c = "W"%byte)
  \/ (Byte.eqb c "-" = false /\ Byte.eqb c "W" = false
      /\ Byte.eqb "-" c = false /\ Byte.eqb "W" c = false
      /\ date_character c = is_decimal_digit c).
Proof. destruct c; vm_compute; tauto. Qed.

(** What [ReadToEnd] makes of a string, after what it has read. *)
Lemma DateParser_ReadToEnd_from_value (str : list char) :
  forall index digits count hyphens first second (has_w : bool) w_index,
    0 <= hyphens <= 2 ->
    if forallb date_character str
       && (hyphens + occurrences "-"%byte str <=? 2)
       && ((if has_w then 1 else 0) + occurrences "W"%byte str <=? 1)
    then exists p,
        DateParser_ReadToEnd_from str index digits count hyphens first
          second has_w w_index = Some p
        /\ digits_ p = decimal_value digits (filter is_decimal_digit str)
        /\ digit_count_ p
           = count + Z.of_nat (List.length (filter is_decimal_digit str))
        /\ hyphens_ p = hyphens + occurrences "-"%byte str
        /\ has_w_ p
           = ((if has_w then 1 else 0) + occurrences "W"%byte str =? 1)
    else DateParser_ReadToEnd_from str index digits count hyphens first
           second has_w w_index = None.
Proof.
  induction str as [|c str IH];
    intros index digits count hyphens first second has_w w_index Hh.
  - unfold occurrences.
    cbn [forallb filter List.length Z.of_nat DateParser_ReadToEnd_from].
    rewrite !Z.add_0_r.
    replace (hyphens <=? 2) with true by (symmetry; apply Z.leb_le; lia).
    destruct has_w; cbn [andb]; change (1 <=? 1) with true;
      change (0 <=? 1) with true; cbv iota;
      eexists; (split; [reflexivity|]); cbn; repeat split; lia.
  - rewrite !occurrences_cons. cbn [forallb DateParser_ReadToEnd_from filter].
    pose proof (occurrences_nonneg "-"%byte str) as Hoh.
    pose proof (occurrences_nonneg "W"%byte str) as How.
    destruct (date_character_cases c)
      as [(E1 & ->) | [(E1 & E2 & ->) | (E1 & E2 & E3 & E4 & E5)]].
    + change (date_character "-"%byte) with true.
      change (Byte.eqb "-"%byte "-"%byte) with true.
      change (Byte.eqb "W"%byte "-"%byte) with false.
      change (is_decimal_digit "-"%byte) with false.
      cbv iota. cbn [andb]. rewrite Z.add_0_l. unfold CHECKING.
      destruct (Z.ltb_spec hyphens 2) as [Hlt|Hge].
      * replace (hyphens + (1 + occurrences "-"%byte str))
          with ((hyphens + 1) + occurrences "-"%byte str) by lia.
        destruct (hyphens =? 0).
        -- apply (IH (index + 1) digits count (hyphens + 1) index second
                    has_w w_index). lia.
        -- apply (IH (index + 1) digits count (hyphens + 1) first index
                    has_w w_index). lia.
      * replace (hyphens + (1 + occurrences "-"%byte str) <=? 2) with false
          by (symmetry; apply Z.leb_gt; lia).
        now rewrite andb_false_r.
    + change (date_character "W"%byte) with true.
      change (Byte.eqb "W"%byte "-"%byte) with false.
      change (Byte.eqb "-"%byte "W"%byte) with false.
      change (Byte.eqb "W"%byte "W"%byte) with true.
      change (is_decimal_digit "W"%byte) with false.
      cbv iota. cbn [andb]. rewrite Z.add_0_l. unfold CHECKING.
      destruct has_w; cbn [negb].
      * replace (1 + (1 + occurrences "W"%byte str) <=? 1) with false
          by (symmetry; apply Z.leb_gt; lia).
        now rewrite andb_false_r.
      * replace (0 + (1 + occurrences "W"%byte str))
          with (1 + occurrences "W"%byte str) by lia.
        apply (IH (index + 1) digits count hyphens first second true index).
        exact Hh.
    + rewrite E1, E2, E3, E4, E5, !Z.add_0_l. unfold CHECKING.
      destruct (is_decimal_digit c) eqn:Ec; cbn [andb]; [|reflexivity].
      cbn [List.length]. rewrite Nat2Z.inj_succ.
      change (decimal_value digits (c :: filter is_decimal_digit str))
        with (decimal_value
                (digits * 10 + int_of_uint8 c - int_of_uint8 "0"%byte)
                (filter is_decimal_digit str)).
      replace (count + Z.succ (Z.of_nat (List.length (filter is_decimal_digit str))))
        with ((count + 1)
              + Z.of_nat (List.length (filter is_decimal_digit str))) by lia.
      apply (IH (index + 1) _ (count + 1) hyphens first second has_w w_index).
      exact Hh.
Qed.

End ReadToEnd.

(** X17. [DateParser::ReadToEnd] accepts exactly the strings made of
    decimal digits, at most two hyphens and at most one [W], wherever the
    hyphens and the [W] stand; every other string fails a check.  For an
    accepted string the parser holds the number written by the digits
    alone, how many digits and hyphens there were, and whether there was a
    [W].  This is for strings of at most eighteen digits, whose number is
    below 10 ** 18 and so an [int64_t], and of fewer than 2 ** 31
    characters, whose indices are [int]s. *)
Theorem DateParser_ReadToEnd_accepts (str : list char) :
  (List.length (filter is_decimal_digit str) <= 18)%nat ->
  Z.of_nat (List.length str) < 2 ^ 31 ->
  (DateParser_ReadToEnd str <> None
   <-> forallb date_character str = true
       /\ occurrences "-"%byte str <= 2
       /\ occurrences "W"%byte str <= 1)
  /\ (forall p,
        DateParser_ReadToEnd str = Some p ->
        digits_ p = decimal_value 0 (filter is_decimal_digit str)
        /\ 0 <= digits_ p < 10 ^ 18
        /\ digit_count_ p
           = Z.of_nat (List.length (filter is_decimal_digit str))
        /\ hyphens_ p = occurrences "-"%byte str
        /\ has_w_ p = (occurrences "W"%byte str =? 1)).
Proof.
  intros Hdigits Hlength.
  assert (Hbound : 0 <= decimal_value 0 (filter is_decimal_digit str)
                   < 10 ^ 18).
  { assert (Hf : Forall (fun c => is_decimal_digit c = true)
                   (filter is_decimal_digit str)).
    { apply Forall_forall. intros c Hc. now apply filter_In in Hc. }
    destruct (decimal_value_bounds _ Hf 0 ltac:(lia)) as [_ B].
    assert (10 ^ Z.of_nat (List.length (filter is_decimal_digit str))
            <= 10 ^ 18) by (apply Z.pow_le_mono_r; lia).
    lia. }
  pose proof (DateParser_ReadToEnd_from_value str 0 0 0 0 (-1) (-1) false
                (-1) ltac:(lia)) as H.
  fold (DateParser_ReadToEnd str) in H. rewrite !Z.add_0_l in H.
  destruct (forallb date_character str); cbn [andb] in H.
  - destruct (Z.leb_spec (occurrences "-"%byte str) 2) as [Hh|Hh];
      cbn [andb] in H.
    + destruct (Z.leb_spec (occurrences "W"%byte str) 1) as [Hw|Hw].
      * destruct H as (p & E & H1 & H2 & H3 & H4). rewrite E. split.
        -- split; [now intros _ | discriminate].
        -- intros q [= <-]. rewrite H1. repeat split; try assumption; lia.
      * rewrite H. split; [|discriminate].
        split; [now intros [] | intros (_ & _ & C); lia].
    + rewrite H. split; [|discriminate].
      split; [now intros [] | intros (_ & C & _); lia].
  - rewrite H. split; [|discriminate].
    split; [now intros [] | intros (C & _); discriminate].
Qed.

Lemma DateParser_ReadToEnd_accepts_witness :
  DateParser_ReadToEnd (list_byte_of_string "2016-W05-3") <> None.
Proof.
  apply (proj1 (DateParser_ReadToEnd_accepts
                  (list_byte_of_string "2016-W05-3")
                  ltac:(cbn; lia) ltac:(vm_compute; reflexivity))).
  split; [reflexivity | split; vm_compute; discriminate].
Defined.

(** ** Times of day, ends of days and searching in strings *)

Section TimesOfDay.

Lemma hhmmss_parts (h m s : Z) :
  0 <= h <= 99 -> 0 <= m <= 99 -> 0 <= s <= 99 ->
  digit_range (h * 10000 + m * 100 + s) 4 6 = Some h
  /\ digit_range (h * 10000 + m * 100 + s) 2 4 = Some m
  /\ digit_range (h * 10000 + m * 100 + s) 0 2 = Some s.
Proof.
  intros Hh Hm Hs. rewrite !digit_range_value by lia.
  change (10 ^ 4) with 10000. change (10 ^ (6 - 4)) with 100.
  change (10 ^ 2) with 100. change (10 ^ (4 - 2)) with 100.
  change (10 ^ 0) with 1. change (10 ^ (2 - 0)) with 100.
  repeat split; f_equal.
  - replace (h * 10000 + m * 100 + s) with (h * 10000 + (m * 100 + s))
      by lia.
    rewrite Z.div_add_l, (Z.div_small (m * 100 + s)) by lia.
    rewrite Z.add_0_r. apply Z.mod_small. lia.
  - replace (h * 10000 + m * 100 + s) with ((h * 100 + m) * 100 + s)
      by lia.
    rewrite Z.div_add_l, (Z.div_small s) by lia.
    rewrite Z.add_0_r, Z.add_comm, Z.mod_add by lia.
    apply Z.mod_small. lia.
  - rewrite Z.div_1_r.
    replace (h * 10000 + m * 100 + s) with (s + (h * 100 + m) * 100)
      by lia.
    rewrite Z.mod_add by lia. apply Z.mod_small. lia.
Qed.

Lemma Time_checked_value (h m s ms : Z) :
  0 <= h -> 0 <= m -> 0 <= s -> 0 <= ms <= 999 ->
  Time_checked (Time_ h m s ms)
  = if ((h <=? 23) && (m <=? 59) && (s <=? 59))
       || ((h =? 23) && (m =? 59) && (s =? 60))
       || ((h =? 24) && (m =? 0) && (s =? 0) && (ms =? 0))
    then Some (Time_ h m s ms) else None.
Proof.
  intros Hh Hm Hs Hms. unfold Time_checked, CHECKING.
  cbn [hour_ minute_ second_ millisecond_].
  match goal with
  | |- (if ?a then _ else _) = (if ?b then _ else _) =>
      replace a with b; [reflexivity|]
  end.
  apply eq_true_iff_eq.
  rewrite !orb_true_iff, !andb_true_iff, !orb_true_iff, !andb_true_iff,
    !Z.eqb_eq, !Z.leb_le, !Z.geb_le.
  lia.
Qed.

Lemma Date_eq_same (date : Date) : Date_eq date date = true.
Proof. unfold Date_eq. now rewrite !Z.eqb_refl. Qed.

End TimesOfDay.

(** X18. [Time::hhmmss_ms] on the digits hhmmss and a number of
    milliseconds below 1000 gives the time of these hours, minutes, seconds
    and milliseconds when it is a time of the day up to 23:59:59.999, a leap
    second 23:59:60, or the end of the day 24:00:00.000; it fails a check
    for every other two-digit hour, minute and second. *)
Theorem Time_hhmmss_ms_times (h m s ms : Z) :
  0 <= h <= 99 -> 0 <= m <= 99 -> 0 <= s <= 99 -> 0 <= ms <= 999 ->
  Time_hhmmss_ms (h * 10000 + m * 100 + s) ms
  = if ((h <=? 23) && (m <=? 59) && (s <=? 59))
       || ((h =? 23) && (m =? 59) && (s =? 60))
       || ((h =? 24) && (m =? 0) && (s =? 0) && (ms =? 0))
    then Some (Time_ h m s ms) else None.
Proof.
  intros Hh Hm Hs Hms. unfold Time_hhmmss_ms, CHECKING.
  destruct (Z.geb_spec (h * 10000 + m * 100 + s) 0); [|lia].
  destruct (Z.leb_spec (h * 10000 + m * 100 + s) 999999); [|lia].
  cbn [andb].
  destruct (hhmmss_parts h m s Hh Hm Hs) as (-> & -> & ->).
  cbn [bind]. rewrite Time_Time_same by lia.
  apply Time_checked_value; lia.
Qed.

Lemma Time_hhmmss_ms_times_witness :
  Time_hhmmss_ms (23 * 10000 + 59 * 100 + 60) 500 = Some (Time_ 23 59 60 500)
  /\ Time_hhmmss_ms (24 * 10000 + 0 * 100 + 0) 1 = None.
Proof.
  split.
  - apply (Time_hhmmss_ms_times 23 59 60 500); lia.
  - apply (Time_hhmmss_ms_times 24 0 0 1); lia.
Defined.

(** X19. [operator==] on [DateTime]s takes the end of a day for the
    beginning of the next one: 24:00:00 on a date is equal to 00:00:00 on
    [next_day()] of that date, whatever the date and whether or not the two
    were written as Julian dates. *)
Theorem DateTime_eq_end_of_day (date : Date) (jd jd' : bool) :
  DateTime_eq (DateTime_ date (Time_ 24 0 0 0) jd)
    (DateTime_ (Date_next_day date) (Time_ 0 0 0 0) jd')
  = Some true.
Proof.
  unfold DateTime_eq, DateTime_normalized_end_of_day, Time_is_end_of_day,
    DateTime_BeginningOfDay.
  cbn [time_ date_ hour_].
  change (24 =? 24) with true. change (0 =? 24) with false. cbv iota.
  change (Time_hhmmss_ms 0 0) with (Some (Time_ 0 0 0 0)).
  cbn [bind date_ time_]. now rewrite Date_eq_same.
Qed.

Section Searching.

Lemma Byte_eqb_eq (a b : char) : Byte.eqb a b = true <-> a = b.
Proof.
  split; [apply Byte.byte_dec_bl | apply Byte.byte_dec_lb].
Qed.

Lemma index_of_found (str : list char) (c : char) :
  forall i,
    index_of str c = Some i ->
    0 <= i
    /\ nth_error str (Z.to_nat i) = Some c
    /\ (forall j, (j < Z.to_nat i)%nat -> nth_error str j <> Some c).
Proof.
  induction str as [|c0 str IH]; intros i; cbn [index_of];
    [discriminate|].
  destruct (Byte.eqb c0 c) eqn:E.
  - intros [= <-]. apply Byte_eqb_eq in E. subst c0.
    repeat split; [lia|]. intros j Hj. cbn in Hj. lia.
  - destruct (index_of str c) as [k|]; cbn [bind]; [|discriminate].
    intros [= <-]. destruct (IH k eq_refl) as (Hk & Hn & Hbefore).
    replace (Z.to_nat (k + 1)) with (S (Z.to_nat k)) by lia.
    repeat split; [lia | exact Hn |].
    intros [|j] Hj; cbn [nth_error].
    + intros [= ->]. assert (F : Byte.eqb c c = true) by now apply Byte_eqb_eq.
      congruence.
    + apply Hbefore. lia.
Qed.

Lemma contains_In (str : list char) (c : char) :
  contains str c = true <-> In c str.
Proof.
  induction str as [|c0 str IH]; cbn [contains In].
  - split; [discriminate | tauto].
  - rewrite orb_true_iff, Byte_eqb_eq, IH. tauto.
Qed.

Lemma index_of_contains (str : list char) (c : char) :
  index_of str c = None <-> contains str c = false.
Proof.
  induction str as [|c0 str IH]; cbn [index_of contains]; [tauto|].
  destruct (Byte.eqb c0 c); cbn [orb]; [split; discriminate|].
  rewrite <- IH. destruct (index_of str c); cbn [bind];
    split; congruence.
Qed.

End Searching.

(** X20. [index_of(str, size, c)] is the index of the first [c] of the
    string: the character at this index is [c] and no character before it
    is; it fails a check exactly when [contains(str, size, c)] is false,
    that is, when [c] is nowhere in the string. *)
Theorem index_of_first (str : list char) (c : char) :
  (forall i,
      index_of str c = Some i ->
      0 <= i
      /\ nth_error str (Z.to_nat i) = Some c
      /\ (forall j, (j < Z.to_nat i)%nat -> nth_error str j <> Some c))
  /\ (index_of str c = None <-> contains str c = false)
  /\ (contains str c = true <-> In c str).
Proof.
  split; [apply index_of_found|].
  split; [apply index_of_contains | apply contains_In].
Qed.

Lemma index_of_first_witness :
  0 <= 10
  /\ nth_error (list_byte_of_string "2016-02-29T24:00:00") (Z.to_nat 10)
     = Some "T"%byte
  /\ (forall j, (j < Z.to_nat 10)%nat ->
                nth_error (list_byte_of_string "2016-02-29T24:00:00") j
                <> Some "T"%byte).
Proof.
  apply (proj1 (index_of_first (list_byte_of_string "2016-02-29T24:00:00")
                  "T"%byte)).
  reflexivity.
Defined.

(** ** The ISO 8601 representations of a time *)

Section TimeFormats.

Lemma shift_left_negative (x count : Z) :
  count < 0 -> shift_left x count = None.
Proof.
  intros Hc. unfold shift_left.
  destruct (Z.to_nat count); cbn [shift_left_rec]; unfold CHECKING;
    destruct (Z.geb_spec count 0); try reflexivity; lia.
Qed.

(** [ISOToTime] on the digits of a time [V] and of a fraction [F] of [k]
    digits, when the marks are where the format wants them. *)
Lemma ISOToTime_parts (V F k colons first second mark_index : Z)
    (has_mark : bool) :
  0 <= V -> 0 <= k <= 9 -> 0 <= F < 10 ^ k ->
  ((colons =? 0)
   || ((colons =? 2) && (first =? 2) && (second =? 5))) = true ->
  (((6 + k =? 6) && negb has_mark)
   || (has_mark
       && (((colons =? 0) && (mark_index =? 6))
           || (negb (colons =? 0) && (mark_index =? 8))))) = true ->
  TimeParser_ISOToTime
    (TimeParser_ (V * 10 ^ k + F) (6 + k) colons first second has_mark
       mark_index)
  = if k <=? 3
    then Time_hhmmss_ms (V mod 10 ^ 6) (F * 10 ^ (3 - k))
    else None.
Proof.
  intros HV Hk HF Hcolons Hmark.
  unfold TimeParser_ISOToTime, CHECKING.
  cbn [t_digit_count_ t_digits_ colons_ first_colon_index_
         second_colon_index_ has_decimal_mark_ decimal_mark_index_].
  rewrite Hcolons, Hmark.
  destruct (Z.geb_spec (6 + k) 6); [|lia].
  destruct (Z.leb_spec (6 + k) 15); [|lia]. cbn [andb].
  assert (Hpow : 0 < 10 ^ k) by (apply Z.pow_pos_nonneg; lia).
  rewrite !digit_range_value by nia.
  replace (6 + k - 6) with k by lia.
  replace (6 + k - k) with 6 by lia.
  replace ((V * 10 ^ k + F) / 10 ^ k) with V
    by (apply (Z.div_unique _ _ _ F); lia).
  change (10 ^ 0) with 1. rewrite Z.div_1_r, Z.sub_0_r.
  replace ((V * 10 ^ k + F) mod 10 ^ k) with F
    by (apply (Z.mod_unique _ _ V); lia).
  cbn [bind].
  destruct (Z.leb_spec k 3) as [Hle|Hgt].
  - unfold shift_left. rewrite shift_left_rec_value by lia. reflexivity.
  - rewrite shift_left_negative by lia. reflexivity.
Qed.

Variables hh mm ss : list char.
Hypothesis hh_digits : Forall (fun c => is_decimal_digit c = true) hh.
Hypothesis mm_digits : Forall (fun c => is_decimal_digit c = true) mm.
Hypothesis ss_digits : Forall (fun c => is_decimal_digit c = true) ss.
Hypothesis hh_length : List.length hh = 2%nat.
Hypothesis mm_length : List.length mm = 2%nat.
Hypothesis ss_length : List.length ss = 2%nat.

Lemma time_digits_value :
  0 <= decimal_value 0 (hh ++ mm ++ ss) < 10 ^ 6.
Proof.
  assert (H : Forall (fun c => is_decimal_digit c = true) (hh ++ mm ++ ss))
    by (repeat (apply Forall_app; split); assumption).
  destruct (decimal_value_bounds _ H 0 ltac:(lia)) as [_ B].
  rewrite !length_app, hh_length, mm_length, ss_length in B. exact B.
Qed.

Lemma fraction_digits_value (f : list char) :
  Forall (fun c => is_decimal_digit c = true) f ->
  decimal_value 0 ((hh ++ mm ++ ss) ++ f)
  = decimal_value 0 (hh ++ mm ++ ss) * 10 ^ Z.of_nat (List.length f)
    + decimal_value 0 f
  /\ 0 <= decimal_value 0 f < 10 ^ Z.of_nat (List.length f).
Proof.
  intros Hf. rewrite decimal_value_app.
  pose proof time_digits_value as HV.
  apply decimal_value_bounds; [exact Hf | lia].
Qed.

Lemma ParseISO_basic_time (mark : char) (f : list char) :
  mark = ","%byte \/ mark = "."%byte ->
  Forall (fun c => is_decimal_digit c = true) f ->
  TimeParser_ParseISO (hh ++ mm ++ ss)
  = TimeParser_ISOToTime
      (TimeParser_ (decimal_value 0 (hh ++ mm ++ ss) * 10 ^ 0 + 0) (6 + 0)
         0 (-1) (-1) false (-1))
  /\ TimeParser_ParseISO ((hh ++ mm ++ ss) ++ mark :: f)
     = TimeParser_ISOToTime
         (TimeParser_
            (decimal_value 0 (hh ++ mm ++ ss)
             * 10 ^ Z.of_nat (List.length f) + decimal_value 0 f)
            (6 + Z.of_nat (List.length f)) 0 (-1) (-1) true 6).
Proof.
  intros Hmark Hf.
  assert (H : Forall (fun c => is_decimal_digit c = true) (hh ++ mm ++ ss))
    by (repeat (apply Forall_app; split); assumption).
  assert (Hlen : Z.of_nat (List.length (hh ++ mm ++ ss)) = 6)
    by (rewrite !length_app, hh_length, mm_length, ss_length; reflexivity).
  unfold TimeParser_ParseISO, TimeParser_ReadToEnd. split.
  - rewrite <- (app_nil_r (hh ++ mm ++ ss)) at 1.
    rewrite TimeParser_reads_digits by exact H. rewrite Hlen.
    cbn [TimeParser_ReadToEnd_from bind].
    do 2 f_equal; lia.
  - rewrite TimeParser_reads_digits by exact H. rewrite Hlen.
    cbn [TimeParser_ReadToEnd_from].
    replace (Byte.eqb mark ":") with false
      by (destruct Hmark as [-> | ->]; reflexivity).
    replace (Byte.eqb mark "," || Byte.eqb mark ".") with true
      by (destruct Hmark as [-> | ->]; reflexivity).
    unfold CHECKING at 1. cbn [negb].
    rewrite <- (app_nil_r f) at 1.
    rewrite TimeParser_reads_digits by exact Hf.
    cbn [TimeParser_ReadToEnd_from bind].
    destruct (fraction_digits_value f Hf) as [E _].
    rewrite decimal_value_app in E. rewrite E.
    do 2 f_equal; lia.
Qed.

Lemma ParseISO_extended_time (mark : char) (f : list char) :
  mark = ","%byte \/ mark = "."%byte ->
  Forall (fun c => is_decimal_digit c = true) f ->
  TimeParser_ParseISO (hh ++ ":"%byte :: mm ++ ":"%byte :: ss)
  = TimeParser_ISOToTime
      (TimeParser_ (decimal_value 0 (hh ++ mm ++ ss) * 10 ^ 0 + 0) (6 + 0)
         2 2 5 false (-1))
  /\ TimeParser_ParseISO
       (hh ++ ":"%byte :: mm ++ ":"%byte :: ss ++ mark :: f)
     = TimeParser_ISOToTime
         (TimeParser_
            (decimal_value 0 (hh ++ mm ++ ss)
             * 10 ^ Z.of_nat (List.length f) + decimal_value 0 f)
            (6 + Z.of_nat (List.length f)) 2 2 5 true 8).
Proof.
  intros Hmark Hf.
  assert (Hread : forall rest,
             TimeParser_ReadToEnd_from
               (hh ++ ":"%byte :: mm ++ ":"%byte :: ss ++ rest)
               0 0 0 0 (-1) (-1) false (-1)
             = TimeParser_ReadToEnd_from rest 8
                 (decimal_value 0 (hh ++ mm ++ ss)) 6 2 2 5 false (-1)).
  { intros rest.
    rewrite TimeParser_reads_digits by assumption.
    cbn [TimeParser_ReadToEnd_from]. change (Byte.eqb ":" ":") with true.
    unfold CHECKING. change (0 <? 2) with true. change (0 =? 0) with true.
    cbv iota.
    rewrite TimeParser_reads_digits by assumption.
    cbn [TimeParser_ReadToEnd_from]. change (Byte.eqb ":" ":") with true.
    unfold CHECKING. change (0 + 1 <? 2) with true.
    change (0 + 1 =? 0) with false. cbv iota.
    rewrite TimeParser_reads_digits by assumption.
    rewrite hh_length, mm_length, ss_length.
    rewrite !decimal_value_app. f_equal. }
  unfold TimeParser_ParseISO, TimeParser_ReadToEnd. split.
  - rewrite <- (app_nil_r ss) at 1. rewrite Hread.
    cbn [TimeParser_ReadToEnd_from bind].
    do 2 f_equal; lia.
  - rewrite Hread. cbn [TimeParser_ReadToEnd_from].
    replace (Byte.eqb mark ":") with false
      by (destruct Hmark as [-> | ->]; reflexivity).
    replace (Byte.eqb mark "," || Byte.eqb mark ".") with true
      by (destruct Hmark as [-> | ->]; reflexivity).
    unfold CHECKING at 1. cbn [negb].
    rewrite <- (app_nil_r f) at 1.
    rewrite TimeParser_reads_digits by exact Hf.
    cbn [TimeParser_ReadToEnd_from bind].
    destruct (fraction_digits_value f Hf) as [E _].
    rewrite decimal_value_app in E. rewrite E.
    do 2 f_equal; lia.
Qed.

End TimeFormats.

(** X29. [TimeParser::ParseISO] reads the basic format hhmmss and the
    extended format hh:mm:ss alike, as [Time::hhmmss_ms] of the six digits;
    a fraction of one to three digits after a comma or a point gives the
    milliseconds.  A fraction of four to nine digits fails a check, in
    [shift_left], although [ISOToTime] lets up to fifteen digits in. *)
Theorem ParseISO_time_formats
    (hh mm ss f : list char) (mark : char) :
  Forall (fun c => is_decimal_digit c = true) hh ->
  Forall (fun c => is_decimal_digit c = true) mm ->
  Forall (fun c => is_decimal_digit c = true) ss ->
  Forall (fun c => is_decimal_digit c = true) f ->
  List.length hh = 2%nat -> List.length mm = 2%nat ->
  List.length ss = 2%nat ->
  mark = ","%byte \/ mark = "."%byte ->
  let hhmmss := decimal_value 0 (hh ++ mm ++ ss) in
  let k := Z.of_nat (List.length f) in
  TimeParser_ParseISO (hh ++ mm ++ ss) = Time_hhmmss_ms hhmmss 0
  /\ TimeParser_ParseISO (hh ++ ":"%byte :: mm ++ ":"%byte :: ss)
     = Time_hhmmss_ms hhmmss 0
  /\ (1 <= k <= 3 ->
      TimeParser_ParseISO ((hh ++ mm ++ ss) ++ mark :: f)
      = Time_hhmmss_ms hhmmss (decimal_value 0 f * 10 ^ (3 - k))
      /\ TimeParser_ParseISO
           (hh ++ ":"%byte :: mm ++ ":"%byte :: ss ++ mark :: f)
         = Time_hhmmss_ms hhmmss (decimal_value 0 f * 10 ^ (3 - k)))
  /\ (4 <= k <= 9 ->
      TimeParser_ParseISO ((hh ++ mm ++ ss) ++ mark :: f) = None
      /\ TimeParser_ParseISO
           (hh ++ ":"%byte :: mm ++ ":"%byte :: ss ++ mark :: f)
         = None).
Proof.
  intros Hhh Hmm Hss Hf Lhh Lmm Lss Hmark hhmmss k.
  pose proof (time_digits_value hh mm ss Hhh Hmm Hss Lhh Lmm Lss) as HV.
  fold hhmmss in HV.
  destruct (fraction_digits_value hh mm ss Hhh Hmm Hss Lhh Lmm Lss f Hf)
    as [_ HF].
  fold k in HF.
  destruct (ParseISO_basic_time hh mm ss Hhh Hmm Hss Lhh Lmm Lss mark f
              Hmark Hf) as [B0 B1].
  destruct (ParseISO_extended_time hh mm ss Hhh Hmm Hss Lhh Lmm Lss mark f
              Hmark Hf) as [E0 E1].
  fold hhmmss in B0, B1, E0, E1. fold k in B1, E1.
  assert (Hmod : hhmmss mod 10 ^ 6 = hhmmss) by (apply Z.mod_small; lia).
  assert (Hmark0 : forall b : bool, (b && negb true || true) = true)
    by (intros []; reflexivity).
  split; [|split; [|split]].
  - rewrite B0, ISOToTime_parts by first [lia | reflexivity].
    now rewrite Hmod.
  - rewrite E0, ISOToTime_parts by first [lia | reflexivity].
    now rewrite Hmod.
  - intros Hk. split.
    + rewrite B1, ISOToTime_parts
        by first [lia | reflexivity | apply Hmark0].
      destruct (Z.leb_spec k 3); [now rewrite Hmod | lia].
    + rewrite E1, ISOToTime_parts
        by first [lia | reflexivity | apply Hmark0].
      destruct (Z.leb_spec k 3); [now rewrite Hmod | lia].
  - intros Hk. split.
    + rewrite B1, ISOToTime_parts
        by first [lia | reflexivity | apply Hmark0].
      destruct (Z.leb_spec k 3); [lia | reflexivity].
    + rewrite E1, ISOToTime_parts
        by first [lia | reflexivity | apply Hmark0].
      destruct (Z.leb_spec k 3); [lia | reflexivity].
Qed.

Lemma ParseISO_time_formats_witness :
  TimeParser_ParseISO (list_byte_of_string "12:34:56,789")
  = Time_hhmmss_ms (decimal_value 0 (list_byte_of_string "123456"))
      (decimal_value 0 (list_byte_of_string "789") * 10 ^ (3 - 3))
  /\ TimeParser_ParseISO (list_byte_of_string "123456.7891") = None.
Proof.
  split.
  - apply (ParseISO_time_formats
             (list_byte_of_string "12") (list_byte_of_string "34")
             (list_byte_of_string "56") (list_byte_of_string "789")
             ","%byte);
      solve [repeat constructor | reflexivity | now left
            | vm_compute; split; discriminate].
  - apply (ParseISO_time_formats
             (list_byte_of_string "12") (list_byte_of_string "34")
             (list_byte_of_string "56") (list_byte_of_string "7891")
             "."%byte);
      solve [repeat constructor | reflexivity | now right
            | vm_compute; split; discriminate].
Defined.

(** ** More on the hexadecimal codec of base/hexadecimal_body.hpp *)

Section Canonical.

Lemma int_of_uint8_of_int (z : Z) :
  0 <= z < 256 -> int_of_uint8 (uint8_of_int z) = z.
Proof.
  intros Hz. unfold int_of_uint8, uint8_of_int.
  rewrite Z.mod_small by lia.
  destruct (Byte.of_N (Z.to_N z)) as [b|] eqn:E.
  - apply Byte.to_of_N in E. rewrite E. lia.
  - apply Byte.of_N_None_iff in E. lia.
Qed.

Lemma nibbles_joined (a b : Z) :
  0 <= a < 16 -> 0 <= b < 16 -> Z.lor (Z.shiftl a 4) b = 16 * a + b.
Proof.
  intros Ha Hb.
  assert (Hall : forallb
                   (fun x => forallb
                      (fun y => Z.lor (Z.shiftl (Z.of_nat x) 4) (Z.of_nat y)
                                =? 16 * Z.of_nat x + Z.of_nat y)
                      (seq 0 16))
                   (seq 0 16) = true) by (vm_compute; reflexivity).
  rewrite forallb_forall in Hall.
  specialize (Hall (Z.to_nat a)). rewrite forallb_forall in Hall.
  specialize (Hall ltac:(apply in_seq; lia) (Z.to_nat b)
                ltac:(apply in_seq; lia)).
  rewrite !Z2Nat.id in Hall by lia. now apply Z.eqb_eq.
Qed.

Lemma digit_value_range (c : byte) : 0 <= digit_value c < 16.
Proof. rewrite <- nibble_at_digit_value. apply nibble_at_range. Qed.

(** The byte of two digits has the value of the two-digit numeral. *)
Lemma decode_pair_value (hi lo : byte) :
  int_of_uint8 (decode_pair hi lo) = 16 * digit_value hi + digit_value lo.
Proof.
  unfold decode_pair. rewrite !nibble_at_digit_value.
  pose proof (digit_value_range hi). pose proof (digit_value_range lo).
  rewrite nibbles_joined by assumption.
  apply int_of_uint8_of_int. lia.
Qed.

Lemma upper_digit_digit_value (c : byte) :
  is_hex_digit c = true -> upper_digit (digit_value c) = upper_hex c.
Proof. destruct c; vm_compute; intros H; solve [reflexivity | discriminate H]. Qed.

Lemma hex_of_decode_pair (hi lo : byte) :
  is_hex_digit hi = true -> is_hex_digit lo = true ->
  hex_of_byte (decode_pair hi lo) = [upper_hex hi; upper_hex lo].
Proof.
  intros Hhi Hlo. unfold hex_of_byte. rewrite decode_pair_value.
  pose proof (digit_value_range hi). pose proof (digit_value_range lo).
  replace ((16 * digit_value hi + digit_value lo) / 16) with (digit_value hi)
    by (apply (Z.div_unique _ 16 _ (digit_value lo)); lia).
  replace ((16 * digit_value hi + digit_value lo) mod 16)
    with (digit_value lo)
    by (apply (Z.mod_unique _ 16 (digit_value hi)); lia).
  now rewrite !upper_digit_digit_value.
Qed.

Lemma encode_list_decode_list (k : nat) :
  forall T,
    List.length T = (2 * k)%nat ->
    Forall (fun c => is_hex_digit c = true) T ->
    encode_list (decode_list T) = map upper_hex T.
Proof.
  induction k as [|k IH]; intros T Hlen Hhex.
  - destruct T; [reflexivity | discriminate].
  - destruct T as [|hi [|lo T]]; try (cbn in Hlen; lia).
    inversion Hhex as [|? ? Hhi Hrest]; subst.
    inversion Hrest as [|? ? Hlo Htail]; subst.
    cbn [decode_list map]. unfold encode_list. cbn [flat_map].
    fold (encode_list (decode_list T)).
    rewrite hex_of_decode_pair by assumption.
    rewrite IH; [reflexivity | cbn in Hlen; lia | assumption].
Qed.

Lemma length_decode_list (k : nat) :
  forall T, List.length T = (2 * k)%nat -> List.length (decode_list T) = k.
Proof.
  induction k as [|k IH]; intros T Hlen.
  - destruct T; [reflexivity | discriminate].
  - destruct T as [|hi [|lo T]]; try (cbn in Hlen; lia).
    cbn [decode_list List.length]. f_equal. apply IH. cbn in Hlen. lia.
Qed.

Lemma hex_of_byte_upper (b : byte) :
  Forall (fun c => is_hex_digit c = true /\ upper_hex c = c) (hex_of_byte b).
Proof. destruct b; vm_compute; repeat constructor. Qed.

Lemma encode_list_upper (l : list byte) :
  Forall (fun c => is_hex_digit c = true /\ upper_hex c = c) (encode_list l).
Proof.
  induction l as [|b l IH]; [constructor|].
  unfold encode_list. cbn [flat_map]. apply Forall_app.
  split; [apply hex_of_byte_upper | exact IH].
Qed.

End Canonical.

(** X21. Decoding a text of hexadecimal digits and encoding the bytes again
    gives the text in upper case: [HexadecimalEncode] after
    [HexadecimalDecode] is the identity on texts of an even number of the
    digits 0-9 and A-F, and puts the letters a-f of a text in upper
    case. *)
Theorem hexadecimal_canonical
    (T : list byte) (m : memory)
    (input decoded decoded_size encoded encoded_size : Z) (k : nat) :
  let size := Z.of_nat (List.length T) in
  List.length T = (2 * k)%nat ->
  Forall (fun c => is_hex_digit c = true) T ->
  load m input (List.length T) = T ->
  size / 2 <= decoded_size ->
  size <= encoded_size ->
  int64_range encoded_size ->
  decode_overlap_ok input size decoded ->
  encode_overlap_ok decoded (size / 2) encoded ->
  exists m1 m2,
    HexadecimalDecode m input size decoded decoded_size = Returns m1
    /\ HexadecimalEncode m1 decoded (size / 2) encoded encoded_size
       = Returns m2
    /\ load m2 encoded (List.length T) = map upper_hex T.
Proof.
  intros size Hlen Hhex Hload Hdsize Hesize Hrange Hdgeo Hegeo.
  assert (Hsize : size = 2 * Z.of_nat k) by (unfold size; lia).
  assert (Hhalf : size / 2 = Z.of_nat k).
  { rewrite Hsize, Z.mul_comm. apply Z.div_mul. lia. }
  destruct (HexadecimalDecode_returns m input size decoded decoded_size)
    as (m1 & Hdec & Hout1 & _); [lia | | lia |].
  { rewrite Hhalf, <- Hsize. exact Hdgeo. }
  destruct (HexadecimalEncode_returns m1 decoded (size / 2) encoded
              encoded_size)
    as (m2 & Henc & Hout2 & _); [lia | exact Hegeo | lia | exact Hrange |].
  exists m1, m2. split; [exact Hdec|]. split; [exact Henc|].
  rewrite Hhalf, Nat2Z.id in Hout1, Hout2.
  unfold size in Hout1. rewrite Nat2Z.id, Hload in Hout1.
  rewrite Hout1 in Hout2.
  rewrite (encode_list_decode_list k T Hlen Hhex) in Hout2.
  rewrite <- Hout2. f_equal. lia.
Qed.

Lemma hexadecimal_canonical_witness :
  exists m1 m2,
    HexadecimalDecode (fill blank 0 (list_byte_of_string "c0FfeE")) 0 6 10 3
    = Returns m1
    /\ HexadecimalEncode m1 10 (6 / 2) 20 6 = Returns m2
    /\ load m2 20 6 = list_byte_of_string "C0FFEE".
Proof.
  apply (hexadecimal_canonical (list_byte_of_string "c0FfeE")
           (fill blank 0 (list_byte_of_string "c0FfeE")) 0 10 3 20 6 3).
  - reflexivity.
  - repeat constructor.
  - reflexivity.
  - vm_compute. discriminate.
  - vm_compute. discriminate.
  - unfold int64_range. lia.
  - unfold decode_overlap_ok. vm_compute. right. discriminate.
  - unfold encode_overlap_ok. vm_compute. left. discriminate.
Defined.

(** X22. On texts of hexadecimal digits [HexadecimalDecode] loses the case
    of the letters and nothing else: two texts of the same even size that
    decode to the same bytes are the same up to the case of their
    letters. *)
Theorem HexadecimalDecode_injective_up_to_case
    (m m' r r' : memory) (input input_size output output_size : Z) :
  0 <= input_size ->
  Z.even input_size = true ->
  input_size / 2 <= output_size ->
  decode_overlap_ok input input_size output ->
  Forall (fun c => is_hex_digit c = true)
    (load m input (Z.to_nat input_size)) ->
  Forall (fun c => is_hex_digit c = true)
    (load m' input (Z.to_nat input_size)) ->
  HexadecimalDecode m input input_size output output_size = Returns r ->
  HexadecimalDecode m' input input_size output output_size = Returns r' ->
  load r output (Z.to_nat (input_size / 2))
  = load r' output (Z.to_nat (input_size / 2)) ->
  same_up_to_case (load m input (Z.to_nat input_size))
                  (load m' input (Z.to_nat input_size)).
Proof.
  intros Hn Heven Hsize Hgeo Hhex Hhex' Hr Hr' Hsame.
  apply Z.even_spec in Heven. destruct Heven as [h Hh].
  assert (Hhalf : input_size / 2 = h).
  { rewrite Hh, Z.mul_comm. apply Z.div_mul. lia. }
  assert (Hlen : forall mm,
             List.length (load mm input (Z.to_nat input_size))
             = (2 * Z.to_nat h)%nat).
  { intros mm. rewrite length_load. lia. }
  destruct (HexadecimalDecode_returns m input input_size output output_size)
    as (r0 & Hr0 & Hout & _); [lia | | lia |].
  { rewrite Hhalf, <- Hh. exact Hgeo. }
  destruct (HexadecimalDecode_returns m' input input_size output output_size)
    as (r0' & Hr0' & Hout' & _); [lia | | lia |].
  { rewrite Hhalf, <- Hh. exact Hgeo. }
  assert (r0 = r) by congruence. assert (r0' = r') by congruence.
  subst r0 r0'. unfold same_up_to_case.
  rewrite <- (encode_list_decode_list _ _ (Hlen m) Hhex).
  rewrite <- (encode_list_decode_list _ _ (Hlen m') Hhex').
  now rewrite <- Hout, <- Hout', Hsame.
Qed.

Lemma HexadecimalDecode_injective_up_to_case_witness :
  same_up_to_case
    (load (fill blank 0 (list_byte_of_string "c0FfeE")) 0 (Z.to_nat 6))
    (load (fill blank 0 (list_byte_of_string "C0fFEe")) 0 (Z.to_nat 6)).
Proof.
  destruct (HexadecimalDecode
              (fill blank 0 (list_byte_of_string "c0FfeE")) 0 6 10 3)
    as [r| |] eqn:Hr; try discriminate Hr.
  destruct (HexadecimalDecode
              (fill blank 0 (list_byte_of_string "C0fFEe")) 0 6 10 3)
    as [r'| |] eqn:Hr'; try discriminate Hr'.
  apply (HexadecimalDecode_injective_up_to_case _ _ r r' 0 6 10 3).
  - lia.
  - reflexivity.
  - vm_compute. discriminate.
  - unfold decode_overlap_ok. lia.
  - repeat constructor.
  - repeat constructor.
  - exact Hr.
  - exact Hr'.
  - injection Hr as <-. injection Hr' as <-. reflexivity.
Defined.

(** X23. [HexadecimalEncode] writes nothing but the sixteen characters 0-9
    and A-F: every byte of the text it leaves in the output is an
    upper-case hexadecimal digit, so that the text holds no NUL, no line
    break and no lower-case letter. *)
Theorem HexadecimalEncode_alphabet
    (m : memory) (input input_size output output_size : Z) :
  0 <= input_size ->
  2 * input_size <= output_size ->
  int64_range output_size ->
  encode_overlap_ok input input_size output ->
  exists m',
    HexadecimalEncode m input input_size output output_size = Returns m'
    /\ Forall (fun c => is_hex_digit c = true /\ upper_hex c = c)
         (load m' output (Z.to_nat (2 * input_size))).
Proof.
  intros Hn Hsize Hrange Hgeo.
  destruct (HexadecimalEncode_returns m input input_size output output_size
              Hn Hgeo Hsize Hrange) as (m' & Hrun & Hout & _).
  exists m'. split; [exact Hrun|].
  replace (Z.to_nat (2 * input_size)) with (Z.to_nat input_size * 2)%nat
    by lia.
  rewrite Hout. apply encode_list_upper.
Qed.

Lemma HexadecimalEncode_alphabet_witness :
  exists m',
    HexadecimalEncode (fill blank 0 [x00; x0a; xab]) 0 3 10 6 = Returns m'
    /\ Forall (fun c => is_hex_digit c = true /\ upper_hex c = c)
         (load m' 10 (Z.to_nat (2 * 3))).
Proof.
  apply (HexadecimalEncode_alphabet (fill blank 0 [x00; x0a; xab]) 0 3 10 6).
  - lia.
  - lia.
  - unfold int64_range. lia.
  - unfold encode_overlap_ok. lia.
Defined.

Section Overruns.

Lemma encode_loop_overrun (fuel : nat) :
  forall input_rend input output m,
    encode_loop fuel input_rend input output m = LoopOverrun
    <-> input < input_rend \/ Z.of_nat fuel < input - input_rend.
Proof.
  induction fuel as [|fuel IH]; intros rend x o m; cbn [encode_loop];
    destruct (Z.eqb_spec x rend) as [->|Hne].
  - split; [discriminate | lia].
  - split; [lia | reflexivity].
  - split; [discriminate | lia].
  - rewrite IH. lia.
Qed.

Lemma decode_loop_overrun (fuel : nat) :
  forall input h output m,
    decode_loop fuel (input + 2 * h) input output m = LoopOverrun
    <-> h < 0 \/ Z.of_nat fuel < h.
Proof.
  induction fuel as [|fuel IH]; intros x h o m; cbn [decode_loop];
    destruct (Z.eqb_spec x (x + 2 * h)) as [He|Hne].
  - split; [discriminate | lia].
  - split; [lia | reflexivity].
  - split; [discriminate | lia].
  - replace (x + 2 * h) with ((x + 2) + 2 * (h - 1)) by lia.
    rewrite IH. lia.
Qed.

End Overruns.

(** X24. Neither function checks the sign of [input_size].  A call with a
    negative size that passes the two [CHECK]s enters the loop with the
    end pointer on the wrong side of the start, so that the loop walks out
    of the buffers and never reaches its end; this is the only way for the
    loop not to end: with a size that is not negative the functions fail
    a [CHECK] or return.  This is for calls whose pointers stay in the
    address space, so that no pointer of a [CHECK] wraps around, and for a
    size that [<< 1] does not overflow. *)
Theorem negative_size_overruns
    (m : memory) (input input_size output output_size : Z) :
  - 2 ^ 62 <= input_size < 2 ^ 62 ->
  int64_range output_size ->
  (Forall Addresses.address
     (Addresses.encode_pointers input input_size output) ->
   (HexadecimalEncode m input input_size output output_size = LoopOverrun
    <-> input_size < 0
        /\ encode_overlap_ok input input_size output
        /\ 2 * input_size <= output_size))
  /\ (Forall Addresses.address
        (Addresses.decode_pointers input input_size output) ->
      (HexadecimalDecode m input input_size output output_size = LoopOverrun
       <-> input_size < 0
           /\ decode_overlap_ok input (2 * (input_size / 2)) output
           /\ input_size / 2 <= output_size)).
Proof.
  intros Hn _. split; intros _.
  - unfold HexadecimalEncode, encode_overlap_ok.
    rewrite (shl1_double input_size) by exact Hn. rewrite Z.geb_leb.
    destruct (Z.leb_spec input (output + 1)) as [Ha|Ha];
      destruct (Z.leb_spec (output + 2 * input_size) input) as [Hb|Hb];
      cbn [orb negb];
      try (split; [discriminate | lia]);
      (destruct (Z.leb_spec (2 * input_size) output_size) as [Hc|Hc];
       cbn [negb]; [|split; [discriminate | lia]]);
      cbv zeta; rewrite encode_loop_overrun; lia.
  - unfold HexadecimalDecode, decode_overlap_ok.
    rewrite land_lnot_1. rewrite Z.geb_leb.
    rewrite (Z.mul_comm 2 (input_size / 2)), Z.quot_mul by lia.
    rewrite (Z.mul_comm (input_size / 2) 2).
    pose proof (Z.div_mod input_size 2 ltac:(lia)) as Hdm.
    pose proof (Z.mod_pos_bound input_size 2 ltac:(lia)) as Hmod.
    destruct (Z.leb_spec output (input + 1)) as [Ha|Ha];
      destruct (Z.leb_spec (input + 2 * (input_size / 2)) output) as [Hb|Hb];
      cbn [orb negb];
      try (split; [discriminate | lia]);
      (destruct (Z.leb_spec (input_size / 2) output_size) as [Hc|Hc];
       cbn [negb]; [|split; [discriminate | lia]]);
      cbv zeta; rewrite decode_loop_overrun; lia.
Qed.

Lemma negative_size_overruns_witness :
  HexadecimalEncode blank 10 (-1) 10 0 = LoopOverrun
  /\ HexadecimalDecode blank 10 (-1) 10 0 = LoopOverrun.
Proof.
  destruct (negative_size_overruns blank 10 (-1) 10 0 ltac:(lia)
              ltac:(unfold int64_range; lia))
    as (Hencode & Hdecode).
  split.
  - apply Hencode.
    + repeat constructor; vm_compute; discriminate.
    + unfold encode_overlap_ok. lia.
  - apply Hdecode.
    + repeat constructor; vm_compute; discriminate.
    + unfold decode_overlap_ok. change (-1 / 2) with (-1). lia.
Defined.

(** X25. An empty input is accepted wherever the buffers are: with
    [input_size] 0 [HexadecimalEncode] passes the overlap [CHECK] for every
    pair of pointers and returns with the memory as it was, and so does
    [HexadecimalDecode] with [input_size] 0 or 1, as long as
    [output_size] is not negative; with a negative [output_size] they
    fail the second [CHECK]. *)
Theorem empty_input
    (m : memory) (input input_size output output_size : Z) :
  (0 <= output_size ->
   HexadecimalEncode m input 0 output output_size = Returns m)
  /\ (output_size < 0 ->
      HexadecimalEncode m input 0 output output_size
      = CheckFailure "output too small")
  /\ (0 <= input_size <= 1 -> 0 <= output_size ->
      HexadecimalDecode m input input_size output output_size = Returns m)
  /\ (0 <= input_size <= 1 -> output_size < 0 ->
      HexadecimalDecode m input input_size output output_size
      = CheckFailure "output too small").
Proof.
  assert (He : forall s,
             HexadecimalEncode m input 0 output s
             = if 0 <=? s then Returns m else CheckFailure "output too small").
  { intros s. unfold HexadecimalEncode. change (shl1 0) with 0.
    rewrite Z.geb_leb, Z.add_0_r.
    destruct (Z.leb_spec input (output + 1));
      destruct (Z.leb_spec output input); try lia; cbn [orb negb];
      destruct (0 <=? s); cbn [negb]; try reflexivity;
      cbv zeta; replace (input + 0 - 1 - 0) with (input + 0 - 1) by lia;
      apply encode_loop_done. }
  assert (Hd : forall n s,
             0 <= n <= 1 ->
             HexadecimalDecode m input n output s
             = if 0 <=? s then Returns m else CheckFailure "output too small").
  { intros n s Hn. unfold HexadecimalDecode.
    replace (Z.land n (Z.lnot 1)) with 0
      by (assert (n = 0 \/ n = 1) as [-> | ->] by lia; reflexivity).
    change (Z.quot 0 2) with 0. rewrite Z.geb_leb, Z.add_0_r.
    destruct (Z.leb_spec output (input + 1));
      destruct (Z.leb_spec input output); try lia; cbn [orb negb];
      destruct (0 <=? s); cbn [negb]; try reflexivity;
      cbv zeta; change (Z.to_nat 0) with 0%nat; apply decode_loop_done. }
  repeat split.
  - intros Hs. rewrite He. now destruct (Z.leb_spec 0 output_size); [|lia].
  - intros Hs. rewrite He. now destruct (Z.leb_spec 0 output_size); [lia|].
  - intros Hn Hs. rewrite Hd by exact Hn.
    now destruct (Z.leb_spec 0 output_size); [|lia].
  - intros Hn Hs. rewrite Hd by exact Hn.
    now destruct (Z.leb_spec 0 output_size); [lia|].
Qed.

Lemma empty_input_witness :
  HexadecimalEncode blank 5 0 0 0 = Returns blank
  /\ HexadecimalDecode blank 0 1 5 0 = Returns blank.
Proof.
  destruct (empty_input blank 5 0 0 0) as (Hencode & _).
  destruct (empty_input blank 0 1 5 0) as (_ & _ & Hdecode & _).
  split; [apply Hencode | apply Hdecode]; lia.
Defined.

(** ** The expressions of mathematica/mathematica_body.hpp *)

Import mathematica.

Section Expressions.

Lemma append_assoc (a b c : string) :
  ((a ++ b) ++ c = a ++ (b ++ c))%string.
Proof.
  induction a as [|x a IH]; [reflexivity|].
  cbn [append]. now rewrite IH.
Qed.

Lemma Apply_loop_rest (arguments : list string) :
  forall rest done result,
    arguments = done ++ rest ->
    rest <> [] ->
    Apply_loop (List.length rest) arguments (List.length done) result
    = (result ++ String.concat "," rest ++ "]")%string.
Proof.
  induction rest as [|a rest IH]; intros done result Hargs Hne;
    [contradiction|].
  cbn [List.length Apply_loop].
  assert (Hlen : List.length arguments
                 = (List.length done + S (List.length rest))%nat).
  { rewrite Hargs, length_app. reflexivity. }
  destruct (Nat.ltb_spec (List.length done) (List.length arguments));
    [|lia].
  cbv zeta.
  replace (nth (List.length done) arguments EmptyString) with a
    by (rewrite Hargs; symmetry; apply nth_middle).
  destruct rest as [|b rest].
  - destruct (Nat.eqb_spec (List.length done + 1) (List.length arguments));
      [|cbn [List.length] in Hlen; lia].
    cbn [List.length Apply_loop String.concat]. apply append_assoc.
  - destruct (Nat.eqb_spec (List.length done + 1) (List.length arguments));
      [cbn [List.length] in Hlen; lia|].
    replace (List.length done + 1)%nat with (List.length (done ++ [a]))
      by (rewrite length_app; reflexivity).
    rewrite (IH (done ++ [a])); [| now rewrite <- app_assoc | discriminate].
    change (String.concat "," (a :: b :: rest))
      with (a ++ "," ++ String.concat "," (b :: rest))%string.
    now rewrite !append_assoc.
Qed.

End Expressions.

(** X28. [Apply(function, arguments)] writes the function, an opening
    bracket, the arguments with commas between them and a closing bracket.
    The closing bracket comes with the last argument: without arguments
    the expression is left open, the function and its opening bracket. *)
Theorem Apply_brackets (function : string) (arguments : list string) :
  (arguments <> [] ->
   Apply function arguments
   = (function ++ "[" ++ String.concat "," arguments ++ "]")%string)
  /\ Apply function [] = (function ++ "[")%string.
Proof.
  split; [|reflexivity].
  intros Hne. unfold Apply. cbv zeta. cbn [append].
  rewrite (Apply_loop_rest arguments arguments [] _ eq_refl Hne).
  apply append_assoc.
Qed.

Lemma Apply_brackets_witness :
  Apply "Rule" ["a"%string; "b"%string] = "Rule[a,b]"%string.
Proof.
  apply (proj1 (Apply_brackets "Rule" ["a"%string; "b"%string])).
  discriminate.
Defined.
